(** * Query safety and rewrite gateway of llm-postgis-assistant

    A shallow embedding of the Python sources
    [safeguards/sql_parser.py], [db/explain_gate.py], [db/engine.py],
    [db/schema_cache.py], [db/introspect.py], [db/sql_fixup.py],
    [llm/prompts.py] and [app/routers/chat.py], followed by the properties
    of the specification that concern them and by further properties of the
    code.

    Conventions of the embedding.
    - A Python [str] is a list of bytes ([list ascii]) holding the UTF-8
      encoding of the text; [py "..."] turns a literal into such a list.
    - [str.lower] and [str.upper] act on ASCII letters and on the accented
      Latin-1 letters (two-byte sequences led by byte 195); other code points
      are left alone.  [str.strip] and the regular-expression class [\s]
      recognise the ASCII white space of Python ([\t\n\v\f\r], 28..31 and the
      blank); [\w] recognises ASCII letters, digits, the underscore and every
      byte of a non-ASCII character.  Under [re.IGNORECASE] a class of
      letters matches the ASCII letters only.
    - [len] and the slice [s[:n]] count characters, the bytes that do not
      continue a UTF-8 sequence; an index that [str.find] answers counts
      bytes, in [find] and in the slice that uses it alike.
    - A Python [float] is a binary64 number of the kernel; the text that
      Python prints for it ([repr]) is a parameter, [float_repr].
    - External collaborators (the sqlglot parser, the database session, the
      planner, the language models, the iteration order of a Python [set])
      are parameters of the functions that call them. *)

From Stdlib Require Import Floats.
From Stdlib Require Import ZArith Ascii String Lia Permutation.
From stdpp Require Import base list gmap strings pretty.

Set Default Proof Using "Type".

(* ===================================================================== *)
(** ** Python strings *)
(* ===================================================================== *)

Module PyStr.

Definition str := list ascii.

Definition py (s : string) : str := list_ascii_of_string s.

Definition ord (c : ascii) : N := N_of_ascii c.

Definition in_range (lo hi : N) (c : ascii) : bool :=
  ((lo <=? ord c) && (ord c <=? hi))%N.

(** [str.isspace] on one character. *)
Definition is_space (c : ascii) : bool :=
  in_range 9 13 c || in_range 28 32 c.

Definition is_upper_ascii (c : ascii) : bool := in_range 65 90 c.
Definition is_lower_ascii (c : ascii) : bool := in_range 97 122 c.
Definition is_digit (c : ascii) : bool := in_range 48 57 c.
Definition is_alpha_ascii (c : ascii) : bool :=
  is_upper_ascii c || is_lower_ascii c.

(** The class [\w]. *)
Definition is_word (c : ascii) : bool :=
  is_alpha_ascii c || is_digit c || Ascii.eqb c "_" || (128 <=? ord c)%N.

Definition shift_char (d : Z) (c : ascii) : ascii :=
  ascii_of_N (Z.to_N (Z.of_N (ord c) + d)).

Definition lead_latin1 (c : ascii) : bool := (ord c =? 195)%N.

(** Second byte of an upper-case (resp. lower-case) accented Latin-1 letter;
    the multiplication and division signs have no case. *)
Definition is_upper_latin1 (c : ascii) : bool :=
  in_range 128 158 c && negb (ord c =? 151)%N.
Definition is_lower_latin1 (c : ascii) : bool :=
  in_range 160 190 c && negb (ord c =? 183)%N.

Definition lower_char (after_lead : bool) (c : ascii) : ascii :=
  if is_upper_ascii c then shift_char 32 c
  else if after_lead && is_upper_latin1 c then shift_char 32 c
  else c.

Definition upper_char (after_lead : bool) (c : ascii) : ascii :=
  if is_lower_ascii c then shift_char (-32) c
  else if after_lead && is_lower_latin1 c then shift_char (-32) c
  else c.

Fixpoint lower_from (after_lead : bool) (s : str) : str :=
  match s with
  | [] => []
  | c :: s' => lower_char after_lead c :: lower_from (lead_latin1 c) s'
  end.

Fixpoint upper_from (after_lead : bool) (s : str) : str :=
  match s with
  | [] => []
  | c :: s' => upper_char after_lead c :: upper_from (lead_latin1 c) s'
  end.

(** [s.lower()] and [s.upper()]. *)
Definition lower (s : str) : str := lower_from false s.
Definition upper (s : str) : str := upper_from false s.

Fixpoint drop_while (p : ascii -> bool) (s : str) : str :=
  match s with
  | [] => []
  | c :: s' => if p c then drop_while p s' else s
  end.

Definition drop_while_end (p : ascii -> bool) (s : str) : str :=
  rev (drop_while p (rev s)).

(** [s.lstrip()], [s.rstrip()], [s.strip()]. *)
Definition lstrip (s : str) : str := drop_while is_space s.
Definition rstrip (s : str) : str := drop_while_end is_space s.
Definition strip (s : str) : str := lstrip (rstrip s).

Definition mem_char (chars : str) (c : ascii) : bool :=
  existsb (Ascii.eqb c) chars.

(** [s.rstrip(chars)]: every trailing character that belongs to [chars]. *)
Definition rstrip_chars (chars s : str) : str :=
  drop_while_end (mem_char chars) s.

(** [s.startswith(p)]. *)
Fixpoint startswith (p s : str) : bool :=
  match p, s with
  | [], _ => true
  | _ :: _, [] => false
  | a :: p', b :: s' => Ascii.eqb a b && startswith p' s'
  end.

(** [needle in s]. *)
Fixpoint contains (needle s : str) : bool :=
  startswith needle s ||
  match s with
  | [] => false
  | _ :: s' => contains needle s'
  end.

Fixpoint find_from (needle s : str) (i : Z) : Z :=
  if startswith needle s then i
  else match s with
       | [] => (-1)%Z
       | _ :: s' => find_from needle s' (i + 1)%Z
       end.

(** [s.find(needle)]: index of the first occurrence, or [-1]. *)
Definition find (needle s : str) : Z := find_from needle s 0.

(** [s[i:]] for an index [i >= 0]. *)
Definition slice_from (i : Z) (s : str) : str := drop (Z.to_nat i) s.

(** [s.split(None, 1)[1]]; [None] stands for the [IndexError] raised when
    the text holds fewer than two white-space separated fields. *)
Definition split_ws_second (s : str) : option str :=
  let after_first := drop_while (fun c => negb (is_space c)) (lstrip s) in
  match lstrip after_first with
  | [] => None
  | c :: r => Some (c :: r)
  end.

(** [str(n)] for an integer. *)
Definition str_of_Z (n : Z) : str := py (pretty n).

Definition digit_value (c : ascii) : Z := Z.of_N (ord c) - 48.

Fixpoint digits_value (acc : Z) (s : str) : Z :=
  match s with
  | [] => acc
  | c :: s' => digits_value (10 * acc + digit_value c)%Z s'
  end.

(** [int(s)] on the decimal texts that [str(n)] produces. *)
Definition int_of_str (s : str) : Z :=
  match s with
  | c :: s' => if Ascii.eqb c "-" then (- digits_value 0 s')%Z
               else digits_value 0 s
  | [] => 0%Z
  end.

#[global] Instance str_eq_dec : EqDecision str := _.

(** The newline character. *)
Definition nl : str := ["010"%char].

(** [sep.join(parts)]. *)
Fixpoint join (sep : str) (parts : list str) : str :=
  match parts with
  | [] => []
  | [p] => p
  | p :: rest => p ++ sep ++ join sep rest
  end.

(** [s.replace(old, new)] for a text [old] that is not empty: the
    occurrences of [old] are taken from left to right and do not overlap;
    [skip] counts the characters of the last occurrence that are still to
    be stepped over. *)
Fixpoint replace_from (old new : str) (skip : nat) (s : str) : str :=
  match skip with
  | S n =>
      match s with
      | [] => []
      | _ :: s' => replace_from old new n s'
      end
  | O =>
      if startswith old s then
        new ++ match s with
               | [] => []
               | _ :: s' => replace_from old new (length old - 1) s'
               end
      else
        match s with
        | [] => []
        | c :: s' => c :: replace_from old new 0 s'
        end
  end.

Definition replace (old new s : str) : str := replace_from old new 0 s.

(** A byte that continues the UTF-8 encoding of a character. *)
Definition is_continuation (c : ascii) : bool := in_range 128 191 c.

(** [len(s)]: the number of characters. *)
Definition len (s : str) : nat :=
  length (filter (fun c => negb (is_continuation c)) s).

(** [s[:n]]: the first [n] characters, each with the bytes that continue
    it. *)
Fixpoint take_chars (n : nat) (s : str) : str :=
  match s with
  | [] => []
  | c :: s' =>
      if is_continuation c then c :: take_chars n s'
      else match n with
           | O => []
           | S n' => c :: take_chars n' s'
           end
  end.

End PyStr.

Import PyStr.

(* ===================================================================== *)
(** ** safeguards/sql_parser.py *)
(* ===================================================================== *)

Module SqlParser.

(** What [sqlglot.parse_one] answers: a syntax tree, of which the validator
    inspects the class and the [key] attribute, or an exception with its
    message. *)
Inductive ast :=
  | Select
  | With
  | Other (key class_name : str).

Inductive parse_outcome :=
  | Parsed (a : ast)
  | ParseError (msg : str).

(** [isinstance(ast, ALLOW)] with [ALLOW = (Select, With)]. *)
Definition ALLOW (a : ast) : bool :=
  match a with
  | Select | With => true
  | Other _ _ => false
  end.

Definition BLOCK_KW : list str :=
  map py
    [" drop "; " truncate "; " alter "; " delete "; " update "; " insert ";
     " create table "; " create schema "; " create index "; " grant ";
     " revoke "; " vacuum "; " analyze "; " copy "; " call "; " do "].

(** The loop [for kw in BLOCK_KW: if kw in low_padded: return ...], followed
    by [return True, "OK"]. *)
Fixpoint scan_block (kws : list str) (low_padded : str) : bool * str :=
  match kws with
  | [] => (true, py "OK")
  | kw :: rest =>
      if contains kw low_padded
      then (false, py "Keyword bloqueada: " ++ upper (strip kw))
      else scan_block rest low_padded
  end.

(** The text handed to the parser in the [EXPLAIN] branch; [None] stands for
    the [IndexError] of the fall-back, caught by [except Exception]. *)
Definition explain_inner (s low : str) : option str :=
  let idx_sel := find (py " select ") low in
  let idx_with := find (py " with ") low in
  let idx := Z.max idx_sel idx_with in
  if (idx =? -1)%Z then split_ws_second s
  else Some (lstrip (slice_from idx s)).

(** [getattr(ast, "key", "").upper() or type(ast).__name__]. *)
Definition node_name (a : ast) : str :=
  match a with
  | Select => py "SELECT"
  | With => py "WITH"
  | Other key class_name =>
      match upper key with
      | [] => class_name
      | k => k
      end
  end.

Section Validator.

Variable parse_one : str -> parse_outcome.

Definition is_safe_sql (sql : str) : bool * str :=
  match strip sql with
  | [] => (false, py "SQL vacío")
  | _ =>
    let s := rstrip_chars (py ";") (strip sql) in
    let low := lstrip (lower s) in
    if startswith (py "explain ") low then
      match explain_inner s low with
      | None => (false, py "Parse error (EXPLAIN): list index out of range")
      | Some inner =>
        match parse_one inner with
        | ParseError e => (false, py "Parse error (EXPLAIN): " ++ e)
        | Parsed a =>
          if negb (ALLOW a)
          then (false, py "EXPLAIN solo permitido sobre SELECT/WITH")
          else scan_block BLOCK_KW (py " " ++ lower s ++ py " ")
        end
      end
    else
      match parse_one s with
      | ParseError e => (false, py "Parse error: " ++ e)
      | Parsed a =>
        if negb (ALLOW a)
        then (false, py "Solo SELECT/WITH/EXPLAIN permitidos (recibido: "
                       ++ node_name a ++ py ")")
        else scan_block BLOCK_KW (py " " ++ low ++ py " ")
      end
  end.

End Validator.

End SqlParser.

(* ===================================================================== *)
(** ** The regular expressions of Python's [re], as far as the sources
       use them *)
(* ===================================================================== *)

Module Re.

(** Patterns.  Repetition is only ever applied to a one-character class in
    the sources ([\s+], [[a-zA-Z0-9_]+], [[^,]+], [.*?]), which is what
    [Star] offers; [Opt] is the greedy [(...)?]. *)
Inductive regex :=
  | Eps
  | Chr (p : ascii -> bool)
  | Seq (r1 r2 : regex)
  | Alt (r1 r2 : regex)
  | Opt (r : regex)
  | Star (p : ascii -> bool) (greedy : bool)
  | Group (n : nat) (r : regex)
  | WordB
  | Bol
  | Eol.

(** A position in the subject: the text before it, most recent character
    first, and the text after it. *)
Record cursor := Cursor { before : str; after : str }.

Definition whole (c : cursor) : str := rev (before c) ++ after c.

Definition pos (c : cursor) : nat := length (before c).

(** Captured groups, by number. *)
Definition caps := list (nat * str).

Fixpoint cap_lookup (n : nat) (cs : caps) : option str :=
  match cs with
  | [] => None
  | (m, t) :: cs' => if Nat.eqb n m then Some t else cap_lookup n cs'
  end.

(** The text between two positions of one subject. *)
Definition between (c1 c2 : cursor) : str :=
  rev (take (pos c2 - pos c1) (before c2)).

Definition cont := cursor -> caps -> option (cursor * caps).

Definition prev_is_word (c : cursor) : bool :=
  match before c with
  | [] => false
  | x :: _ => is_word x
  end.

Definition next_is_word (c : cursor) : bool :=
  match after c with
  | [] => false
  | x :: _ => is_word x
  end.

(** [$] without [re.MULTILINE]: the end, or just before a final newline. *)
Definition at_eol (c : cursor) : bool :=
  match after c with
  | [] => true
  | x :: [] => Ascii.eqb x "010"
  | _ => false
  end.

(** Greedy repetition: take one more character first, give it back when the
    continuation fails. *)
Fixpoint star_greedy (p : ascii -> bool) (k : cont)
    (bf af : str) (cs : caps) {struct af} : option (cursor * caps) :=
  match af with
  | x :: af' =>
      if p x then
        match star_greedy p k (x :: bf) af' cs with
        | Some r => Some r
        | None => k (Cursor bf af) cs
        end
      else k (Cursor bf af) cs
  | [] => k (Cursor bf af) cs
  end.

(** Lazy repetition: try the continuation first. *)
Fixpoint star_lazy (p : ascii -> bool) (k : cont)
    (bf af : str) (cs : caps) {struct af} : option (cursor * caps) :=
  match k (Cursor bf af) cs with
  | Some r => Some r
  | None =>
      match af with
      | x :: af' => if p x then star_lazy p k (x :: bf) af' cs else None
      | [] => None
      end
  end.

(** The backtracking matcher, in continuation-passing style: alternatives
    are tried in order and the first complete match wins. *)
Fixpoint run (r : regex) (c : cursor) (cs : caps) (k : cont)
    : option (cursor * caps) :=
  match r with
  | Eps => k c cs
  | Chr p =>
      match after c with
      | x :: af' => if p x then k (Cursor (x :: before c) af') cs else None
      | [] => None
      end
  | Seq r1 r2 => run r1 c cs (fun c' cs' => run r2 c' cs' k)
  | Alt r1 r2 =>
      match run r1 c cs k with
      | Some res => Some res
      | None => run r2 c cs k
      end
  | Opt r1 =>
      match run r1 c cs k with
      | Some res => Some res
      | None => k c cs
      end
  | Star p true => star_greedy p k (before c) (after c) cs
  | Star p false => star_lazy p k (before c) (after c) cs
  | Group n r1 => run r1 c cs (fun c' cs' => k c' ((n, between c c') :: cs'))
  | WordB => if xorb (prev_is_word c) (next_is_word c) then k c cs else None
  | Bol => match before c with [] => k c cs | _ :: _ => None end
  | Eol => if at_eol c then k c cs else None
  end.

Definition accept : cont := fun c cs => Some (c, cs).

(** A match object. *)
Record rmatch := Match { m_start : cursor; m_end : cursor; m_caps : caps }.

(** [m.group(0)], [m.group(n)] ([None] for a group that took no part) and
    the length of the match. *)
Definition group0 (m : rmatch) : str := between (m_start m) (m_end m).
Definition group (n : nat) (m : rmatch) : option str := cap_lookup n (m_caps m).
Definition group_or_empty (n : nat) (m : rmatch) : str :=
  default [] (group n m).
Definition m_len (m : rmatch) : nat := pos (m_end m) - pos (m_start m).

(** [pattern.match] at a given position. *)
Definition match_at (r : regex) (c : cursor) : option rmatch :=
  match run r c [] accept with
  | Some (e, cs) => Some (Match c e cs)
  | None => None
  end.

(** [re.match(r, s)]. *)
Definition re_match (r : regex) (s : str) : option rmatch :=
  match_at r (Cursor [] s).

Fixpoint search_from (r : regex) (bf af : str) {struct af} : option rmatch :=
  match match_at r (Cursor bf af) with
  | Some m => Some m
  | None =>
      match af with
      | [] => None
      | x :: af' => search_from r (x :: bf) af'
      end
  end.

(** [re.search(r, s)]: the leftmost match. *)
Definition search (r : regex) (s : str) : option rmatch := search_from r [] s.

Definition found (r : regex) (s : str) : bool :=
  match search r s with Some _ => true | None => false end.

(** The scan shared by [finditer], [findall] and [sub]: matches are sought
    from left to right and do not overlap; [skip] counts the characters of
    the last match that are still to be stepped over. *)
Fixpoint finditer_from (r : regex) (skip : nat) (bf af : str) {struct af}
    : list rmatch :=
  match skip with
  | S n =>
      match af with
      | [] => []
      | x :: af' => finditer_from r n (x :: bf) af'
      end
  | O =>
      match match_at r (Cursor bf af) with
      | Some m =>
          m :: match af with
               | [] => []
               | x :: af' => finditer_from r (m_len m - 1) (x :: bf) af'
               end
      | None =>
          match af with
          | [] => []
          | x :: af' => finditer_from r 0 (x :: bf) af'
          end
      end
  end.

Definition finditer (r : regex) (s : str) : list rmatch :=
  finditer_from r 0 [] s.

Section Sub.

Context {St : Type}.

(** [re.sub(r, repl, s)] where [repl] is a function of the match; the state
    [St] carries what the Python callback mutates. *)
Fixpoint sub_from (r : regex) (repl : rmatch -> St -> str * St)
    (skip : nat) (bf af : str) (st : St) {struct af} : str * St :=
  match skip with
  | S n =>
      match af with
      | [] => ([], st)
      | x :: af' => sub_from r repl n (x :: bf) af' st
      end
  | O =>
      match match_at r (Cursor bf af) with
      | Some m =>
          let '(new, st1) := repl m st in
          match af with
          | [] => (new, st1)
          | x :: af' =>
              let '(out, st2) :=
                sub_from r repl (m_len m - 1) (x :: bf) af' st1 in
              match m_len m with
              | O => (new ++ x :: out, st2)
              | S _ => (new ++ out, st2)
              end
          end
      | None =>
          match af with
          | [] => ([], st)
          | x :: af' =>
              let '(out, st1) := sub_from r repl 0 (x :: bf) af' st in
              (x :: out, st1)
          end
      end
  end.

Definition sub_with (r : regex) (repl : rmatch -> St -> str * St)
    (s : str) (st : St) : str * St :=
  sub_from r repl 0 [] s st.

End Sub.

(** [re.sub(r, template, s)] for a replacement that depends on the match
    only. *)
Definition sub (r : regex) (repl : rmatch -> str) (s : str) : str :=
  fst (sub_with r (fun m (_ : unit) => (repl m, tt)) s tt).

(** *** Building patterns *)

Fixpoint seqs (rs : list regex) : regex :=
  match rs with
  | [] => Eps
  | [r] => r
  | r :: rs' => Seq r (seqs rs')
  end.

Definition plus (p : ascii -> bool) : regex := Seq (Chr p) (Star p true).

(** A literal character, and the same under [re.IGNORECASE]. *)
Definition is_char (c x : ascii) : bool := Ascii.eqb x c.
Definition is_char_i (c x : ascii) : bool :=
  Ascii.eqb (lower_char false x) (lower_char false c).

Fixpoint lit (s : str) : regex :=
  match s with
  | [] => Eps
  | c :: s' => Seq (Chr (is_char c)) (lit s')
  end.

Fixpoint lit_i (s : str) : regex :=
  match s with
  | [] => Eps
  | c :: s' => Seq (Chr (is_char_i c)) (lit_i s')
  end.

(** [[a-zA-Z0-9_]], [[a-zA-Z_]], [[^,]], [[^)]] and [.] under [re.DOTALL]. *)
Definition ident_char (x : ascii) : bool :=
  is_alpha_ascii x || is_digit x || Ascii.eqb x "_".
Definition ident_start (x : ascii) : bool :=
  is_alpha_ascii x || Ascii.eqb x "_".
Definition not_comma (x : ascii) : bool := negb (Ascii.eqb x ",").
Definition not_rparen (x : ascii) : bool := negb (Ascii.eqb x ")").
Definition any_char (x : ascii) : bool := true.

End Re.

Import Re.

(** Python's truth value of a [str] and of an [Optional[str]]. *)
Definition truthy (s : str) : bool :=
  match s with [] => false | _ :: _ => true end.

Definition truthy_opt (o : option str) : bool :=
  match o with Some s => truthy s | None => false end.

(** [a or b] on [Optional[str]] values. *)
Definition or_else (a b : option str) : option str :=
  if truthy_opt a then a else b.

(** Python values found in a plan summary or in a result row. *)
Inductive pyval :=
  | PNone
  | PInt (n : Z)
  | PFloat (x : float)
  | PStr (s : str).

Definition truthy_val (v : pyval) : bool :=
  match v with
  | PNone => false
  | PInt n => negb (n =? 0)%Z
  | PFloat x => negb (PrimFloat.eqb x 0%float)
  | PStr s => truthy s
  end.

(** [str(v)], and the values that stand for an [Optional[str]] and an
    [Optional[int]]. *)
Definition show (float_repr : float -> str) (v : pyval) : str :=
  match v with
  | PNone => py "None"
  | PInt n => str_of_Z n
  | PFloat x => float_repr x
  | PStr s => s
  end.

Definition of_opt_str (o : option str) : pyval :=
  match o with Some s => PStr s | None => PNone end.

Definition of_opt_int (o : option Z) : pyval :=
  match o with Some n => PInt n | None => PNone end.

(** A [dict] whose iteration order matters: an association list in
    insertion order; assigning to a key that is present keeps its place. *)
Section Dict.

Context {K V : Type} `{EqDecision K}.

Fixpoint dict_get (k : K) (d : list (K * V)) : option V :=
  match d with
  | [] => None
  | (k', v) :: d' => if decide (k = k') then Some v else dict_get k d'
  end.

Fixpoint dict_set (k : K) (v : V) (d : list (K * V)) : list (K * V) :=
  match d with
  | [] => [(k, v)]
  | (k', v') :: d' =>
      if decide (k = k') then (k, v) :: d' else (k', v') :: dict_set k v d'
  end.

Definition dict_mem (k : K) (d : list (K * V)) : bool :=
  match dict_get k d with Some _ => true | None => false end.

End Dict.

(* ===================================================================== *)
(** ** db/schema_cache.py *)
(* ===================================================================== *)

Module SchemaCache.

Definition PREFERRED_GEOM_ORDER : list str :=
  map py ["geometria"; "geometry"; "geom"; "the_geom"].

Record ColumnInfo := mkColumnInfo {
  name : str;
  data_type : str;
  is_nullable : bool;
  is_pk : bool
}.

Record GeometryInfo := mkGeometryInfo {
  column : str;
  srid : option Z;
  gtype : option str
}.

Record IndexInfo := mkIndexInfo {
  idx_name : str;
  method : str;
  idx_columns : list str
}.

Record TableInfo := mkTableInfo {
  schema : str;
  table : str;
  columns : list ColumnInfo;
  pk_cols : list str;
  geom : option GeometryInfo;
  indexes : list IndexInfo;
  fks : list (list str * str * list str)
}.

Definition str_in (x : str) (l : list str) : bool := bool_decide (x ∈ l).

(** [l.index(x)]; [None] stands for [ValueError]. *)
Fixpoint index_of (x : str) (l : list str) : option nat :=
  match l with
  | [] => None
  | y :: l' => if decide (x = y) then Some 0
               else option_map S (index_of x l')
  end.

(** [sorted(rows, key=...)] is stable: insertion behind the elements whose
    key is not larger. *)
Fixpoint insert_by {A} (key : A -> nat) (x : A) (l : list A) : list A :=
  match l with
  | [] => [x]
  | y :: l' => if (key y <=? key x)%nat then y :: insert_by key x l'
               else x :: y :: l'
  end.

Definition sorted_by {A} (key : A -> nat) (l : list A) : list A :=
  foldl (fun acc x => insert_by key x acc) [] l.

(** What the metadata queries of the loader answer for one table. *)
Record table_rows := mkTableRows {
  column_rows : list (str * str * str);      (* [_load_columns]: name, type, YES/NO *)
  pk_rows : list str;                        (* [_load_pk], ordered by attnum *)
  geometry_rows : list (str * option Z * option str);
  index_rows : list (str * str * list str);
  fk_rows : list (list str * str * list str)
}.

Definition _load_columns (rows : table_rows) : list ColumnInfo :=
  map (fun r => mkColumnInfo r.1.1 r.1.2 (bool_decide (r.2 = py "YES")) false)
      (column_rows rows).

Definition geom_key (n : str) : nat :=
  default (length PREFERRED_GEOM_ORDER) (index_of n PREFERRED_GEOM_ORDER).

(** [_load_geometry]; the outer [None] stands for the [ValueError] that
    [PREFERRED_GEOM_ORDER.index] raises on a candidate whose name is not in
    lower case. *)
Definition _load_geometry (rows : table_rows) : option (option GeometryInfo) :=
  match sorted_by (fun r => geom_key r.1.1) (geometry_rows rows) with
  | best :: _ => Some (Some (mkGeometryInfo best.1.1 best.1.2 best.2))
  | [] =>
      let candidates :=
        filter (fun n => str_in (lower n) PREFERRED_GEOM_ORDER)
               (map name (_load_columns rows)) in
      match candidates with
      | [] => Some None
      | _ :: _ =>
          if forallb (fun n => str_in n PREFERRED_GEOM_ORDER) candidates
          then match sorted_by geom_key candidates with
               | c0 :: _ => Some (Some (mkGeometryInfo c0 None None))
               | [] => Some None
               end
          else None
      end
  end.

Section Loader.

(** The order in which Python iterates over [set(xs)]: some arrangement of
    the distinct elements of [xs], left open by the language. *)
Variable set_iter : list str -> list str.

(** The body of the loop of [load_schema_cache] for one table. *)
Definition load_table (s t : str) (rows : table_rows) : option TableInfo :=
  let cols := _load_columns rows in
  let pk := pk_rows rows in
  let cols :=
    map (fun c => if str_in (name c) pk
                  then mkColumnInfo (name c) (data_type c) (is_nullable c) true
                  else c) cols in
  match _load_geometry rows with
  | None => None
  | Some g =>
      Some (mkTableInfo s t cols (set_iter pk) g
              (map (fun r => mkIndexInfo r.1.1 r.1.2 r.2) (index_rows rows))
              (fk_rows rows))
  end.

(** [load_schema_cache]: the cache is emptied, then filled table by table;
    [tables] is the answer of the query over [information_schema.tables]
    and [rows_of] the answers of the per-table queries. *)
Fixpoint load_tables (tables : list (str * str))
    (rows_of : str -> str -> table_rows)
    (cache : gmap (str * str) TableInfo) : option (gmap (str * str) TableInfo) :=
  match tables with
  | [] => Some cache
  | (s, t) :: rest =>
      match load_table s t (rows_of s t) with
      | None => None
      | Some ti => load_tables rest rows_of (<[(s, t) := ti]> cache)
      end
  end.

Definition load_schema_cache (tables : list (str * str))
    (rows_of : str -> str -> table_rows) : option (gmap (str * str) TableInfo) :=
  load_tables tables rows_of ∅.

End Loader.

Definition get_table (cache : gmap (str * str) TableInfo) (s t : str)
    : option TableInfo :=
  cache !! (s, t).

Definition best_geom_column (ti : TableInfo) : option str :=
  match geom ti with
  | Some g => Some (column g)
  | None =>
      let names := map name (columns ti) in
      head (filter (fun pref => str_in pref names) PREFERRED_GEOM_ORDER)
  end.

Definition ID_NAMES : list str :=
  map py ["objectid"; "gid"; "id"; "pk"; "codigo"; "cod"; "cod_id"].

(** The two nested loops of [suggest_id_column]: the first column, in table
    order, whose lower-cased name is [n], for the first [n] that has one. *)
Fixpoint first_named (names : list str) (cols : list ColumnInfo) : option str :=
  match names with
  | [] => None
  | n :: rest =>
      match filter (fun c => bool_decide (lower (name c) = n)) cols with
      | c :: _ => Some (name c)
      | [] => first_named rest cols
      end
  end.

Definition suggest_id_column (ti : TableInfo) : option str :=
  match pk_cols ti with
  | k :: _ => Some k
  | [] =>
      match first_named ID_NAMES (columns ti) with
      | Some n => Some n
      | None =>
          let ints :=
            filter (fun c => contains (py "int") (data_type c)
                             && negb (is_nullable c)) (columns ti) in
          match ints with
          | c :: _ => Some (name c)
          | [] => None
          end
      end
  end.

Definition preferred_geom (ti : TableInfo) : option str := best_geom_column ti.

End SchemaCache.

(* ===================================================================== *)
(** ** db/introspect.py *)
(* ===================================================================== *)

Module Introspect.

(** [\b([a-zA-Z0-9_]+)\.([a-zA-Z0-9_]+)\b] *)
Definition DOT_REF_RE : regex :=
  seqs [WordB; Group 1 (plus ident_char); Chr (is_char ".");
        Group 2 (plus ident_char); WordB].

(** [(?:\besquema\b|\bschema\b)\s+([a-zA-Z0-9_]+).*?(?:\btabla\b|\btable\b)\s+([a-zA-Z0-9_]+)]
    with [re.IGNORECASE | re.DOTALL]. *)
Definition PHRASE_REF_RE : regex :=
  seqs [Alt (seqs [WordB; lit_i (py "esquema"); WordB])
            (seqs [WordB; lit_i (py "schema"); WordB]);
        plus is_space; Group 1 (plus ident_char);
        Star any_char false;
        Alt (seqs [WordB; lit_i (py "tabla"); WordB])
            (seqs [WordB; lit_i (py "table"); WordB]);
        plus is_space; Group 2 (plus ident_char)].

(** [pattern.findall(text)] for a pattern with two groups. *)
Definition findall2 (r : regex) (text : str) : list (str * str) :=
  map (fun m => (group_or_empty 1 m, group_or_empty 2 m)) (finditer r text).

(** Duplicates removed, first occurrences kept in order. *)
Fixpoint uniq (seen : list (str * str)) (refs : list (str * str))
    : list (str * str) :=
  match refs with
  | [] => []
  | st :: rest =>
      if bool_decide (st ∈ seen) then uniq seen rest
      else st :: uniq (st :: seen) rest
  end.

Definition find_table_refs (text : str) : list (str * str) :=
  match text with
  | [] => []
  | _ => uniq [] (findall2 DOT_REF_RE text ++ findall2 PHRASE_REF_RE text)
  end.

(** [_columns_preview] on a [TableInfo]: the names of the first thirty
    columns. *)
Definition _columns_preview (ti : SchemaCache.TableInfo) : str :=
  join (py ", ") (take 30 (map SchemaCache.name (SchemaCache.columns ti))).

(** [md.get(k, dflt)]. *)
Definition md_get (md : gmap str pyval) (k : string) (dflt : pyval) : pyval :=
  default dflt (md !! py k).

(** [v or "unk"], as it is then formatted. *)
Definition or_unk (float_repr : float -> str) (v : pyval) : str :=
  if truthy_val v then show float_repr v else py "unk".

Section Context.

Variable cache : gmap (str * str) SchemaCache.TableInfo.
Variable float_repr : float -> str.

(** The line of [build_schema_ctx] for one reference; [extra_metadata] is
    the dictionary of overrides, empty when the caller gives none. *)
Definition ctx_line (extra_metadata : gmap str (gmap str pyval))
    (r : str * str) : str :=
  let '(schema, table) := r in
  match SchemaCache.get_table cache schema table with
  | None => schema ++ py "." ++ table ++ py " | pk=unk | geom=unk | srid=unk"
  | Some ti =>
      let cols_preview := _columns_preview ti in
      let cols_txt :=
        if truthy cols_preview then py "(cols: " ++ cols_preview ++ py ") "
        else [] in
      let pk_hint := of_opt_str (SchemaCache.suggest_id_column ti) in
      let geom_hint := of_opt_str (SchemaCache.preferred_geom ti) in
      let srid_val :=
        of_opt_int (match SchemaCache.geom ti with
                    | Some g => SchemaCache.srid g
                    | None => None
                    end) in
      let '(pk_hint, geom_hint, srid_val) :=
        match extra_metadata !! (schema ++ py "." ++ table) with
        | Some md =>
            (md_get md "pk" pk_hint,
             md_get md "geom_col" (md_get md "geom" geom_hint),
             md_get md "srid" srid_val)
        | None => (pk_hint, geom_hint, srid_val)
        end in
      let srid_txt :=
        match srid_val with PNone => py "unk" | v => show float_repr v end in
      schema ++ py "." ++ table ++ py " " ++ cols_txt
      ++ py "| pk=" ++ or_unk float_repr pk_hint
      ++ py " | geom=" ++ or_unk float_repr geom_hint
      ++ py " | srid=" ++ srid_txt
  end.

Definition build_schema_ctx (question_or_sql : str)
    (extra_metadata : option (gmap str (gmap str pyval))) : str :=
  match find_table_refs question_or_sql with
  | [] => []
  | refs =>
      take_chars 5000
        (join nl (map (ctx_line (default ∅ extra_metadata)) refs))
  end.

End Context.

End Introspect.

(* ===================================================================== *)
(** ** db/explain_gate.py *)
(* ===================================================================== *)

Module ExplainGate.

(** What the planner session answers to [EXPLAIN (FORMAT JSON)]: the [Plan]
    object of the first element of the JSON list, no list at all, or a
    [SQLAlchemyError] with its message. *)
Inductive planner_answer :=
  | PlanList (plan : gmap str pyval)
  | NotAList
  | PlannerError (msg : str).

Definition plan_get (plan : gmap str pyval) (k : string) : pyval :=
  default PNone (plan !! py k).

Definition explain_summary (planner : str -> planner_answer) (sql : str)
    : gmap str pyval :=
  match planner (py "EXPLAIN (FORMAT JSON) " ++ sql) with
  | PlannerError msg => {[ py "error" := PStr msg ]}
  | answer =>
      let plan := match answer with PlanList p => p | _ => ∅ end in
      <[py "node" := plan_get plan "Node Type"]>
      (<[py "startup_cost" := plan_get plan "Startup Cost"]>
      (<[py "total_cost" := plan_get plan "Total Cost"]>
      (<[py "plan_rows" := plan_get plan "Plan Rows"]>
      (<[py "plan_width" := plan_get plan "Plan Width"]> ∅))))
  end.

(** [too_expensive]; [None] stands for the [TypeError] of comparing a text
    with a number. *)
Definition too_expensive (float_repr : float -> str) (plan : gmap str pyval)
    : option (bool * str) :=
  match plan !! py "total_cost" with
  | None => Some (false, [])
  | Some v =>
      let total := if truthy_val v then v else PInt 0 in
      if truthy_val total then
        match total with
        | PInt n =>
            if (5000000 <? n)%Z
            then Some (true, py "total_cost=" ++ show float_repr total)
            else Some (false, [])
        | PFloat x =>
            if PrimFloat.ltb 5000000%float x
            then Some (true, py "total_cost=" ++ show float_repr total)
            else Some (false, [])
        | PStr _ => None
        | PNone => Some (false, [])
        end
      else Some (false, [])
  end.

End ExplainGate.

(* ===================================================================== *)
(** ** db/engine.py *)
(* ===================================================================== *)

Module Engine.

Definition row := list (str * pyval).

(** The statement that is sent: the caller's text, or that text without its
    trailing semicolons followed by [ LIMIT n;]. *)
Definition sql_limited (sql : str) (limit_default : Z) : str :=
  if contains (py "limit") (lower sql) then sql
  else rstrip_chars (py ";") sql ++ py " LIMIT " ++ str_of_Z limit_default
       ++ py ";".

Definition session_settings : list str :=
  map py ["SET statement_timeout TO '15s';";
          "SET idle_in_transaction_session_timeout TO '10s';";
          "SET search_path TO datos_crudos, datos_maestros, medio_fisico, specimen, public;"].

Section Session.

(** The database session: the settings issued first, the statement, and the
    rows that come back ([None] when the driver raises). *)
Variable session : list str -> str -> option (list row).

Definition run_query_secure (sql : str) (limit_default : Z)
    : option (list row) :=
  session session_settings (sql_limited sql limit_default).

End Session.

End Engine.

(* ===================================================================== *)
(** ** db/sql_fixup.py *)
(* ===================================================================== *)

Module SqlFixup.

Import SchemaCache Introspect.

Definition METRIC_SRID : Z := 32719.

Definition ref := (str * str)%type.

Definition dot : regex := Chr (is_char ".").
Definition spaces : regex := Star is_space true.
Definition identifier : regex := Seq (Chr ident_start) (Star ident_char true).

(** The pattern [\bfrom\s+(I+)\.(I+)\s+(?:as\s+)?(J)] with [re.IGNORECASE],
    where [I] is the class [[a-zA-Z0-9_]] and [J] an identifier, a character
    of [[a-zA-Z_]] followed by any number of [I]; the same for [join]. *)
Definition alias_re (kw : string) : regex :=
  seqs [WordB; lit_i (py kw); plus is_space;
        Group 1 (plus ident_char); dot; Group 2 (plus ident_char);
        plus is_space; Opt (Seq (lit_i (py "as")) (plus is_space));
        Group 3 identifier].

Definition ALIAS_FROM_RE : regex := alias_re "from".
Definition ALIAS_JOIN_RE : regex := alias_re "join".

(** The pattern [\b(I+)\.(I+)\.(J)\b], with [I] and [J] as above. *)
Definition QUAL_COL_RE : regex :=
  seqs [WordB; Group 1 (plus ident_char); dot; Group 2 (plus ident_char); dot;
        Group 3 identifier; WordB].

Definition add_alias (d : list (str * ref)) (m : rmatch) : list (str * ref) :=
  dict_set (group_or_empty 3 m) (group_or_empty 1 m, group_or_empty 2 m) d.

Definition _collect_aliases (sql : str) : list (str * ref) :=
  foldl add_alias (foldl add_alias [] (finditer ALIAS_FROM_RE sql))
        (finditer ALIAS_JOIN_RE sql).

Definition any_in (words : list string) (q : str) : bool :=
  existsb (fun w => contains (py w) q) words.

Definition _mentions_metric_units (text : str) : bool :=
  any_in [" metro"; " metros"; " m "; " km"; "kilometro"; "kilómetro";
          "kilometros"; "kilómetros"] (lower text).

Definition _mentions_hectares (text : str) : bool :=
  any_in ["hectarea"; "hectárea"; "hectareas"; "hectáreas"; " ha"; " en ha";
          " en hectá"] (lower text).

(** The entry of [table_meta] for one table. *)
Record meta := mkMeta {
  meta_id : option str;
  meta_geom : option str;
  meta_srid : str
}.

(** [(geom|geometry|geometria)] under [re.IGNORECASE]. *)
Definition geom_names : regex :=
  Alt (lit_i (py "geom")) (Alt (lit_i (py "geometry")) (lit_i (py "geometria"))).

(** [\b({alias})\.id\b]; the pattern given to [re.search] is the same
    without the group. *)
Definition alias_id_re (alias : str) : regex :=
  seqs [WordB; Group 1 (lit alias); dot; lit (py "id"); WordB].

(** [\b({alias})\.(geom|geometry|geometria)\b] with [re.IGNORECASE]. *)
Definition alias_geom_re (alias : str) : regex :=
  seqs [WordB; Group 1 (lit_i alias); dot; Group 2 geom_names; WordB].

(** [\b{sch}\.{tab}\.id\b] and its geometry counterpart. *)
Definition qual_id_re (sch tab : str) : regex :=
  seqs [WordB; lit sch; dot; lit tab; dot; lit (py "id"); WordB].
Definition qual_geom_re (sch tab : str) : regex :=
  seqs [WordB; lit_i sch; dot; lit_i tab; dot; Group 1 geom_names; WordB].

(** [\b{tbl}\.id\b] and its geometry counterpart. *)
Definition tbl_id_re (tbl : str) : regex :=
  seqs [WordB; lit tbl; dot; lit (py "id"); WordB].
Definition tbl_geom_re (tbl : str) : regex :=
  seqs [WordB; lit_i tbl; dot; Group 1 geom_names; WordB].

(** The pattern [^(J)\.(J)$], with [J] as above. *)
Definition ALIAS_COL_RE : regex :=
  seqs [Bol; Group 1 identifier; dot; Group 2 identifier; Eol].

(** [ST_Transform\s*\(] with [re.IGNORECASE]. *)
Definition ST_TRANSFORM_RE : regex :=
  seqs [lit_i (py "ST_Transform"); spaces; Chr (is_char "(")].

(** [\b(ST_DWithin|ST_Intersects)\s*\(\s*([^,]+)\s*,\s*([^,]+)\s*(,\s*[^)]+)?\)]
    with [re.IGNORECASE]. *)
Definition ST_PAIR_RE : regex :=
  seqs [WordB;
        Group 1 (Alt (lit_i (py "ST_DWithin")) (lit_i (py "ST_Intersects")));
        spaces; Chr (is_char "("); spaces;
        Group 2 (plus not_comma); spaces; Chr (is_char ","); spaces;
        Group 3 (plus not_comma); spaces;
        Opt (Group 4 (seqs [Chr (is_char ","); spaces; plus not_rparen]));
        Chr (is_char ")")].

(** [\bST_Area\s*\(\s*([^)]+)\s*\)] with [re.IGNORECASE]. *)
Definition ST_AREA_RE : regex :=
  seqs [WordB; lit_i (py "ST_Area"); spaces; Chr (is_char "("); spaces;
        Group 1 (plus not_rparen); spaces; Chr (is_char ")")].

Definition _wrap_transform (alias col : str) (target_srid : option Z) : str :=
  match target_srid with
  | Some n =>
      if (n =? 0)%Z then alias ++ py "." ++ col
      else py "ST_Transform(" ++ alias ++ py "." ++ col ++ py ","
           ++ str_of_Z n ++ py ")"
  | None => alias ++ py "." ++ col
  end.

Definition truthy_srid (o : option Z) : bool :=
  match o with Some n => negb (n =? 0)%Z | None => false end.

Section Fixup.

(** The catalog ([_cache] of [db.schema_cache]) and the order in which
    Python iterates over the set of references of [_build_table_meta]. *)
Variable cache : gmap (str * str) TableInfo.
Variable set_iter : list ref -> list ref.

Definition _srid_for (s t : str) : option Z :=
  match get_table cache s t with
  | Some ti => match geom ti with Some g => srid g | None => None end
  | None => None
  end.

Definition _geom_for (s t : str) : option str :=
  match get_table cache s t with
  | Some ti => preferred_geom ti
  | None => None
  end.

Definition _id_for (s t : str) : option str :=
  match get_table cache s t with
  | Some ti => suggest_id_column ti
  | None => None
  end.

(** The set [refs] of [_build_table_meta], as the list of its elements in
    order of insertion. *)
Definition refs_of (question sql : str) : list ref :=
  uniq [] (find_table_refs question ++ find_table_refs sql).

Definition names_count (refs : list ref) (t : str) : nat :=
  length (filter (fun r => bool_decide (r.2 = t)) refs).

(** One turn of the second loop of [_build_table_meta]. *)
Definition meta_step (refs : list ref)
    (acc : list (ref * meta) * list (str * ref)) (r : ref)
    : list (ref * meta) * list (str * ref) :=
  let '(s, t) := r in
  match get_table cache s t with
  | None => acc
  | Some _ =>
      let srid_txt :=
        if truthy_srid (_srid_for s t)
        then str_of_Z (default 0%Z (_srid_for s t)) else [] in
      let m := mkMeta (_id_for s t) (_geom_for s t) srid_txt in
      (dict_set (s, t) m acc.1,
       if Nat.eqb (names_count refs t) 1 then dict_set t (s, t) acc.2
       else acc.2)
  end.

Definition _build_table_meta (question sql : str)
    : list (ref * meta) * list (str * ref) :=
  let refs := set_iter (refs_of question sql) in
  foldl (meta_step refs) ([], []) refs.

Definition meta_get (table_meta : list (ref * meta)) (r : ref)
    (field : meta -> option str) : option str :=
  match dict_get r table_meta with
  | Some m => field m
  | None => None
  end.

(** The rewriting state: the text [out] and the list [fixes]. *)
Definition state := (str * list str)%type.

(** One substitution of the passes 2 to 4: when the hint is usable and the
    pattern occurs, every match is replaced and one fix is recorded. *)
Definition subst_pass (hint : option str) (pat : regex)
    (repl : str -> rmatch -> str) (fix_of : str -> str) (st : state) : state :=
  match hint with
  | Some h =>
      if truthy h && found pat st.1
      then (sub pat (repl h) st.1, st.2 ++ [fix_of h])
      else st
  | None => st
  end.

(** Pass 2, one alias. *)
Definition alias_step (table_meta : list (ref * meta)) (st : state)
    (entry : str * ref) : state :=
  let '(alias, (sch, tab)) := entry in
  let id_hint := or_else (meta_get table_meta (sch, tab) meta_id)
                         (_id_for sch tab) in
  let geom_hint := or_else (meta_get table_meta (sch, tab) meta_geom)
                           (_geom_for sch tab) in
  let st1 :=
    subst_pass id_hint (alias_id_re alias)
      (fun h m => group_or_empty 1 m ++ py "." ++ h)
      (fun h => alias ++ py ".id -> " ++ alias ++ py "." ++ h) st in
  subst_pass geom_hint (alias_geom_re alias)
    (fun h m => group_or_empty 1 m ++ py "." ++ h)
    (fun h => alias ++ py ".geom -> " ++ alias ++ py "." ++ h) st1.

(** Pass 3, one entry of [table_meta]. *)
Definition qualified_step (st : state) (entry : ref * meta) : state :=
  let '((sch, tab), m) := entry in
  let full := sch ++ py "." ++ tab in
  let st1 :=
    subst_pass (meta_id m) (qual_id_re sch tab)
      (fun h _ => full ++ py "." ++ h)
      (fun h => full ++ py ".id -> " ++ full ++ py "." ++ h) st in
  subst_pass (meta_geom m) (qual_geom_re sch tab)
    (fun h _ => full ++ py "." ++ h)
    (fun h => full ++ py ".geom -> " ++ full ++ py "." ++ h) st1.

(** Pass 4, one entry of [simple_map]. *)
Definition simple_step (table_meta : list (ref * meta)) (st : state)
    (entry : str * ref) : state :=
  let '(tbl, r) := entry in
  let st1 :=
    subst_pass (meta_get table_meta r meta_id) (tbl_id_re tbl)
      (fun h _ => tbl ++ py "." ++ h)
      (fun h => tbl ++ py ".id -> " ++ tbl ++ py "." ++ h) st in
  subst_pass (meta_get table_meta r meta_geom) (tbl_geom_re tbl)
    (fun h _ => tbl ++ py "." ++ h)
    (fun h => tbl ++ py ".geom -> " ++ tbl ++ py "." ++ h) st1.

(** What the closures of [fix_sql] see. *)
Record env := mkEnv {
  table_meta : list (ref * meta);
  simple_map : list (str * ref);
  alias_map : list (str * ref);
  first_from_alias : option str;
  want_metric : bool
}.

Definition _resolve_expr (e : env) (expr : str)
    : option (str * str * option str * str) :=
  let expr := strip expr in
  match re_match ALIAS_COL_RE expr with
  | Some m =>
      let alias := group_or_empty 1 m in
      let col := group_or_empty 2 m in
      match dict_get alias (alias_map e) with
      | Some (s, t) => Some (s, t, Some alias, col)
      | None =>
          match dict_get alias (simple_map e) with
          | Some (s, t) => Some (s, t, None, col)
          | None => None
          end
      end
  | None =>
      match re_match QUAL_COL_RE expr with
      | Some m =>
          Some (group_or_empty 1 m, group_or_empty 2 m, None,
                group_or_empty 3 m)
      | None => None
      end
  end.

(** [int(table_meta.get((s, t), {}).get("srid") or 0) or _srid_for(s, t)] *)
Definition srid_of (e : env) (s t : str) : option Z :=
  let n := match meta_get (table_meta e) (s, t) (fun m => Some (meta_srid m)) with
           | Some (c :: txt) => int_of_str (c :: txt)
           | _ => 0%Z
           end in
  if (n =? 0)%Z then _srid_for s t else Some n.

(** [a and a == first_from_alias] *)
Definition is_first (e : env) (a : option str) : bool :=
  truthy_opt a && bool_decide (a = first_from_alias e).

Definition qualified (s t c : str) : str := s ++ py "." ++ t ++ py "." ++ c.

Definition transformed (x : str) (n : Z) : str :=
  py "ST_Transform(" ++ x ++ py "," ++ str_of_Z n ++ py ")".

(** The side of a predicate in the metric case. *)
Definition metric_side (e : env) (s t : str) (a : option str) (c : str)
    (sr : option Z) : str :=
  let tx := if is_first e a then None
            else if bool_decide (sr = Some METRIC_SRID) then None
            else Some METRIC_SRID in
  match a with
  | Some al =>
      if truthy al then _wrap_transform al c tx
      else if truthy_srid tx then transformed (qualified s t c) METRIC_SRID
      else qualified s t c
  | None =>
      if truthy_srid tx then transformed (qualified s t c) METRIC_SRID
      else qualified s t c
  end.

(** [_wrap_transform(a, c, srid) if a else f"ST_Transform({s}.{t}.{c},{srid})"] *)
Definition to_srid (s t : str) (a : option str) (c : str) (sr : option Z) : str :=
  match a with
  | Some al =>
      if truthy al then _wrap_transform al c sr
      else transformed (qualified s t c) (default 0%Z sr)
  | None => transformed (qualified s t c) (default 0%Z sr)
  end.

Definition plain_alias (a : option str) (c : str) : str :=
  default [] a ++ py "." ++ c.

Definition call (func new1 new2 rest : str) : str :=
  func ++ py "(" ++ new1 ++ py ", " ++ new2 ++ rest ++ py ")".

(** Pass 7: the callback of [re.sub] over the spatial predicates. *)
Definition _fix_st_geom_pair (e : env) (m : rmatch) (fixes : list str)
    : str * list str :=
  let func := group_or_empty 1 m in
  let arg1 := strip (group_or_empty 2 m) in
  let arg2 := strip (group_or_empty 3 m) in
  let rest := group_or_empty 4 m in
  if found ST_TRANSFORM_RE arg1 || found ST_TRANSFORM_RE arg2
  then (group0 m, fixes)
  else
    match _resolve_expr e arg1, _resolve_expr e arg2 with
    | Some (s1, t1, a1, c1), Some (s2, t2, a2, c2) =>
        let srid1 := srid_of e s1 t1 in
        let srid2 := srid_of e s2 t2 in
        if want_metric e then
          let new1 := metric_side e s1 t1 a1 c1 srid1 in
          let new2 := metric_side e s2 t2 a2 c2 srid2 in
          (call func new1 new2 rest,
           fixes ++ [func ++ py ": normalizado a EPSG:" ++ str_of_Z METRIC_SRID
                     ++ py " (metros/km)"])
        else if truthy_srid srid1 && truthy_srid srid2
                && bool_decide (srid1 <> srid2) then
          let '(new1, new2) :=
            if is_first e a1 then
              (plain_alias a1 c1, to_srid s2 t2 a2 c2 srid1)
            else if is_first e a2 then
              (to_srid s1 t1 a1 c1 srid2, plain_alias a2 c2)
            else
              (if truthy_opt a1 then plain_alias a1 c1 else qualified s1 t1 c1,
               to_srid s2 t2 a2 c2 srid1) in
          (call func new1 new2 rest,
           fixes ++ [func ++ py ": unificados SRIDs por consistencia"])
        else (group0 m, fixes)
    | _, _ => (group0 m, fixes)
    end.

(** Pass 8: the callback of [re.sub] over the area calls. *)
Definition _fix_area (e : env) (ma : rmatch) (fixes : list str)
    : str * list str :=
  let inner := strip (group_or_empty 1 ma) in
  let divided := py "(" ++ group0 ma ++ py ")/10000.0" in
  if found ST_TRANSFORM_RE inner then (divided, fixes)
  else
    match _resolve_expr e inner with
    | None => (divided, fixes)
    | Some (s, t, a, c) =>
        let expr :=
          if is_first e a then plain_alias a c
          else transformed
                 (if truthy_opt a then plain_alias a c else qualified s t c)
                 METRIC_SRID in
        (py "ST_Area(" ++ expr ++ py ")/10000.0",
         fixes ++ [py "ST_Area: convertido a hectáreas en EPSG:"
                   ++ str_of_Z METRIC_SRID])
    end.

(** The passes of [fix_sql], once [_build_table_meta] has answered. *)
Definition apply_passes (metas : list (ref * meta) * list (str * ref))
    (sql question : str) : str * list str :=
  let '(tm, sm) := metas in
  let am := _collect_aliases sql in
  let st2 := foldl (alias_step tm) (sql, []) am in
  let st3 := foldl qualified_step st2 tm in
  let st4 := foldl (simple_step tm) st3 sm in
  let e := mkEnv tm sm am
             (option_map (group_or_empty 3) (search ALIAS_FROM_RE st4.1))
             (_mentions_metric_units question) in
  let st7 := sub_with ST_PAIR_RE (_fix_st_geom_pair e) st4.1 st4.2 in
  if _mentions_hectares question
  then sub_with ST_AREA_RE (_fix_area e) st7.1 st7.2
  else st7.

Definition fix_sql (sql question : str) : str * list str :=
  apply_passes (_build_table_meta question sql) sql question.

(** The passes 3 to 7 of [fix_sql], from the state that the alias pass
    leaves, with what the closures see afterwards. *)
Definition passes_3_to_7 (metas : list (ref * meta) * list (str * ref))
    (am : list (str * ref)) (question : str) (st2 : state) : state * env :=
  let '(tm, sm) := metas in
  let st3 := foldl qualified_step st2 tm in
  let st4 := foldl (simple_step tm) st3 sm in
  let e := mkEnv tm sm am
             (option_map (group_or_empty 3) (search ALIAS_FROM_RE st4.1))
             (_mentions_metric_units question) in
  (sub_with ST_PAIR_RE (_fix_st_geom_pair e) st4.1 st4.2, e).

(** Pass 8 of [fix_sql]. *)
Definition area_pass (question : str) (st7 : state) (e : env) : state :=
  if _mentions_hectares question
  then sub_with ST_AREA_RE (_fix_area e) st7.1 st7.2
  else st7.

End Fixup.

End SqlFixup.

(* ===================================================================== *)
(** ** llm/prompts.py *)
(* ===================================================================== *)

Module Prompts.

Definition SQL_SYSTEM : str :=
  py "Eres un asistente experto en PostgreSQL y PostGIS.
Convierte instrucciones en español a UNA sola sentencia SQL segura (SELECT o WITH).
No alteres datos ni estructuras. Devuelve SOLO SQL entre ```sql ... ```.
Reglas:
- Usa exclusivamente nombres de columnas y tablas del Contexto.
- Si hay columna geométrica (geometria=), úsala siempre para operaciones espaciales.
- Si se menciona metros/km o hectáreas: normaliza a EPSG:32719 (UTM 19S) o usa ::geography para cálculos en metros.
- Si menciona hectáreas: usa ST_Area con EPSG:32719 y divide por 10000.
- Si las capas tienen SRIDs distintos, consulta cuáles tienen ST_SRID igual a 4326 y transforma el resto de las tablas a ese SRID.
- Prefiere funciones index-friendly como ST_DWithin en vez de ST_Buffer+ST_Intersects.
- Nunca inventes columnas como id, nombre, geom; usa las provistas en el Contexto.
".

Definition build_sql_prompt (question schema_ctx : str) : str :=
  SQL_SYSTEM ++ nl ++ nl ++ py "Contexto:" ++ nl ++ schema_ctx ++ nl ++ nl
  ++ py "Usuario:" ++ nl ++ question ++ nl ++ nl ++ py "Responde SOLO:" ++ nl.

End Prompts.

(* ===================================================================== *)
(** ** app/routers/chat.py *)
(* ===================================================================== *)

Module Chat.

Import SqlParser SchemaCache Introspect ExplainGate Engine SqlFixup Prompts.

Record ChatIn := mkChatIn {
  question : option str;
  sql : option str;
  execute : bool
}.

(** What the handler asks of its collaborators, in order: the model that
    writes SQL, the planner, the database, the model that explains. *)
Inductive event :=
  | AskedSql (prompt : str)
  | Planned (statement : str)
  | Ran (statement : str)
  | AskedChat (prompt : str).

(** The JSON object that is returned; [rows], [explain] and [error] are
    absent from some of the answers. *)
Record reply := mkReply {
  r_question : option str;
  r_refs : list (str * str);
  r_sql : str;
  r_executed : bool;
  r_plan : gmap str pyval;
  r_fixes : list str;
  r_rows : option (list row);
  r_explain : option str;
  r_error : option str
}.

(** The end of a request: an [HTTPException] of status 400, a JSON object,
    or an exception that the handler does not catch. *)
Inductive outcome :=
  | Http400 (detail : str)
  | Reply (r : reply)
  | Raised.

(** The code fence that the model may have put around its statement. *)
Definition strip_fence (sql : str) : str :=
  if startswith (py "```sql") sql
  then strip (replace (py "```") [] (replace (py "```sql") [] sql))
  else sql.

Section Handler.

Variable parse_one : str -> parse_outcome.
Variable cache : gmap (str * str) TableInfo.
Variable set_iter : list ref -> list ref.
Variable planner : str -> planner_answer.
Variable session : list str -> str -> option (list row).
(** [infer_sql] and [infer_chat]; [None] when the client raises. *)
Variable infer_sql : str -> option str.
Variable infer_chat : str -> option str.
(** The text that Python prints for a [float]. *)
Variable float_repr : float -> str.

Definition user_refs (in_ : ChatIn) : list (str * str) :=
  let user_text := if truthy_opt (question in_) then question in_ else sql in_ in
  find_table_refs (default [] user_text).

Definition refs_hint (refs : list (str * str)) : str :=
  match refs with
  | [] => []
  | _ =>
      nl ++ nl ++ py "TABLAS_MENCIONADAS:" ++ nl
      ++ join nl (map (fun r => r.1 ++ py "." ++ r.2) refs)
  end.

Definition sql_prompt (in_ : ChatIn) : str :=
  let q := default [] (question in_) in
  build_sql_prompt q
    (build_schema_ctx cache float_repr (q ++ refs_hint (user_refs in_)) None).

(** Step 1: the statement to work on, from the model or from the caller;
    [None] when the model's client raises. *)
Definition candidate_sql (in_ : ChatIn) : option str :=
  if truthy_opt (question in_)
  then option_map (fun sql_block => strip_fence (strip sql_block))
                  (infer_sql (sql_prompt in_))
  else Some (strip (default [] (sql in_))).

(** The statement after step 2.1: the rewritten text when a fix was
    recorded. *)
Definition fixed_sql (in_ : ChatIn) (sql0 : str) : str * list str :=
  let '(sql_fixed, fixes) :=
    fix_sql cache set_iter sql0 (default [] (question in_)) in
  (match fixes with [] => sql0 | _ :: _ => sql_fixed end, fixes).

Definition explanation_prompt (sql1 : str) : str :=
  py "Explica en español, de forma breve y usando terminología de PostgreSQL/PostGIS, "
  ++ py "qué hace esta consulta SQL:" ++ nl ++ sql1.

(** Steps 3 to 5, for a statement that passed the validation. *)
Definition plan_and_run (in_ : ChatIn) (sql0 : str) : outcome * list event :=
  let '(sql1, fixes) := fixed_sql in_ sql0 in
  let plan := explain_summary planner sql1 in
  let answer := mkReply (question in_) (user_refs in_) sql1 in
  match plan !! py "error" with
  | Some _ =>
      (Reply (answer false plan fixes None None
                (Some (py "EXPLAIN falló; revisa columnas/joins o el contexto de esquema."))),
       [Planned sql1])
  | None =>
      match too_expensive float_repr plan with
      | None => (Raised, [Planned sql1])
      | Some (true, why) =>
          (Reply (answer false plan fixes None None
                    (Some (py "Plan bloqueado por coste/tamaño: " ++ why))),
           [Planned sql1])
      | Some (false, _) =>
          let ran := if execute in_
                     then [Ran (sql_limited sql1 500)] else [] in
          match (if execute in_ then run_query_secure session sql1 500
                 else Some []) with
          | None => (Raised, Planned sql1 :: ran)
          | Some rows =>
              let asked := AskedChat (explanation_prompt sql1) in
              match infer_chat (explanation_prompt sql1) with
              | None => (Raised, Planned sql1 :: ran ++ [asked])
              | Some explanation =>
                  (Reply (answer (execute in_) plan fixes
                            (Some (take 500 rows)) (Some explanation) None),
                   Planned sql1 :: ran ++ [asked])
              end
          end
      end
  end.

(** The handler of [POST /chat], with what it asked of its collaborators. *)
Definition chat (in_ : ChatIn) : outcome * list event :=
  if negb (truthy_opt (sql in_)) && negb (truthy_opt (question in_))
  then (Http400 (py "Proporciona 'sql' o 'question'."), [])
  else
    let asked := if truthy_opt (question in_)
                 then [AskedSql (sql_prompt in_)] else [] in
    match candidate_sql in_ with
    | None => (Raised, asked)
    | Some [] =>
        (Http400 (py "No se pudo generar SQL; intenta ser más específico."),
         asked)
    | Some sql0 =>
        match is_safe_sql parse_one sql0 with
        | (false, reason) => (Http400 (py "Bloqueado: " ++ reason), asked)
        | (true, _) =>
            let '(out, events) := plan_and_run in_ sql0 in
            (out, asked ++ events)
        end
    end.

End Handler.

End Chat.

(* ===================================================================== *)
(** ** Vocabulary of the specification *)
(* ===================================================================== *)

Module Spec.

Import SqlParser.

(** The denylisted keywords themselves, without the blanks that surround
    them in [BLOCK_KW]. *)
Definition BLOCK_WORDS : list str := map strip BLOCK_KW.

Definition starts_with_word (t : str) : bool :=
  match t with [] => false | c :: _ => is_word c end.

(** [w] occurs in [t] as a standalone word: an occurrence with no word
    character right before it nor right after it.  [prev] tells whether the
    character before [t] is a word character. *)
Fixpoint contains_word_from (prev : bool) (w t : str) : bool :=
  (negb prev && startswith w t && negb (starts_with_word (drop (length w) t)))
  || match t with
     | [] => false
     | c :: t' => contains_word_from (is_word c) w t'
     end.

Definition contains_word (w t : str) : bool := contains_word_from false w t.

(** The statement as [is_safe_sql] trims it, and the lower-case text,
    with a blank on each side, in which it looks for the keywords. *)
Definition trimmed (sql : str) : str := rstrip_chars (py ";") (strip sql).
Definition padded (sql : str) : str := py " " ++ lower (trimmed sql) ++ py " ".

(** The text that [is_safe_sql] hands to the parser: the trimmed statement,
    or what follows the [EXPLAIN] prefix; [None] when there is nothing to
    parse. *)
Definition parser_input (sql : str) : option str :=
  match strip sql with
  | [] => None
  | _ =>
      let s := trimmed sql in
      let low := lstrip (lower s) in
      if startswith (py "explain ") low then explain_inner s low else Some s
  end.

(** An identifier: what the alias group of the alias patterns captures. *)
Definition is_identifier (a : str) : bool :=
  match a with
  | [] => false
  | c :: r => ident_start c && forallb ident_char r
  end.

(** Comparison of characters with or without [re.IGNORECASE]. *)
Definition fold_case (ci : bool) (c : ascii) : ascii :=
  if ci then lower_char false c else c.

Fixpoint startswith_fold (ci : bool) (w t : str) : bool :=
  match w, t with
  | [], _ => true
  | _ :: _, [] => false
  | a :: w', b :: t' =>
      Ascii.eqb (fold_case ci b) (fold_case ci a) && startswith_fold ci w' t'
  end.

(** [w] stands at the head of [t] as a word of its own; [prev] tells whether
    the character before [t] is a word character. *)
Definition word_here (ci prev : bool) (w t : str) : bool :=
  negb prev && startswith_fold ci w t
  && negb (starts_with_word (drop (length w) t)).

(** The length of the first of the words [cands] that stands here. *)
Fixpoint first_word_here (ci prev : bool) (cands : list str) (t : str)
    : option nat :=
  match cands with
  | [] => None
  | w :: rest =>
      if word_here ci prev w t then Some (length w)
      else first_word_here ci prev rest t
  end.

(** Some word of [cands] occurs in [t] as a word of its own. *)
Fixpoint occurs_word (ci : bool) (cands : list str) (prev : bool) (t : str)
    : bool :=
  match first_word_here ci prev cands t with
  | Some _ => true
  | None =>
      match t with
      | [] => false
      | c :: t' => occurs_word ci cands (is_word c) t'
      end
  end.

(** Every occurrence of a word of [cands] as a word of its own is replaced,
    from left to right, by [repl] of the text that occurs; [skip] counts the
    characters of the last occurrence still to be stepped over. *)
Fixpoint replace_words (ci : bool) (cands : list str) (repl : str -> str)
    (prev : bool) (skip : nat) (t : str) : str :=
  match skip with
  | S n =>
      match t with
      | [] => []
      | c :: t' => replace_words ci cands repl (is_word c) n t'
      end
  | O =>
      match first_word_here ci prev cands t with
      | Some n =>
          repl (take n t)
          ++ match t with
             | [] => []
             | c :: t' => replace_words ci cands repl (is_word c) (n - 1) t'
             end
      | None =>
          match t with
          | [] => []
          | c :: t' => c :: replace_words ci cands repl (is_word c) 0 t'
          end
      end
  end.

(** One substitution of the alias pass, said without regular expressions:
    when the hint is usable and [alias.name] occurs as a word of its own for
    one of the [names], every such occurrence becomes [alias.hint], the
    alias as it was written, and one fix is recorded. *)
Definition column_pass (ci : bool) (alias : str) (names : list str)
    (label : str) (hint : option str) (st : SqlFixup.state) : SqlFixup.state :=
  let cands := map (fun n => alias ++ py "." ++ n) names in
  match hint with
  | Some h =>
      if truthy h && occurs_word ci cands false st.1
      then (replace_words ci cands
              (fun found => take (length alias) found ++ py "." ++ h)
              false 0 st.1,
            st.2 ++ [alias ++ label ++ py " -> " ++ alias ++ py "." ++ h])
      else st
  | None => st
  end.

(** The guessed names of a geometry column. *)
Definition GEOM_GUESSES : list str := map py ["geom"; "geometry"; "geometria"].

(** The alias pass for one alias: when the catalog knows the table, the
    substitution of [alias.id] and then that of the guessed geometry names;
    nothing otherwise. *)
Definition alias_rewrite (cache : gmap (str * str) SchemaCache.TableInfo)
    (st : SqlFixup.state) (entry : str * SqlFixup.ref) : SqlFixup.state :=
  let '(alias, (sch, tab)) := entry in
  match SchemaCache.get_table cache sch tab with
  | Some ti =>
      column_pass true alias GEOM_GUESSES (py ".geom")
        (SchemaCache.preferred_geom ti)
        (column_pass false alias [py "id"] (py ".id")
           (SchemaCache.suggest_id_column ti) st)
  | None => st
  end.

(** A total cost above the ceiling: a number, whole or not, greater than
    5000000. *)
Definition above_ceiling (v : pyval) : Prop :=
  match v with
  | PInt n => (5000000 < n)%Z
  | PFloat x => PrimFloat.ltb 5000000%float x = true
  | PNone | PStr _ => False
  end.

(** What the language promises about the iteration over a set: each of its
    elements comes once, in some order. *)
Definition set_order_ok (set_iter : list SqlFixup.ref -> list SqlFixup.ref)
    : Prop :=
  forall l, NoDup l -> set_iter l ≡ₚ l.

End Spec.

Import SqlParser SchemaCache Introspect ExplainGate Engine SqlFixup Spec.

(* ===================================================================== *)
(** ** Notions used in the proofs, and the data of the scenarios *)
(* ===================================================================== *)

(** A character that trimming removes (white space, or the semicolon) is
    left alone by [lower] and is not a word character. *)
Definition is_filler (c : ascii) : bool := is_space c || mem_char (py ";") c.

(** Whether the last character of [s] leads a two-byte Latin-1 letter. *)
Fixpoint state_after (b : bool) (s : str) : bool :=
  match s with
  | [] => b
  | c :: s' => state_after (lead_latin1 c) s'
  end.

(** [e] lies further in the same subject than [c]: the matcher has read
    [mid] in between. *)
Definition extends_by (mid : str) (c e : cursor) : Prop :=
  before e = rev mid ++ before c /\ after c = mid ++ after e.

(** [e] lies further than [c]. *)
Definition extends (c e : cursor) : Prop := exists mid, extends_by mid c e.

(** Whatever the matcher answers, it is the continuation that answered it,
    from a position further in the subject. *)
Definition reaches (c : cursor) (k : cont) (res : cursor * caps) : Prop :=
  exists e cs, extends c e /\ k e cs = Some res.

(** A replacement function that either returns the matched text or records
    a fix. *)
Definition faithful (repl : rmatch -> list str -> str * list str) : Prop :=
  forall m fixes,
    exists l, (repl m fixes).2 = fixes ++ l /\
              (l = [] -> (repl m fixes).1 = group0 m).

(** A pass only ever appends to the fix list, and a pass that appends
    nothing leaves the text as it was. *)
Definition grows (st st' : state) : Prop :=
  exists l, st'.2 = st.2 ++ l /\ (l = [] -> st'.1 = st.1).

(** The position [n] characters further. *)
Definition advance (n : nat) (c : cursor) : cursor :=
  Cursor (rev (take n (after c)) ++ before c) (drop n (after c)).

(** [lit] or [lit_i]. *)
Definition lit_gen (ci : bool) : str -> regex := if ci then lit_i else lit.

(** Alternatives of literals, tried in order. *)
Fixpoint alts (ci : bool) (gs : list str) : regex :=
  match gs with
  | [] => Eps
  | [g] => lit_gen ci g
  | g :: gs' => Alt (lit_gen ci g) (alts ci gs')
  end.

(** What the matcher does on [alts]. *)
Fixpoint try_alts (ci : bool) (gs : list str) (c : cursor) (cs : caps)
    (k : cont) : option (cursor * caps) :=
  match gs with
  | [] => None
  | g :: gs' =>
      match (if startswith_fold ci g (after c)
             then k (advance (length g) c) cs else None) with
      | Some r => Some r
      | None => try_alts ci gs' c cs k
      end
  end.

(** The shape shared by [alias_id_re] and [alias_geom_re]. *)
Definition col_re (ci : bool) (alias : str) (tail : regex) : regex :=
  Seq WordB (Seq (Group 1 (lit_gen ci alias)) (Seq dot (Seq tail WordB))).

(** Whether the character before the position is a word character. *)
Definition prev_word (bf : str) : bool := starts_with_word bf.

(** The tail of the pattern with its boundary, as alternatives tried in
    order. *)
Definition tail_ok (ci : bool) (gs : list str) (tail : regex) : Prop :=
  forall c cs, exists K : cont,
    (forall c' cs', exists cs'',
        K c' cs' = Some (c', cs'' ++ cs') /\
        forall rest, cap_lookup 1 (cs'' ++ rest) = cap_lookup 1 rest) /\
    run (Seq tail WordB) c cs accept =
      try_alts ci gs c cs
        (fun c' cs' => if xorb (prev_is_word c') (next_is_word c')
                       then K c' cs' else None).

(** An entry of [table_meta] holds the suggestions of the catalog. *)
Definition entry_ok (cache : gmap (str * str) TableInfo) (r : ref) (m : meta)
    : Prop :=
  meta_id m = _id_for cache r.1 r.2 /\ meta_geom m = _geom_for cache r.1 r.2.

(** A fix of the alias pass names an alias of a table of the catalog and the
    suggestion of the catalog for it. *)
Definition alias_fix (cache : gmap (str * str) TableInfo)
    (am : list (str * ref)) (fix_ : str) : Prop :=
  exists alias sch tab ti h,
    (alias, (sch, tab)) ∈ am /\ get_table cache sch tab = Some ti /\
    ((suggest_id_column ti = Some h /\
      fix_ = alias ++ py ".id -> " ++ alias ++ py "." ++ h) \/
     (preferred_geom ti = Some h /\
      fix_ = alias ++ py ".geom -> " ++ alias ++ py "." ++ h)).






(** The catalog of Scenario A. *)
Definition region_info : TableInfo :=
  mkTableInfo (py "datos_maestros") (py "dpa_region_subdere")
    [mkColumnInfo (py "objectid") (py "integer") false true;
     mkColumnInfo (py "nombre") (py "text") true false;
     mkColumnInfo (py "geometria") (py "USER-DEFINED") true false]
    [py "objectid"]
    (Some (mkGeometryInfo (py "geometria") (Some 4326%Z) (Some (py "MULTIPOLYGON"))))
    [] [].

Definition region_catalog : gmap (str * str) TableInfo :=
  {[ (py "datos_maestros", py "dpa_region_subdere") := region_info ]}.

(** A join whose second table is in no catalog and bears, as its alias, the
    name of the table of Scenario A. *)
Definition renamed_alias_sql : str :=
  py "SELECT dpa_region_subdere.id FROM datos_maestros.dpa_region_subdere a JOIN otro.censo dpa_region_subdere ON a.objectid = dpa_region_subdere.region".

(** What a database reads of a statement that ends in a line comment: the
    text before the two hyphens. *)
Fixpoint before_comment (q : str) : str :=
  match q with
  | [] => []
  | c :: q' => if startswith (py "--") q then [] else c :: before_comment q'
  end.

(** A database whose table holds 501 rows: it answers 500 of them when it
    reads a limit of 500 in the statement, and all of them otherwise. *)
Definition commenting_session (settings : list str) (q : str)
    : option (list row) :=
  Some (repeat [(py "n", PInt 1)]
          (if contains (py " LIMIT 500") (before_comment q)
           then 500 else 501)).

(** A table whose primary key has two columns. *)
Definition comunas_rows : table_rows :=
  mkTableRows
    [(py "region_id", py "integer", py "NO");
     (py "comuna_id", py "integer", py "NO");
     (py "nombre", py "text", py "YES")]
    [py "region_id"; py "comuna_id"]
    [] [] [].

(** The number of backticks at the head of a text. *)
Fixpoint ticks (s : str) : nat :=
  match s with
  | c :: s' => if Ascii.eqb c "`" then S (ticks s') else 0
  | [] => 0
  end.

(** A session that answers one row, whatever is asked. *)
Definition one_row_session (settings : list str) (q : str) : option (list row) :=
  Some [[(py "n", PInt 1)]].

(** A caller who sends a statement and asks for its execution. *)
Definition ask_select : Chat.ChatIn :=
  Chat.mkChatIn None (Some (py "SELECT 1 AS n")) true.

(* ===================================================================== *)
(** ** Facts about Python strings *)
(* ===================================================================== *)

Section StringFacts.

Implicit Types (s t w : str) (p : ascii -> bool) (c : ascii).

Lemma ascii_eqb_true c1 c2 : Ascii.eqb c1 c2 = true <-> c1 = c2.
Proof. apply Ascii.eqb_eq. Qed.

Lemma startswith_app w t : startswith w (w ++ t) = true.
Proof.
  induction w as [|c w IH]; simpl; [done|].
  by rewrite Ascii.eqb_refl, IH.
Qed.

Lemma startswith_split w t :
  startswith w t = true -> exists r, t = w ++ r.
Proof.
  revert t. induction w as [|c w IH]; intros t; simpl.
  - intros _. by exists t.
  - destruct t as [|d t]; [discriminate|].
    intros [Hc Hw]%andb_true_iff. apply Ascii.eqb_eq in Hc as ->.
    destruct (IH _ Hw) as [r ->]. by exists r.
Qed.

Lemma contains_split w t :
  contains w t = true -> exists l r, t = l ++ w ++ r.
Proof.
  induction t as [|d t IH]; simpl.
  - rewrite orb_false_r. intros [r ->]%startswith_split. by exists [], r.
  - intros [H|H]%orb_true_iff.
    + destruct (startswith_split _ _ H) as [r ->]. by exists [], r.
    + destruct (IH H) as (l & r & ->). by exists (d :: l), r.
Qed.

Lemma contains_startswith w t : startswith w t = true -> contains w t = true.
Proof. intros H. destruct t; simpl; by rewrite H. Qed.

Lemma contains_app w l r : contains w (l ++ w ++ r) = true.
Proof.
  induction l as [|d l IH]; simpl.
  - apply contains_startswith, startswith_app.
  - by rewrite IH, orb_true_r.
Qed.

(** What [drop_while] removes satisfies the predicate, and what it leaves
    does not start with it. *)
Lemma contains_inner l w r q :
  contains (l ++ w ++ r) q = true -> contains w q = true.
Proof.
  intros H. apply contains_split in H as (a & b & ->).
  rewrite <- !app_assoc.
  replace (a ++ l ++ w ++ r ++ b) with ((a ++ l) ++ w ++ (r ++ b))
    by by rewrite <- !app_assoc.
  apply contains_app.
Qed.

Lemma drop_while_split p s :
  exists a, s = a ++ drop_while p s /\ forallb p a = true.
Proof.
  induction s as [|c s (a & Hs & Ha)]; simpl.
  - by exists [].
  - destruct (p c) eqn:Hc.
    + exists (c :: a). simpl. rewrite Hc, Ha. split; [by f_equal|done].
    + by exists [].
Qed.

Lemma drop_while_head p s c r : drop_while p s = c :: r -> p c = false.
Proof.
  induction s as [|d s IH]; simpl; [discriminate|].
  destruct (p d) eqn:Hd; [done|]. by intros [= -> _].
Qed.

Lemma drop_while_end_split p s :
  exists b, s = drop_while_end p s ++ b /\ forallb p b = true.
Proof.
  unfold drop_while_end.
  destruct (drop_while_split p (rev s)) as (a & Hs & Ha).
  exists (rev a). split.
  - rewrite <- rev_app_distr, <- Hs. by rewrite rev_involutive.
  - rewrite forallb_forall in *. intros x Hx. apply Ha. by apply in_rev.
Qed.

(** Trimming on the right keeps the first character of what is left. *)
Lemma drop_while_end_head p c s :
  drop_while_end p (c :: s) = [] \/
  exists r, drop_while_end p (c :: s) = c :: r.
Proof.
  destruct (drop_while_end_split p (c :: s)) as (b & Hs & _).
  destruct (drop_while_end p (c :: s)) as [|d r]; [by left|right].
  simpl in Hs. injection Hs as -> _. by exists r.
Qed.

Lemma lstrip_head s c r : lstrip s = c :: r -> is_space c = false.
Proof. apply drop_while_head. Qed.

Lemma strip_head s c r : strip s = c :: r -> is_space c = false.
Proof. apply drop_while_head. Qed.

Lemma strip_split s :
  exists a b, s = a ++ strip s ++ b /\
              forallb is_space a = true /\ forallb is_space b = true.
Proof.
  unfold strip, lstrip, rstrip.
  destruct (drop_while_end_split is_space s) as (b & Hs & Hb).
  destruct (drop_while_split is_space (drop_while_end is_space s))
    as (a & Hr & Ha).
  exists a, b. split; [|done].
  set (R := drop_while_end is_space s) in *.
  rewrite app_assoc, <- Hr. exact Hs.
Qed.

Lemma lower_char_space b c : is_space c = false -> is_space (lower_char b c) = false.
Proof.
  destruct c as [[] [] [] [] [] [] [] []], b; vm_compute; congruence.
Qed.

Lemma lstrip_lower_head c s :
  is_space c = false -> lstrip (lower (c :: s)) = lower (c :: s).
Proof.
  intros Hc. unfold lstrip, lower. simpl.
  by rewrite (lower_char_space false c Hc).
Qed.

Lemma filler_lower b c : is_filler c = true -> lower_char b c = c.
Proof.
  destruct c as [[] [] [] [] [] [] [] []], b; vm_compute; congruence.
Qed.

Lemma filler_not_word c : is_filler c = true -> is_word c = false.
Proof.
  destruct c as [[] [] [] [] [] [] [] []]; vm_compute; congruence.
Qed.

Lemma filler_not_lead c : is_filler c = true -> lead_latin1 c = false.
Proof.
  destruct c as [[] [] [] [] [] [] [] []]; vm_compute; congruence.
Qed.

Lemma lower_from_app b s t :
  lower_from b (s ++ t) = lower_from b s ++ lower_from (state_after b s) t.
Proof.
  revert b. induction s as [|c s IH]; intros b; simpl; [done|].
  by rewrite IH.
Qed.

Lemma lower_from_filler b s :
  forallb is_filler s = true -> lower_from b s = s.
Proof.
  revert b. induction s as [|c s IH]; intros b; simpl; [done|].
  intros [Hc Hs]%andb_true_iff. by rewrite filler_lower, IH.
Qed.

Lemma state_after_filler s :
  forallb is_filler s = true -> state_after false s = false.
Proof.
  assert (forall b, forallb is_filler s = true ->
                    state_after b s = false \/ (s = [] /\ state_after b s = b))
    as H.
  { induction s as [|c s IH]; intros b; simpl; [by right|].
    intros [Hc Hs]%andb_true_iff. left.
    rewrite (filler_not_lead c Hc).
    destruct (IH false Hs) as [?|[_ ?]]; done. }
  intros Hs. destruct (H false Hs) as [?|[_ ?]]; done.
Qed.

Lemma drop_while_end_last p s c :
  last (drop_while_end p s) = Some c -> p c = false.
Proof.
  unfold drop_while_end.
  destruct (drop_while p (rev s)) as [|d r] eqn:E; [discriminate|].
  cbn [rev]. rewrite last_snoc. intros [= <-]. by apply drop_while_head in E.
Qed.


End StringFacts.

(* ===================================================================== *)
(** ** Properties of the safety validator *)
(* ===================================================================== *)

Section ValidatorFacts.

Variable parse_one : str -> parse_outcome.

Lemma trimmed_low sql : lstrip (lower (trimmed sql)) = lower (trimmed sql).
Proof.
  unfold trimmed. destruct (strip sql) as [|c r] eqn:E; [done|].
  apply strip_head in E.
  destruct (drop_while_end_head (mem_char (py ";")) c r) as [H|[r' H]];
    unfold rstrip_chars; rewrite H; [done|].
  by apply lstrip_lower_head.
Qed.

(** The validator, once the statement is known not to be blank. *)
Lemma is_safe_sql_nonblank sql :
  strip sql <> [] ->
  is_safe_sql parse_one sql =
    match parser_input sql with
    | None => (false, py "Parse error (EXPLAIN): list index out of range")
    | Some t =>
        match parse_one t with
        | ParseError e =>
            (false,
             (if startswith (py "explain ") (lower (trimmed sql))
              then py "Parse error (EXPLAIN): " else py "Parse error: ") ++ e)
        | Parsed a =>
            if ALLOW a then scan_block BLOCK_KW (padded sql)
            else (false,
                  if startswith (py "explain ") (lower (trimmed sql))
                  then py "EXPLAIN solo permitido sobre SELECT/WITH"
                  else py "Solo SELECT/WITH/EXPLAIN permitidos (recibido: "
                       ++ node_name a ++ py ")")
        end
    end.
Proof.
  intros Hne. unfold is_safe_sql, parser_input, padded.
  destruct (strip sql) as [|c r] eqn:E; [done|].
  fold (trimmed sql). rewrite <- E. fold (trimmed sql).
  rewrite trimmed_low.
  destruct (startswith (py "explain ") (lower (trimmed sql))) eqn:Hex.
  - destruct (explain_inner _ _) as [inner|]; [|done].
    destruct (parse_one inner) as [a|e]; [|done].
    by destruct (ALLOW a).
  - destruct (parse_one (trimmed sql)) as [a|e]; [|done].
    by destruct (ALLOW a).
Qed.

Lemma is_safe_sql_blank sql :
  strip sql = [] -> is_safe_sql parse_one sql = (false, py "SQL vacío").
Proof. unfold is_safe_sql. by intros ->. Qed.

Lemma scan_block_hit kws p :
  (exists kw, kw ∈ kws /\ contains kw p = true) ->
  exists kw, kw ∈ kws /\ contains kw p = true /\
    scan_block kws p = (false, py "Keyword bloqueada: " ++ upper (strip kw)).
Proof.
  induction kws as [|k kws IH]; intros (kw & Hin & Hc).
  - by apply elem_of_nil in Hin.
  - simpl. destruct (contains k p) eqn:Hk.
    + exists k. split; [left|done].
    + apply elem_of_cons in Hin as [->|Hin]; [congruence|].
      destruct IH as (kw' & ? & ? & ?); [by exists kw|].
      exists kw'. split; [by right|done].
Qed.

Lemma scan_block_miss kws p :
  (forall kw, kw ∈ kws -> contains kw p = false) ->
  scan_block kws p = (true, py "OK").
Proof.
  induction kws as [|k kws IH]; intros H; simpl; [done|].
  rewrite H by left. apply IH. intros kw Hkw. apply H. by right.
Qed.

Lemma scan_block_cases kws p :
  scan_block kws p = (true, py "OK") \/
  exists kw, kw ∈ kws /\ contains kw p = true /\
    scan_block kws p = (false, py "Keyword bloqueada: " ++ upper (strip kw)).
Proof.
  induction kws as [|k kws IH]; simpl; [by left|].
  destruct (contains k p) eqn:Hk.
  - right. exists k. split; [left|done].
  - destruct IH as [?|(kw & ? & ? & ?)]; [by left|right].
    exists kw. split; [by right|done].
Qed.

End ValidatorFacts.

Section ValidatorTheorems.

Variable parse_one : str -> parse_outcome.

(** No reason other than the one of the blank statement reads
    "SQL vacío". *)
Lemma reason_not_blank sql :
  strip sql <> [] -> snd (is_safe_sql parse_one sql) <> py "SQL vacío".
Proof.
  intros Hne. rewrite is_safe_sql_nonblank by done.
  destruct (parser_input sql) as [t|]; [|by vm_compute].
  destruct (parse_one t) as [a|e].
  - destruct (ALLOW a).
    + destruct (scan_block_cases BLOCK_KW (padded sql))
        as [->|(kw & _ & _ & ->)]; by vm_compute.
    + destruct (startswith _ _); by vm_compute.
  - destruct (startswith _ _); by vm_compute.
Qed.

(** Claim C8, as amended.  The validator answers "SQL vacío" exactly when
    the input is empty or holds white space only.  An input that becomes
    empty only once its trailing semicolons are removed, such as ";", is
    handed to the parser as the empty text, and the reason is then the
    parser's. *)
Theorem blank_statement_reason sql :
  is_safe_sql parse_one sql = (false, py "SQL vacío") <-> strip sql = [].
Proof.
  split.
  - intros H. destruct (decide (strip sql = [])) as [|Hne]; [done|].
    apply reason_not_blank in Hne. by rewrite H in Hne.
  - apply is_safe_sql_blank.
Qed.

(** *** Space-delimited and word-bounded occurrences *)

Lemma block_kw_shape kw :
  kw ∈ BLOCK_KW -> kw = py " " ++ strip kw ++ py " " /\ strip kw ∈ BLOCK_WORDS.
Proof.
  intros H. split; [|by apply list_elem_of_In, in_map, list_elem_of_In].
  unfold BLOCK_KW in H. simpl in H.
  repeat (apply elem_of_cons in H as [->|H]; [by vm_compute|]).
  by apply elem_of_nil in H.
Qed.

Lemma contains_word_from_unfold prev w t :
  contains_word_from prev w t =
    (negb prev && startswith w t && negb (starts_with_word (drop (length w) t)))
    || match t with
       | [] => false
       | c :: t' => contains_word_from (is_word c) w t'
       end.
Proof. by destruct t. Qed.

Lemma contains_word_intro w l r prev :
  starts_with_word (rev l) = false ->
  starts_with_word r = false ->
  (l = [] -> prev = false) ->
  contains_word_from prev w (l ++ w ++ r) = true.
Proof.
  intros Hl Hr. revert prev Hl.
  induction l as [|c l IH]; intros prev Hl Hp.
  - rewrite contains_word_from_unfold. simpl.
    rewrite Hp, startswith_app, drop_app_length, Hr by done. done.
  - rewrite contains_word_from_unfold. simpl.
    rewrite IH; [apply orb_true_r| |].
    + simpl in Hl. destruct (rev l) as [|d l'] eqn:E; [done|]. done.
    + intros ->. simpl in Hl. done.
Qed.

Lemma filler_starts f : forallb is_filler f = true -> starts_with_word f = false.
Proof.
  destruct f as [|c f]; simpl; [done|].
  intros [Hc _]%andb_true_iff. by apply filler_not_word.
Qed.

Lemma forallb_rev (p : ascii -> bool) (l : str) :
  forallb p l = true -> forallb p (rev l) = true.
Proof.
  rewrite !forallb_forall. intros H x Hx. apply H. by apply in_rev.
Qed.

Lemma space_is_filler (l : str) :
  forallb is_space l = true -> forallb is_filler l = true.
Proof.
  rewrite !forallb_forall. intros H x Hx. unfold is_filler.
  by rewrite (H x Hx).
Qed.

Lemma semicolon_is_filler (l : str) :
  forallb (mem_char (py ";")) l = true -> forallb is_filler l = true.
Proof.
  rewrite !forallb_forall. intros H x Hx. unfold is_filler.
  rewrite (H x Hx). apply orb_true_r.
Qed.

(** The lower-cased statement is the lower-cased trimmed text between two
    runs of white space and semicolons. *)
Lemma lower_around_trimmed sql :
  exists a f, lower sql = a ++ lower (trimmed sql) ++ f /\
              forallb is_filler a = true /\ forallb is_filler f = true.
Proof.
  destruct (strip_split sql) as (a & b & Hs & Ha & Hb).
  destruct (drop_while_end_split (mem_char (py ";")) (strip sql))
    as (c & Hc & Hcc).
  fold (rstrip_chars (py ";") (strip sql)) in Hc. fold (trimmed sql) in Hc.
  apply space_is_filler in Ha, Hb. apply semicolon_is_filler in Hcc.
  exists a, (c ++ b). split; [|split; [done|]].
  - rewrite Hs at 1. rewrite Hc at 1. unfold lower.
    rewrite lower_from_app, (lower_from_filler _ a Ha), state_after_filler by done.
    rewrite <- app_assoc, lower_from_app.
    rewrite (lower_from_filler _ (c ++ b)); [done|].
    rewrite forallb_app. by rewrite Hcc, Hb.
  - rewrite forallb_app. by rewrite Hcc, Hb.
Qed.

Lemma app_tail_inv (x y r : str) (c : ascii) :
  x ++ [c] = y ++ c :: r ->
  (r = [] /\ x = y) \/ exists r0, r = r0 ++ [c] /\ x = y ++ c :: r0.
Proof.
  intros H. destruct r as [|z r _] using rev_ind.
  - left. by apply app_inj_tail in H as [-> _].
  - right. exists r.
    replace (y ++ c :: r ++ [z]) with ((y ++ c :: r) ++ [z]) in H
      by (by rewrite <- app_assoc).
    by apply app_inj_tail in H as [-> ->].
Qed.

Lemma padded_occurrence (w x l r : str) :
  py " " ++ x ++ py " " = l ++ (py " " ++ w ++ py " ") ++ r ->
  exists l' r', x = l' ++ w ++ r' /\
    (l' = [] \/ exists l0, l' = l0 ++ py " ") /\
    (r' = [] \/ exists r0, r' = py " " ++ r0).
Proof.
  change (py " ") with [" "%char].
  intros H. rewrite <- !app_assoc in H. simpl in H.
  destruct l as [|c l]; simpl in H; [injection H as H|injection H as Hc H].
  - exists []. apply app_tail_inv in H as [[-> ->]|(r0 & -> & ->)].
    + exists []. rewrite app_nil_r. split; [done|]. by split; left.
    + exists (" "%char :: r0). split; [done|]. split; [by left|right].
      by exists r0.
  - clear Hc. exists (l ++ [" "%char]).
    replace (l ++ " "%char :: w ++ " "%char :: r)
      with ((l ++ " "%char :: w) ++ " "%char :: r) in H
      by (by rewrite <- app_assoc).
    apply app_tail_inv in H as [[-> ->]|(r0 & -> & ->)].
    + exists []. rewrite app_nil_r. split; [by rewrite <- app_assoc|].
      split; [right; by exists l|by left].
    + exists (" "%char :: r0). split; [by rewrite <- !app_assoc|].
      split; right; [by exists l|by exists r0].
Qed.

(** A keyword found between blanks in the padded text stands as a word of
    its own in the statement. *)
Lemma padded_hit_is_word sql kw :
  kw ∈ BLOCK_KW -> contains kw (padded sql) = true ->
  contains_word (strip kw) (lower sql) = true.
Proof.
  intros Hkw Hc. destruct (block_kw_shape kw Hkw) as [Hshape _].
  apply contains_split in Hc as (l & r & Hc). rewrite Hshape in Hc.
  apply padded_occurrence in Hc as (l' & r' & Hx & Hl & Hr).
  destruct (lower_around_trimmed sql) as (a & f & Hlow & Ha & Hf).
  rewrite Hlow, Hx. unfold contains_word.
  replace (a ++ (l' ++ strip kw ++ r') ++ f)
    with ((a ++ l') ++ strip kw ++ (r' ++ f)) by (by rewrite <- !app_assoc).
  apply contains_word_intro; [| |done].
  - rewrite rev_app_distr. destruct Hl as [->|[l0 ->]].
    + simpl. by apply filler_starts, forallb_rev.
    + by rewrite rev_app_distr.
  - destruct Hr as [->|[r0 ->]]; [by apply filler_starts|done].
Qed.



(** Claim C2.  A statement whose parsed kind is select or with, and whose
    text holds no denylisted keyword as a word of its own in any letter
    case, is allowed. *)
Theorem select_without_keyword_allowed sql t a :
  parser_input sql = Some t ->
  parse_one t = Parsed a ->
  ALLOW a = true ->
  (forall w, w ∈ BLOCK_WORDS -> contains_word w (lower sql) = false) ->
  is_safe_sql parse_one sql = (true, py "OK").
Proof.
  intros Ht Hp Ha Hw.
  assert (strip sql <> []) as Hne.
  { intros Hb. unfold parser_input in Ht. by rewrite Hb in Ht. }
  rewrite is_safe_sql_nonblank, Ht, Hp, Ha by done.
  apply scan_block_miss. intros kw Hkw.
  destruct (contains kw (padded sql)) eqn:Hc; [|done].
  apply padded_hit_is_word in Hc; [|done].
  rewrite Hw in Hc; [done|]. by apply block_kw_shape.
Qed.

End ValidatorTheorems.


(** Claim C8, as stated, fails: the input ";" is reduced to nothing by the
    trimming, and the reason is the parser's. *)
Lemma lone_terminator_is_parsed :
  trimmed (py ";") = [] /\
  is_safe_sql (fun _ => ParseError (py "No expression was parsed from ''"))
              (py ";")
  = (false, py "Parse error: No expression was parsed from ''").
Proof. by vm_compute. Qed.

(** Claim C3, on the code: with both keywords after [EXPLAIN], the text
    that is parsed starts at the later of their first occurrences, here the
    select at index 28 and not the with at index 7. *)
Theorem explain_inner_takes_later_keyword :
  let s := py "EXPLAIN WITH x AS (SELECT 1) SELECT * FROM x" in
  startswith (py "explain ") (lower s) = true /\
  find (py " with ") (lower s) = 7%Z /\
  find (py " select ") (lower s) = 28%Z /\
  explain_inner s (lower s) = Some (py "SELECT * FROM x") /\
  parser_input s = Some (py "SELECT * FROM x").
Proof. by vm_compute. Qed.

(** What comes before the later keyword is never parsed. *)
Lemma explain_hides_broken_prefix :
  let parse t := if decide (t = py "SELECT 1") then Parsed Select
                 else ParseError (py "syntax") in
  is_safe_sql parse (py "EXPLAIN WITH garbage ((( SELECT 1") = (true, py "OK").
Proof. by vm_compute. Qed.


(** On that statement two entries of the denylist occur, and the reason
    names the one that comes first in the denylist. *)
Lemma first_keyword_is_named :
  is_safe_sql (fun _ => Parsed Select) (py "SELECT 1 -- do drop x")
  = (false, py "Keyword bloqueada: DROP").
Proof. by vm_compute. Qed.

Lemma no_keyword_in_select_one w :
  w ∈ BLOCK_WORDS -> contains_word w (lower (py "SELECT 1")) = false.
Proof.
  intros H. cbv [BLOCK_WORDS BLOCK_KW map] in H.
  repeat (apply elem_of_cons in H as [->|H]; [by vm_compute|]).
  by apply elem_of_nil in H.
Qed.

Lemma select_without_keyword_allowed_witness :
  is_safe_sql (fun _ => Parsed Select) (py "SELECT 1") = (true, py "OK").
Proof.
  apply (select_without_keyword_allowed (fun _ => Parsed Select)
           (py "SELECT 1") (py "SELECT 1") Select).
  - reflexivity.
  - reflexivity.
  - reflexivity.
  - exact no_keyword_in_select_one.
Defined.

(* ===================================================================== *)
(** ** Properties of the cost gate *)
(* ===================================================================== *)

Section CostGate.

Lemma float_zero_not_above x :
  PrimFloat.eqb x 0%float = true ->
  PrimFloat.ltb 5000000%float x = true -> False.
Proof.
  rewrite FloatAxioms.eqb_spec, FloatAxioms.ltb_spec.
  change (Prim2SF 0) with (S754_zero false).
  replace (Prim2SF 5000000)
    with (S754_finite false 5368709120000000 (-30)) by (by vm_compute).
  destruct (Prim2SF x) as [[]|[]| |[] m e]; vm_compute; congruence.
Qed.

Lemma too_expensive_blocked (float_repr : float -> str)
    (plan : gmap str pyval) (reason : str) :
  too_expensive float_repr plan = Some (true, reason) <->
  exists total : pyval,
    plan !! py "total_cost" = Some total /\
    above_ceiling total /\
    reason = py "total_cost=" ++ show float_repr total.
Proof.
  unfold too_expensive. split.
  - destruct (plan !! py "total_cost") as [v|] eqn:Hv; [|discriminate].
    destruct v as [|n|x|s]; cbn [truthy_val].
    + intros ?; discriminate.
    + destruct (n =? 0)%Z eqn:Hn; cbn [negb truthy_val];
        [intros ?; discriminate|].
      rewrite Hn; cbn [negb].
      destruct (5000000 <? n)%Z eqn:Hc; [|intros ?; discriminate].
      intros [= <-]. exists (PInt n). split; [done|]. split; [|done].
      simpl. lia.
    + destruct (PrimFloat.eqb x 0) eqn:Hn; cbn [negb truthy_val];
        [intros ?; discriminate|].
      rewrite Hn; cbn [negb].
      destruct (PrimFloat.ltb 5000000 x) eqn:Hc; [|intros ?; discriminate].
      intros [= <-]. exists (PFloat x). split; [done|]. by split.
    + destruct s; cbn [truthy truthy_val]; intros ?; discriminate.
  - intros (total & -> & Hgt & ->).
    destruct total as [|n|x|s]; simpl in Hgt; try done.
    + cbn [truthy_val].
      destruct (n =? 0)%Z eqn:Hn; [lia|]. cbn [negb truthy_val]. rewrite Hn.
      cbn [negb]. destruct (5000000 <? n)%Z eqn:Hc; [done|lia].
    + cbn [truthy_val].
      destruct (PrimFloat.eqb x 0) eqn:Hn; cbn [negb truthy_val].
      * exfalso. revert Hn Hgt. apply float_zero_not_above.
      * rewrite Hn. cbn [negb]. by rewrite Hgt.
Qed.

Lemma error_summary_total_cost planner sql msg :
  planner (py "EXPLAIN (FORMAT JSON) " ++ sql) = PlannerError msg ->
  explain_summary planner sql !! py "total_cost" = None.
Proof.
  unfold explain_summary. intros ->.
  apply lookup_singleton_ne. by vm_compute.
Qed.

(** Claim C4.  [too_expensive] blocks exactly when the summary holds a
    total cost that is a number, whole or not, above 5000000, and the reason
    then shows that cost as Python prints it; the summary of Scenario C is
    blocked with a reason that shows 6000000, a cost of 6000000.25 is
    blocked and a cost of exactly 5000000 is not; the summary returned after
    a planner failure is not blocked. *)
Theorem too_expensive_spec :
  (forall (float_repr : float -> str) (plan : gmap str pyval) (reason : str),
     too_expensive float_repr plan = Some (true, reason) <->
     exists total : pyval,
       plan !! py "total_cost" = Some total /\
       above_ceiling total /\
       reason = py "total_cost=" ++ show float_repr total) /\
  (forall float_repr : float -> str,
     too_expensive float_repr {[ py "total_cost" := PInt 6000000 ]}
       = Some (true, py "total_cost=6000000") /\
     too_expensive float_repr {[ py "total_cost" := PFloat 6000000.25 ]}
       = Some (true, py "total_cost=" ++ float_repr 6000000.25%float) /\
     too_expensive float_repr {[ py "total_cost" := PFloat 5000000 ]}
       = Some (false, [])) /\
  (forall (float_repr : float -> str) planner sql msg,
     planner (py "EXPLAIN (FORMAT JSON) " ++ sql) = PlannerError msg ->
     too_expensive float_repr (explain_summary planner sql) = Some (false, [])).
Proof.
  split; [exact too_expensive_blocked|]. split.
  - intros float_repr. split; [by vm_compute|]. split; by vm_compute.
  - intros float_repr planner sql msg H. unfold too_expensive.
    by rewrite (error_summary_total_cost planner sql msg H).
Qed.

End CostGate.

Lemma too_expensive_spec_witness :
  too_expensive (fun _ => py "0.0")
    (explain_summary (fun _ => PlannerError (py "timeout")) (py "SELECT 1"))
  = Some (false, []).
Proof.
  apply (proj2 (proj2 too_expensive_spec) (fun _ => py "0.0")
           (fun _ => PlannerError (py "timeout")) (py "SELECT 1") (py "timeout")).
  reflexivity.
Defined.

(* ===================================================================== *)
(** ** Properties of the executor *)
(* ===================================================================== *)

Section Executor.

Variable session : list str -> str -> option (list row).


End Executor.



(** The same database cuts the answer to 500 rows when the limit is where
    it reads it. *)
Lemma limit_read_outside_comment :
  exists rows,
    run_query_secure commenting_session (py "SELECT * FROM t") 500 = Some rows /\
    length rows = 500.
Proof. eexists. split; [reflexivity|]. by vm_compute. Qed.

(* ===================================================================== *)
(** ** Properties of the catalog *)
(* ===================================================================== *)

Section Catalog.

(** Claim C9, on the code: the key columns go through a set before they
    reach [pk_cols], so the suggestion for a key of two columns follows the
    iteration order of that set; two arrangements, two suggestions. *)
Theorem suggest_id_follows_set_order :
  rev (pk_rows comunas_rows) ≡ₚ pk_rows comunas_rows /\
  option_map suggest_id_column
    (load_table id (py "dm") (py "comunas") comunas_rows)
  = Some (Some (py "region_id")) /\
  option_map suggest_id_column
    (load_table (@rev str) (py "dm") (py "comunas") comunas_rows)
  = Some (Some (py "comuna_id")).
Proof. split; [symmetry; apply Permutation_rev|by vm_compute]. Qed.

(** A column of type [interval] passes for an integer one. *)
Lemma suggest_id_takes_interval :
  suggest_id_column
    (mkTableInfo (py "dm") (py "turnos")
       [mkColumnInfo (py "duracion") (py "interval") false false;
        mkColumnInfo (py "n") (py "integer") false false]
       [] None [] [])
  = Some (py "duracion").
Proof. by vm_compute. Qed.

(** Without a primary key: the preferred names in their order, then the
    first column, not nullable, whose type name holds [int]. *)
Lemma suggest_id_without_pk ti :
  pk_cols ti = [] ->
  suggest_id_column ti =
    match first_named ID_NAMES (columns ti) with
    | Some n => Some n
    | None =>
        option_map name
          (head (filter (fun c => contains (py "int") (data_type c)
                                  && negb (is_nullable c)) (columns ti)))
    end.
Proof.
  intros Hpk. unfold suggest_id_column. rewrite Hpk.
  destruct (first_named _ _); [done|]. by destruct (filter _ _).
Qed.

Lemma suggest_id_with_pk ti k rest :
  pk_cols ti = k :: rest -> suggest_id_column ti = Some k.
Proof. intros Hpk. unfold suggest_id_column. by rewrite Hpk. Qed.

End Catalog.

(* ===================================================================== *)
(** ** Facts about the matcher *)
(* ===================================================================== *)

Section MatcherFacts.

Lemma extends_refl c : extends c c.
Proof. by exists []. Qed.

Lemma extends_trans c d e : extends c d -> extends d e -> extends c e.
Proof.
  intros (m1 & Hb1 & Ha1) (m2 & Hb2 & Ha2). exists (m1 ++ m2). split.
  - by rewrite Hb2, Hb1, rev_app_distr, app_assoc.
  - by rewrite Ha1, Ha2, app_assoc.
Qed.

Lemma extends_step bf x af : extends (Cursor bf (x :: af)) (Cursor (x :: bf) af).
Proof. by exists [x]. Qed.

Lemma reaches_weaken c d k res : extends c d -> reaches d k res -> reaches c k res.
Proof.
  intros Hcd (e & cs & He & Hk). exists e, cs. split; [|done].
  by apply extends_trans with d.
Qed.

Lemma star_greedy_reaches p k bf af cs res :
  star_greedy p k bf af cs = Some res -> reaches (Cursor bf af) k res.
Proof.
  revert bf. induction af as [|x af IH]; intros bf; simpl.
  - intros H. exists (Cursor bf []), cs. split; [apply extends_refl|done].
  - destruct (p x).
    + destruct (star_greedy p k (x :: bf) af cs) as [r|] eqn:E.
      * intros [= ->]. apply reaches_weaken with (Cursor (x :: bf) af);
          [apply extends_step|by apply IH].
      * intros H. exists (Cursor bf (x :: af)), cs.
        split; [apply extends_refl|done].
    + intros H. exists (Cursor bf (x :: af)), cs.
      split; [apply extends_refl|done].
Qed.

Lemma star_lazy_reaches p k bf af cs res :
  star_lazy p k bf af cs = Some res -> reaches (Cursor bf af) k res.
Proof.
  revert bf. induction af as [|x af IH]; intros bf; simpl.
  - destruct (k (Cursor bf []) cs) as [r|] eqn:E; [|done].
    intros [= ->]. exists (Cursor bf []), cs. split; [apply extends_refl|done].
  - destruct (k (Cursor bf (x :: af)) cs) as [r|] eqn:E.
    + intros [= ->]. exists (Cursor bf (x :: af)), cs.
      split; [apply extends_refl|done].
    + destruct (p x); [|done]. intros H.
      apply reaches_weaken with (Cursor (x :: bf) af);
        [apply extends_step|by apply IH].
Qed.

Lemma run_reaches r c cs k res :
  run r c cs k = Some res -> reaches c k res.
Proof.
  revert c cs k. induction r as [|p|r1 IH1 r2 IH2|r1 IH1 r2 IH2|r1 IH1|p g|n r1 IH1| | |];
    intros c cs k; simpl.
  - intros H. exists c, cs. split; [apply extends_refl|done].
  - destruct c as [bf [|x af]]; simpl; [done|].
    destruct (p x); [|done]. intros H.
    exists (Cursor (x :: bf) af), cs. split; [apply extends_step|done].
  - intros H. apply IH1 in H as (e1 & cs1 & He1 & H).
    apply IH2 in H. by apply reaches_weaken with e1.
  - destruct (run r1 c cs k) as [r|] eqn:E.
    + intros [= ->]. by apply IH1 in E.
    + apply IH2.
  - destruct (run r1 c cs k) as [r|] eqn:E.
    + intros [= ->]. by apply IH1 in E.
    + intros H. exists c, cs. split; [apply extends_refl|done].
  - destruct c as [bf af]. destruct g; simpl.
    + apply star_greedy_reaches.
    + apply star_lazy_reaches.
  - intros H. apply IH1 in H as (e & cs1 & He & H).
    exists e, ((n, between c e) :: cs1). done.
  - destruct (xorb _ _); [|done]. intros H.
    exists c, cs. split; [apply extends_refl|done].
  - destruct (before c); [|done]. intros H.
    exists c, cs. split; [apply extends_refl|done].
  - destruct (at_eol c); [|done]. intros H.
    exists c, cs. split; [apply extends_refl|done].
Qed.

(** A match covers a prefix of the text that follows its start, and
    [m.group(0)] is that prefix. *)
Lemma match_at_prefix r bf af m :
  match_at r (Cursor bf af) = Some m ->
  exists rest, af = group0 m ++ rest /\ m_len m = length (group0 m).
Proof.
  unfold match_at.
  destruct (run r (Cursor bf af) [] accept) as [[e cs]|] eqn:E; [|done].
  intros [= <-]. apply run_reaches in E as (e' & cs' & (mid & Hb & Ha) & Hk).
  injection Hk as -> ->. simpl in *.
  assert (between (Cursor bf af) e = mid) as Hmid.
  { unfold between, pos. simpl. rewrite Hb, length_app, length_rev.
    replace (length mid + length bf - length bf)%nat with (length (rev mid))
      by (rewrite length_rev; lia).
    by rewrite take_app_length, rev_involutive. }
  exists (after e). unfold group0, m_len. simpl. rewrite Hmid. split; [done|].
  unfold pos. simpl. rewrite Hb, length_app, length_rev. lia.
Qed.

Lemma sub_from_faithful r repl skip bf af fixes :
  faithful repl ->
  exists l, (sub_from r repl skip bf af fixes).2 = fixes ++ l /\
            (l = [] -> (sub_from r repl skip bf af fixes).1 = drop skip af).
Proof.
  intros Hf. revert skip bf fixes.
  induction af as [|x af IH]; intros skip bf fixes.
  - destruct skip as [|n]; simpl.
    + destruct (match_at r (Cursor bf [])) as [m|] eqn:E.
      * destruct (Hf m fixes) as (l & Hl & Hnew).
        destruct (repl m fixes) as [new st1]. simpl in *.
        exists l. split; [done|]. intros ->. rewrite Hnew by done.
        apply match_at_prefix in E as (rest & Hrest & _).
        symmetry in Hrest. by apply app_eq_nil in Hrest as [-> _].
      * exists []. by rewrite app_nil_r.
    + exists []. by rewrite app_nil_r.
  - destruct skip as [|n]; simpl.
    + destruct (match_at r (Cursor bf (x :: af))) as [m|] eqn:E.
      * destruct (Hf m fixes) as (l1 & Hl1 & Hnew).
        destruct (repl m fixes) as [new st1]. simpl in *.
        destruct (IH (m_len m - 1)%nat (x :: bf) st1) as (l2 & Hl2 & Hout).
        destruct (sub_from r repl (m_len m - 1) (x :: bf) af st1) as [out st2].
        simpl in *. apply match_at_prefix in E as (rest & Hrest & Hlen).
        assert (forall out', (match m_len m with
                              | O => (new ++ x :: out', st2)
                              | S _ => (new ++ out', st2) end).2 = st2) as H2.
        { intros. by destruct (m_len m). }
        exists (l1 ++ l2). rewrite H2. split.
        { by rewrite Hl2, Hl1, app_assoc. }
        intros [-> ->]%app_eq_nil. rewrite Hnew in * by done.
        rewrite Hout by done. destruct (group0 m) as [|y mid] eqn:Hg.
        -- simpl in Hlen. rewrite Hlen. simpl. by rewrite drop_0.
        -- simpl in Hlen, Hrest. rewrite Hlen. simpl. rewrite Nat.sub_0_r.
           injection Hrest as -> ->. by rewrite drop_app_length.
      * destruct (IH 0%nat (x :: bf) fixes) as (l & Hl & Hout).
        destruct (sub_from r repl 0 (x :: bf) af fixes) as [out st1].
        simpl in *. exists l. split; [done|]. intros Hnil.
        by rewrite Hout, drop_0.
    + apply IH.
Qed.








Lemma sub_with_faithful r repl s fixes :
  faithful repl ->
  exists l, (sub_with r repl s fixes).2 = fixes ++ l /\
            (l = [] -> (sub_with r repl s fixes).1 = s).
Proof. intros Hf. apply (sub_from_faithful r repl 0 [] s fixes Hf). Qed.

End MatcherFacts.

(* ===================================================================== *)
(** ** Properties of the rewrite engine *)
(* ===================================================================== *)

Section RewriteFacts.

Variable cache : gmap (str * str) TableInfo.
Variable set_iter : list ref -> list ref.

Lemma grows_refl st : grows st st.
Proof. exists []. by rewrite app_nil_r. Qed.

Lemma grows_trans st1 st2 st3 : grows st1 st2 -> grows st2 st3 -> grows st1 st3.
Proof.
  intros (l1 & H1 & T1) (l2 & H2 & T2). exists (l1 ++ l2). split.
  - by rewrite H2, H1, app_assoc.
  - intros [-> ->]%app_eq_nil. by rewrite T2, T1.
Qed.

Lemma foldl_grows {A} (f : state -> A -> state) (l : list A) st :
  (forall st x, grows st (f st x)) -> grows st (foldl f st l).
Proof.
  intros Hf. revert st. induction l as [|x l IH]; intros st; simpl.
  - apply grows_refl.
  - apply grows_trans with (f st x); [apply Hf|apply IH].
Qed.

Lemma subst_pass_grows hint pat repl fix_of st :
  grows st (subst_pass hint pat repl fix_of st).
Proof.
  unfold subst_pass. destruct hint as [h|]; [|apply grows_refl].
  destruct (truthy h && found pat st.1); [|apply grows_refl].
  exists [fix_of h]. by split.
Qed.

Lemma alias_step_grows tm st entry : grows st (alias_step cache tm st entry).
Proof.
  destruct entry as [alias [sch tab]]. unfold alias_step.
  eapply grows_trans; apply subst_pass_grows.
Qed.

Lemma qualified_step_grows st entry : grows st (qualified_step st entry).
Proof.
  destruct entry as [[sch tab] m]. unfold qualified_step.
  eapply grows_trans; apply subst_pass_grows.
Qed.

Lemma simple_step_grows tm st entry : grows st (simple_step tm st entry).
Proof.
  destruct entry as [tbl r]. unfold simple_step.
  eapply grows_trans; apply subst_pass_grows.
Qed.

Lemma fix_st_geom_pair_faithful e : faithful (_fix_st_geom_pair cache e).
Proof.
  intros m fixes. unfold _fix_st_geom_pair.
  assert (exists l, (group0 m, fixes).2 = fixes ++ l /\
                    (l = [] -> (group0 m, fixes).1 = group0 m)) as Hsame.
  { exists []. by rewrite app_nil_r. }
  destruct (found _ _ || found _ _); [done|].
  destruct (_resolve_expr e _) as [[[[s1 t1] a1] c1]|]; [|done].
  destruct (_resolve_expr e _) as [[[[s2 t2] a2] c2]|]; [|done].
  destruct (want_metric e).
  { eexists [_]. split; [done|done]. }
  destruct (_ && _ && _); [|done].
  destruct (if is_first e a1 then _ else _) as [new1 new2].
  eexists [_]. split; [done|done].
Qed.

Lemma apply_passes_split metas sql question :
  apply_passes cache metas sql question =
  let am := _collect_aliases sql in
  let r := passes_3_to_7 cache metas am question
             (foldl (alias_step cache metas.1) (sql, []) am) in
  area_pass question r.1 r.2.
Proof. by destruct metas. Qed.

(** Without a hectare request the passes grow the state. *)
Lemma apply_passes_grows metas sql question :
  _mentions_hectares question = false ->
  grows (sql, []) (apply_passes cache metas sql question).
Proof.
  intros Hh. destruct metas as [tm sm]. unfold apply_passes. rewrite Hh.
  set (st2 := foldl (alias_step cache tm) (sql, []) (_collect_aliases sql)).
  set (st3 := foldl qualified_step st2 tm).
  set (st4 := foldl (simple_step tm) st3 sm).
  set (e := mkEnv _ _ _ _ _).
  assert (grows (sql, []) st4) as H4.
  { apply grows_trans with st3; [apply grows_trans with st2|].
    - apply foldl_grows, alias_step_grows.
    - apply foldl_grows, qualified_step_grows.
    - apply foldl_grows, simple_step_grows. }
  apply grows_trans with st4; [done|].
  destruct (sub_with_faithful ST_PAIR_RE _ st4.1 st4.2
              (fix_st_geom_pair_faithful e)) as (l & Hl & Ht).
  by exists l.
Qed.

(** An application that records no fix, for a question that does not
    mention hectares, returns the text it was given. *)
Lemma quiet_application_keeps_text sql question :
  _mentions_hectares question = false ->
  (fix_sql cache set_iter sql question).2 = [] ->
  (fix_sql cache set_iter sql question).1 = sql.
Proof.
  intros Hh Hfix. unfold fix_sql in *.
  destruct (apply_passes_grows (_build_table_meta cache set_iter question sql)
              sql question Hh) as (l & Hl & Ht).
  rewrite Hfix in Hl. simpl in Hl. subst l. by apply Ht.
Qed.

End RewriteFacts.

Section MetaFacts.

Variable cache : gmap (str * str) TableInfo.

Lemma dict_get_set {K V} `{EqDecision K} (k k' : K) (v : V) d :
  dict_get k (dict_set k' v d) = if decide (k = k') then Some v else dict_get k d.
Proof.
  induction d as [|[k0 v0] d IH]; simpl.
  - done.
  - destruct (decide (k' = k0)) as [->|Hne]; simpl.
    + destruct (decide (k = k0)); done.
    + destruct (decide (k = k0)) as [->|?].
      * destruct (decide (k0 = k')); [congruence|done].
      * done.
Qed.

Lemma uniq_spec seen l :
  NoDup (uniq seen l) /\ forall x, x ∈ uniq seen l -> x ∉ seen.
Proof.
  revert seen. induction l as [|st l IH]; intros seen; simpl.
  - split; [constructor|]. intros x Hx. by apply elem_of_nil in Hx.
  - destruct (bool_decide (st ∈ seen)) eqn:E; [apply IH|].
    apply bool_decide_eq_false in E. destruct (IH (st :: seen)) as [Hnd Hseen].
    split.
    + constructor; [|done]. intros Hin. apply Hseen in Hin.
      apply Hin. left.
    + intros x [->|Hx]%elem_of_cons; [done|].
      apply Hseen in Hx. intros ?. apply Hx. by right.
Qed.

Lemma refs_of_NoDup question sql : NoDup (refs_of question sql).
Proof. apply uniq_spec. Qed.

Lemma names_count_perm l1 l2 t :
  l1 ≡ₚ l2 -> names_count l1 t = names_count l2 t.
Proof. intros H. unfold names_count. by rewrite H. Qed.

Lemma meta_step_perm l1 l2 acc r :
  l1 ≡ₚ l2 -> meta_step cache l1 acc r = meta_step cache l2 acc r.
Proof.
  intros H. unfold meta_step. destruct r as [s t].
  by rewrite (names_count_perm l1 l2 t H).
Qed.

Lemma meta_step_unresolved refs acc r :
  get_table cache r.1 r.2 = None -> meta_step cache refs acc r = acc.
Proof. destruct r as [s t]. simpl. unfold meta_step. by intros ->. Qed.

(** Entries of [table_meta] belong to tables of the catalog. *)
Lemma meta_keys_resolved refs l acc r :
  (get_table cache r.1 r.2 = None -> dict_get r acc.1 = None) ->
  get_table cache r.1 r.2 = None ->
  dict_get r (foldl (meta_step cache refs) acc l).1 = None.
Proof.
  revert acc. induction l as [|x l IH]; intros acc Hacc Hr; simpl; [by apply Hacc|].
  apply IH; [|done]. intros _.
  destruct x as [s t]. unfold meta_step.
  destruct (get_table cache s t) eqn:E; [|by apply Hacc]. simpl.
  rewrite dict_get_set. destruct (decide (r = (s, t))) as [->|]; [|by apply Hacc].
  simpl in Hr. congruence.
Qed.

Lemma build_meta_resolved set_iter question sql s t :
  get_table cache s t = None ->
  dict_get (s, t) (_build_table_meta cache set_iter question sql).1 = None.
Proof. intros H. unfold _build_table_meta. by apply meta_keys_resolved. Qed.

Lemma foldl_meta_single refs l r0 acc :
  NoDup l ->
  (forall r, r ∈ l -> r <> r0 -> get_table cache r.1 r.2 = None) ->
  foldl (meta_step cache refs) acc l =
    if decide (r0 ∈ l) then meta_step cache refs acc r0 else acc.
Proof.
  revert acc. induction l as [|r l IH]; intros acc Hnd Hun.
  - rewrite decide_False; [done|]. apply not_elem_of_nil.
  - apply NoDup_cons in Hnd as [Hr Hnd]. cbn [foldl].
    rewrite IH; [|done|intros; apply Hun; [by right|done]].
    destruct (decide (r = r0)) as [->|Hne].
    + rewrite decide_False by done. rewrite decide_True; [done|left].
    + rewrite (meta_step_unresolved refs acc r) by (apply Hun; [left|done]).
      destruct (decide (r0 ∈ l)) as [Hin|Hnin].
      * rewrite decide_True; [done|by right].
      * rewrite decide_False; [done|].
        intros [->|?]%elem_of_cons; done.
Qed.

End MetaFacts.

(** With a catalog of one table the order of iteration over the set of
    references does not matter. *)
Lemma build_meta_one_table r0 ti set_iter question sql :
  set_order_ok set_iter ->
  _build_table_meta {[ r0 := ti ]} set_iter question sql =
  _build_table_meta {[ r0 := ti ]} id question sql.
Proof.
  intros Hok. unfold _build_table_meta.
  pose proof (refs_of_NoDup question sql) as Hnd.
  pose proof (Hok _ Hnd) as Hperm.
  set (l := refs_of question sql) in *. simpl.
  assert (forall l' : list ref, (forall r : ref, r ∈ l' -> r <> r0 ->
            get_table {[ r0 := ti ]} r.1 r.2 = None)) as Hun.
  { intros l' [s t] _ Hne. simpl. unfold get_table.
    by apply lookup_singleton_ne. }
  rewrite (foldl_meta_single _ _ (set_iter l) r0), (foldl_meta_single _ _ l r0);
    [|done|apply Hun|by rewrite Hperm|apply Hun].
  rewrite (meta_step_perm _ (set_iter l) l) by done.
  destruct (decide (r0 ∈ l)) as [H2|H2].
  - rewrite decide_True; [done|by rewrite Hperm].
  - rewrite decide_False; [done|by rewrite Hperm].
Qed.

Lemma build_meta_empty set_iter question sql :
  _build_table_meta ∅ set_iter question sql = ([], []).
Proof.
  unfold _build_table_meta.
  generalize (set_iter (refs_of question sql)) at 1. intros refs.
  generalize (@nil (ref * meta), @nil (str * ref)).
  induction (set_iter (refs_of question sql)) as [|r l IH]; intros acc; simpl.
  - done.
  - rewrite meta_step_unresolved; [apply IH|].
    unfold get_table. apply lookup_empty.
Qed.

(* ===================================================================== *)
(** ** Literal patterns: matching without the matcher *)
(* ===================================================================== *)

Section LiteralPatterns.

Implicit Types (c : cursor) (w g p t : str).

Lemma advance_0 c : advance 0 c = c.
Proof. destruct c. unfold advance. simpl. by rewrite drop_0. Qed.

Lemma advance_S n bf x af :
  advance (S n) (Cursor bf (x :: af)) = advance n (Cursor (x :: bf) af).
Proof. unfold advance. simpl. by rewrite <- app_assoc. Qed.

Lemma advance_advance n m c : advance m (advance n c) = advance (n + m) c.
Proof.
  destruct c as [bf af]. revert bf af. induction n as [|n IH]; intros bf af.
  - by rewrite advance_0.
  - destruct af as [|x af].
    + unfold advance. simpl. by rewrite !take_nil, !drop_nil.
    + simpl. by rewrite !advance_S, IH.
Qed.

Lemma run_lit_gen ci w c cs k :
  run (lit_gen ci w) c cs k =
    if startswith_fold ci w (after c) then k (advance (length w) c) cs
    else None.
Proof.
  revert c. induction w as [|a w IH]; intros [bf af].
  - destruct ci; simpl; by rewrite advance_0.
  - destruct af as [|x af]; [by destruct ci|].
    cbn [length]. rewrite advance_S. cbn [startswith_fold after].
    specialize (IH (Cursor (x :: bf) af)). cbn [after] in IH.
    destruct ci; simpl in *; unfold is_char_i, is_char;
      (destruct (Ascii.eqb _ _); [exact IH|done]).
Qed.

Lemma fold_dot ci x :
  Ascii.eqb (fold_case ci x) (fold_case ci ".") = Ascii.eqb x ".".
Proof.
  destruct ci; [|done].
  by destruct x as [[] [] [] [] [] [] [] []].
Qed.

Lemma run_dot ci r c cs k :
  run (Seq dot r) c cs k =
    if startswith_fold ci (py ".") (after c) then run r (advance 1 c) cs k
    else None.
Proof.
  destruct c as [bf [|x af]]; [done|].
  change (py ".") with ["."%char]. cbn [startswith_fold after].
  rewrite fold_dot, advance_S, advance_0. simpl. unfold is_char.
  by destruct (Ascii.eqb x ".").
Qed.

Lemma startswith_fold_app ci p g t :
  startswith_fold ci (p ++ g) t =
    startswith_fold ci p t && startswith_fold ci g (drop (length p) t).
Proof.
  revert t. induction p as [|a p IH]; intros t; simpl.
  - by rewrite drop_0.
  - destruct t as [|x t]; [done|]. simpl. rewrite IH.
    by rewrite andb_assoc.
Qed.

Lemma startswith_fold_length ci w t :
  startswith_fold ci w t = true -> length w <= length t.
Proof.
  revert t. induction w as [|a w IH]; intros t; simpl; [lia|].
  destruct t as [|x t]; [done|]. intros [_ H]%andb_true_iff.
  apply IH in H. simpl. lia.
Qed.

Lemma fold_word ci x : is_word (fold_case ci x) = is_word x.
Proof.
  destruct ci; [|done].
  by destruct x as [[] [] [] [] [] [] [] []].
Qed.

(** After a word that ends in a word character, the character before the
    position is a word character. *)
Lemma prev_after_word ci w bf af :
  startswith_fold ci w af = true ->
  starts_with_word (rev w) = true ->
  prev_is_word (advance (length w) (Cursor bf af)) = true.
Proof.
  revert bf af. induction w as [|a w IH]; intros bf af; simpl; [done|].
  destruct af as [|x af]; [done|].
  intros [Hx Hw]%andb_true_iff Hlast. rewrite advance_S.
  destruct w as [|b w].
  - rewrite advance_0. change (is_word x = true).
    change (is_word a = true) in Hlast. apply Ascii.eqb_eq in Hx.
    by rewrite <- (fold_word ci x), Hx, fold_word.
  - apply IH; [done|]. cbn [rev] in *.
    destruct (rev w ++ [b]) eqn:E; [by destruct (rev w)|done].
Qed.

Lemma next_of_advance n bf af :
  next_is_word (advance n (Cursor bf af)) = starts_with_word (drop n af).
Proof. done. Qed.

(** After a word that begins with a word character, so does the text. *)
Lemma next_at_word ci w af :
  startswith_fold ci w af = true ->
  starts_with_word w = true ->
  starts_with_word af = true.
Proof.
  destruct w as [|a w]; [done|]. destruct af as [|x af]; [done|].
  cbn [startswith_fold]. intros [Hx _]%andb_true_iff Ha.
  apply Ascii.eqb_eq in Hx. change (is_word x = true).
  change (is_word a = true) in Ha.
  by rewrite <- (fold_word ci x), Hx, fold_word.
Qed.

Lemma run_alts ci gs c cs k :
  gs <> [] -> run (alts ci gs) c cs k = try_alts ci gs c cs k.
Proof.
  induction gs as [|g gs IH]; [done|]. intros _.
  destruct gs as [|g' gs].
  - simpl. rewrite run_lit_gen. by destruct (if startswith_fold _ _ _ then _ else _).
  - change (alts ci (g :: g' :: gs)) with (Alt (lit_gen ci g) (alts ci (g' :: gs))).
    cbn [run try_alts]. rewrite run_lit_gen, IH by done. done.
Qed.

Lemma first_word_here_prev ci prev cands t :
  first_word_here ci prev cands t =
    if prev then None else first_word_here ci false cands t.
Proof.
  induction cands as [|w cands IH]; simpl; [by destruct prev|].
  unfold word_here. destruct prev; simpl; [done|]. done.
Qed.

(** The alternatives, each followed by a word boundary, find the first
    candidate that stands as a word of its own. *)
Lemma try_alts_words ci p gs c cs (K : cont) :
  startswith_fold ci p (after c) = true ->
  (forall g, g ∈ gs -> starts_with_word (rev g) = true) ->
  (forall c' cs', K c' cs' <> None) ->
  try_alts ci gs (advance (length p) c) cs
    (fun c' cs' => if xorb (prev_is_word c') (next_is_word c')
                   then K c' cs' else None)
  = match first_word_here ci false (map (app p) gs) (after c) with
    | Some n => K (advance n c) cs
    | None => None
    end.
Proof.
  intros Hp Hgs HK. destruct c as [bf af]. cbn [after] in *.
  induction gs as [|g gs IH]; [done|]. cbn [try_alts map first_word_here].
  unfold word_here. rewrite startswith_fold_app, Hp. cbn [negb andb after advance].
  rewrite length_app.
  destruct (startswith_fold ci g (drop (length p) af)) eqn:Hg.
  - rewrite advance_advance.
    change (Cursor (rev (take (length p) af) ++ bf) (drop (length p) af))
      with (advance (length p) (Cursor bf af)) in *.
    assert (prev_is_word (advance (length p + length g) (Cursor bf af)) = true)
      as Hprev.
    { rewrite <- advance_advance. unfold advance at 2. cbn [after before].
      apply (prev_after_word ci); [done|]. apply Hgs. left. }
    rewrite Hprev, next_of_advance. cbn [xorb].
    destruct (starts_with_word (drop (length p + length g) af)); cbn [negb].
    + apply IH. intros g' Hg'. apply Hgs. by right.
    + destruct (K _ cs) eqn:EK; [done|]. by apply HK in EK.
  - cbn [andb]. apply IH. intros g' Hg'. apply Hgs. by right.
Qed.

End LiteralPatterns.

Section ColumnPatterns.

Implicit Types (c : cursor) (w g p t : str).

Lemma first_word_here_no_prefix ci prev p gs t :
  startswith_fold ci p t = false ->
  first_word_here ci prev (map (app p) gs) t = None.
Proof.
  intros Hp. induction gs as [|g gs IH]; [done|]. simpl.
  unfold word_here. rewrite startswith_fold_app, Hp.
  by rewrite andb_false_r.
Qed.

Lemma between_advance n bf af :
  n <= length af -> between (Cursor bf af) (advance n (Cursor bf af)) = take n af.
Proof.
  intros Hn. unfold between, pos, advance. cbn [before after].
  rewrite length_app, length_rev, length_take.
  replace (n `min` length af + length bf - length bf) with (length (rev (take n af)))
    by (rewrite length_rev, length_take; lia).
  by rewrite take_app_length, rev_involutive.
Qed.

Lemma pos_advance n bf af :
  n <= length af -> pos (advance n (Cursor bf af)) - pos (Cursor bf af) = n.
Proof.
  intros Hn. unfold pos, advance. cbn [before after].
  rewrite length_app, length_rev, length_take. lia.
Qed.

Lemma tail_ok_alts ci gs : gs <> [] -> tail_ok ci gs (alts ci gs).
Proof.
  intros Hgs c cs. exists accept. split.
  - intros c' cs'. by exists [].
  - cbn [run]. by rewrite run_alts.
Qed.

Lemma tail_ok_group ci gs :
  gs <> [] -> tail_ok ci gs (Group 2 (alts ci gs)).
Proof.
  intros Hgs c cs.
  exists (fun c' cs' => accept c' ((2, between c c') :: cs')). split.
  - intros c' cs'. by exists [(2, between c c')].
  - cbn [run]. by rewrite run_alts.
Qed.

Lemma run_col_unfold ci alias tail c :
  run (col_re ci alias tail) c [] accept =
    if xorb (prev_is_word c) (next_is_word c) then
      if startswith_fold ci alias (after c) then
        if startswith_fold ci (py ".") (after (advance (length alias) c)) then
          run (Seq tail WordB) (advance 1 (advance (length alias) c))
              [(1, between c (advance (length alias) c))] accept
        else None
      else None
    else None.
Proof.
  unfold col_re.
  transitivity
    (if xorb (prev_is_word c) (next_is_word c)
     then run (lit_gen ci alias) c []
            (fun c' cs' => run (Seq dot (Seq tail WordB)) c'
                             ((1, between c c') :: cs') accept)
     else None); [done|].
  rewrite run_lit_gen. cbv beta.
  destruct (xorb _ _); [|done].
  destruct (startswith_fold ci alias (after c)); [|done].
  by rewrite (run_dot ci).
Qed.

(** What a column pattern matches at a position: the first candidate
    [alias.name] that stands there as a word of its own. *)
Lemma match_at_col ci alias gs tail bf af :
  tail_ok ci gs tail ->
  starts_with_word alias = true ->
  (forall g, g ∈ gs -> starts_with_word (rev g) = true) ->
  match match_at (col_re ci alias tail) (Cursor bf af) with
  | Some m =>
      exists n, first_word_here ci (prev_word bf)
                  (map (app (alias ++ py ".")) gs) af = Some n /\
                m_len m = n /\ n <= length af /\ length alias <= n /\
                group 1 m = Some (take (length alias) af)
  | None =>
      first_word_here ci (prev_word bf) (map (app (alias ++ py ".")) gs) af
      = None
  end.
Proof.
  intros Htail Halias Hgs. unfold match_at.
  set (c := Cursor bf af). set (p := alias ++ py ".").
  rewrite run_col_unfold, first_word_here_prev.
  change (prev_is_word c) with (prev_word bf).
  change (next_is_word c) with (starts_with_word af).
  change (after c) with af.
  destruct (startswith_fold ci alias af) eqn:Ha.
  2:{ rewrite first_word_here_no_prefix
        by (unfold p; by rewrite startswith_fold_app, Ha).
      by destruct (xorb _ _), (prev_word bf). }
  rewrite (next_at_word ci alias af Ha Halias).
  destruct (prev_word bf); cbn [xorb negb]; [done|].
  change (after (advance (length alias) c)) with (drop (length alias) af).
  destruct (startswith_fold ci (py ".") (drop (length alias) af)) eqn:Hd.
  2:{ rewrite first_word_here_no_prefix
        by (unfold p; by rewrite startswith_fold_app, Ha, Hd).
      done. }
  rewrite advance_advance.
  destruct (Htail (advance (length alias + 1) c)
              [(1, between c (advance (length alias) c))]) as (K & HK & ->).
  assert (startswith_fold ci p (after c) = true) as Hp.
  { unfold p. change (after c) with af. by rewrite startswith_fold_app, Ha, Hd. }
  replace (length alias + 1) with (length p)
    by (unfold p; by rewrite length_app).
  rewrite (try_alts_words ci p gs c _ K Hp Hgs).
  2:{ intros c' cs'. by destruct (HK c' cs') as (cs'' & -> & _). }
  change (after c) with af.
  destruct (first_word_here ci false (map (app p) gs) af) as [n|] eqn:Hn; [|done].
  destruct (HK (advance n c) [(1, between c (advance (length alias) c))])
    as (extra & -> & Hextra).
  assert (length p <= n /\ n <= length af) as [Hpn Hnaf].
  { clear -Hn. induction gs as [|g gs IH]; [done|]. simpl in Hn.
    destruct (word_here ci false (p ++ g) af) eqn:E; [|by apply IH].
    injection Hn as <-. unfold word_here in E.
    apply andb_true_iff in E as [E _]. simpl in E.
    apply startswith_fold_length in E. rewrite length_app in *. lia. }
  exists n. split; [done|]. unfold m_len. cbn [m_end m_start m_caps].
  assert (length alias <= n) as Han.
  { unfold p in Hpn. rewrite length_app in Hpn. lia. }
  unfold c. rewrite pos_advance by done. repeat split; [done|done|].
  unfold group. cbn [m_caps]. rewrite Hextra. cbn [cap_lookup Nat.eqb].
  by rewrite between_advance by lia.
Qed.

End ColumnPatterns.

Section Replace.

Variables (ci : bool) (cands : list str) (r : regex).
Variables (repl : rmatch -> str) (repl' : str -> str).

(** The pattern [r] matches where a word of [cands] stands, and [repl]
    depends on the text that was matched only. *)
Hypothesis matches_words : forall bf af,
  match match_at r (Cursor bf af) with
  | Some m =>
      exists n, first_word_here ci (prev_word bf) cands af = Some n /\
                m_len m = n /\ 0 < n /\ repl m = repl' (take n af)
  | None => first_word_here ci (prev_word bf) cands af = None
  end.

Lemma sub_from_replace af skip bf :
  (sub_from r (fun m (_ : unit) => (repl m, tt)) skip bf af tt).1 =
  replace_words ci cands repl' (prev_word bf) skip af.
Proof using matches_words.
  revert skip bf. induction af as [|x af IH]; intros skip bf.
  - destruct skip as [|k]; [|done]. cbn [sub_from replace_words].
    pose proof (matches_words bf []) as H.
    destruct (match_at r (Cursor bf [])) as [m|].
    + destruct H as (n & -> & _ & _ & ->). by rewrite app_nil_r.
    + by rewrite H.
  - destruct skip as [|k]; cbn [sub_from replace_words].
    + pose proof (matches_words bf (x :: af)) as H.
      destruct (match_at r (Cursor bf (x :: af))) as [m|].
      * destruct H as (n & -> & Hlen & Hpos & ->).
        specialize (IH (m_len m - 1) (x :: bf)).
        destruct (sub_from r _ (m_len m - 1) (x :: bf) af tt) as [out st2].
        cbn [fst] in IH. rewrite Hlen in *.
        destruct n as [|j]; [lia|]. cbn [fst]. by rewrite IH.
      * rewrite H. specialize (IH 0 (x :: bf)).
        destruct (sub_from r _ 0 (x :: bf) af tt) as [out st1].
        cbn [fst] in *. by rewrite IH.
    + apply IH.
Qed.

Lemma sub_replace t : sub r repl t = replace_words ci cands repl' false 0 t.
Proof using matches_words. apply (sub_from_replace t 0 []). Qed.

Lemma search_from_occurs af bf :
  (match search_from r bf af with Some _ => true | None => false end) =
  occurs_word ci cands (prev_word bf) af.
Proof using matches_words.
  revert bf. induction af as [|x af IH]; intros bf;
    cbn [search_from occurs_word];
    pose proof (matches_words bf) as H.
  - specialize (H []). destruct (match_at r (Cursor bf [])) as [m|].
    + by destruct H as (n & -> & _).
    + by rewrite H.
  - specialize (H (x :: af)). destruct (match_at r (Cursor bf (x :: af))) as [m|].
    + by destruct H as (n & -> & _).
    + rewrite H. apply IH.
Qed.

Lemma found_occurs t : found r t = occurs_word ci cands false t.
Proof using matches_words. apply (search_from_occurs t []). Qed.

End Replace.

Section AliasPass.

Variable cache : gmap (str * str) TableInfo.

Lemma identifier_starts_word alias :
  is_identifier alias = true -> starts_with_word alias = true.
Proof.
  destruct alias as [|c r]; [done|]. simpl.
  intros [Hc _]%andb_true_iff. unfold ident_start in Hc. unfold is_word.
  apply orb_true_iff in Hc as [-> | ->]; [done|]. by rewrite !orb_true_r.
Qed.

Lemma col_matches ci alias gs tail h bf af :
  tail_ok ci gs tail ->
  is_identifier alias = true ->
  (forall g, g ∈ gs -> starts_with_word (rev g) = true) ->
  match match_at (col_re ci alias tail) (Cursor bf af) with
  | Some m =>
      exists n,
        first_word_here ci (prev_word bf)
          (map (fun g => alias ++ py "." ++ g) gs) af = Some n /\
        m_len m = n /\ 0 < n /\
        group_or_empty 1 m ++ py "." ++ h =
          take (length alias) (take n af) ++ py "." ++ h
  | None =>
      first_word_here ci (prev_word bf)
        (map (fun g => alias ++ py "." ++ g) gs) af = None
  end.
Proof.
  intros Htail Hid Hgs.
  assert (map (fun g => alias ++ py "." ++ g) gs
          = map (app (alias ++ py ".")) gs) as ->.
  { apply map_ext. intros g. by rewrite <- app_assoc. }
  pose proof (match_at_col ci alias gs tail bf af Htail
                (identifier_starts_word alias Hid) Hgs) as H.
  destruct (match_at _ _) as [m|]; [|done].
  destruct H as (n & Hn & Hlen & Hnaf & Han & Hg).
  exists n. repeat split; [done|done| |].
  - destruct alias; [done|]. simpl in Han. lia.
  - unfold group_or_empty. rewrite Hg. simpl.
    by rewrite take_take, Nat.min_l.
Qed.

(** One substitution of the alias pass is a replacement of words. *)
Lemma subst_pass_column ci alias gs tail label hint fix_of st :
  tail_ok ci gs tail ->
  is_identifier alias = true ->
  (forall g, g ∈ gs -> starts_with_word (rev g) = true) ->
  (forall h, fix_of h = alias ++ label ++ py " -> " ++ alias ++ py "." ++ h) ->
  subst_pass hint (col_re ci alias tail)
    (fun h m => group_or_empty 1 m ++ py "." ++ h) fix_of st
  = column_pass ci alias gs label hint st.
Proof.
  intros Htail Hid Hgs Hfix. unfold subst_pass, column_pass.
  destruct hint as [h|]; [|done].
  rewrite (found_occurs ci (map (fun g => alias ++ py "." ++ g) gs) _
             (fun m => group_or_empty 1 m ++ py "." ++ h)
             (fun found => take (length alias) found ++ py "." ++ h)
             (fun bf af => col_matches ci alias gs tail h bf af Htail Hid Hgs)).
  destruct (truthy h && _); [|done].
  rewrite (sub_replace ci (map (fun g => alias ++ py "." ++ g) gs) _
             (fun m => group_or_empty 1 m ++ py "." ++ h)
             (fun found => take (length alias) found ++ py "." ++ h)
             (fun bf af => col_matches ci alias gs tail h bf af Htail Hid Hgs)).
  by rewrite Hfix.
Qed.

Theorem alias_step_replaces_words tm st alias sch tab :
  is_identifier alias = true ->
  alias_step cache tm st (alias, (sch, tab)) =
    column_pass true alias (map py ["geom"; "geometry"; "geometria"])
      (py ".geom")
      (or_else (meta_get tm (sch, tab) meta_geom) (_geom_for cache sch tab))
      (column_pass false alias [py "id"] (py ".id")
         (or_else (meta_get tm (sch, tab) meta_id) (_id_for cache sch tab))
         st).
Proof.
  intros Hid. unfold alias_step.
  change (alias_id_re alias) with (col_re false alias (alts false [py "id"])).
  change (alias_geom_re alias)
    with (col_re true alias
            (Group 2 (alts true (map py ["geom"; "geometry"; "geometria"])))).
  rewrite (subst_pass_column false alias [py "id"] _ (py ".id"));
    [|by apply tail_ok_alts|done| |done].
  2:{ intros g [->|H]%elem_of_cons; [done|]. by apply elem_of_nil in H. }
  rewrite (subst_pass_column true alias
             (map py ["geom"; "geometry"; "geometria"]) _ (py ".geom"));
    [done|by apply tail_ok_group|done| |done].
  intros g H. simpl in H.
  repeat (apply elem_of_cons in H as [->|H]; [done|]).
  by apply elem_of_nil in H.
Qed.

End AliasPass.

Section AliasesAreIdentifiers.

Lemma run_seq_tail a b c cs k res :
  run (Seq a b) c cs k = Some res ->
  exists e cs', run b e cs' k = Some res.
Proof.
  cbn [run]. intros H. apply run_reaches in H as (e & cs' & _ & H).
  by exists e, cs'.
Qed.

Lemma star_greedy_all p k bf af cs res :
  star_greedy p k bf af cs = Some res ->
  exists mid rest, af = mid ++ rest /\ forallb p mid = true /\
                   k (Cursor (rev mid ++ bf) rest) cs = Some res.
Proof.
  revert bf. induction af as [|x af IH]; intros bf; simpl.
  - intros H. by exists [], [].
  - destruct (p x) eqn:Hx.
    + destruct (star_greedy p k (x :: bf) af cs) as [r|] eqn:E.
      * intros [= ->]. apply IH in E as (mid & rest & -> & Hmid & Hk).
        exists (x :: mid), rest. simpl. rewrite Hx, Hmid.
        split; [done|]. split; [done|]. by rewrite <- app_assoc.
      * intros H. by exists [], (x :: af).
    + intros H. by exists [], (x :: af).
Qed.

Lemma run_identifier c cs k res :
  run identifier c cs k = Some res ->
  exists e, is_identifier (between c e) = true /\ k e cs = Some res.
Proof.
  unfold identifier. cbn [run]. destruct c as [bf [|x af]]; [done|].
  cbn [after before]. destruct (ident_start x) eqn:Hx; [|done].
  intros H. apply star_greedy_all in H as (mid & rest & -> & Hmid & Hk).
  eexists. split; [|exact Hk].
  unfold between, pos. cbn [before].
  rewrite length_app, length_rev. cbn [length].
  replace (length mid + S (length bf) - length bf) with (length (rev mid ++ [x]))
    by (rewrite length_app, length_rev; simpl; lia).
  replace (rev mid ++ x :: bf) with ((rev mid ++ [x]) ++ bf)
    by (by rewrite <- app_assoc).
  rewrite take_app_length, rev_app_distr, rev_involutive. simpl.
  by rewrite Hx, Hmid.
Qed.

Lemma alias_re_group3 kw c m :
  match_at (alias_re kw) c = Some m ->
  is_identifier (group_or_empty 3 m) = true.
Proof.
  unfold match_at.
  destruct (run (alias_re kw) c [] accept) as [[e cs]|] eqn:E; [|done].
  intros [= <-]. unfold alias_re, seqs in E.
  do 8 (apply run_seq_tail in E as (? & ? & E)).
  cbn [run] in E. apply run_identifier in E as (e' & Hid & [= <- <-]).
  unfold group_or_empty, group. cbn [m_caps cap_lookup Nat.eqb]. done.
Qed.

Lemma finditer_from_matches r skip bf af m :
  m ∈ finditer_from r skip bf af -> exists c, match_at r c = Some m.
Proof.
  revert skip bf. induction af as [|x af IH]; intros skip bf.
  - destruct skip as [|n]; simpl; [|by intros H%elem_of_nil].
    destruct (match_at r (Cursor bf [])) as [m'|] eqn:E;
      [|by intros H%elem_of_nil].
    intros [->|H]%elem_of_cons; [by eexists|by apply elem_of_nil in H].
  - destruct skip as [|n]; simpl; [|apply IH].
    destruct (match_at r (Cursor bf (x :: af))) as [m'|] eqn:E; [|apply IH].
    intros [->|H]%elem_of_cons; [by eexists|by apply IH in H].
Qed.

Lemma dict_set_keys {K V} `{EqDecision K} (k k' : K) (v v' : V) d :
  (k, v) ∈ dict_set k' v' d -> k = k' \/ (k, v) ∈ d.
Proof.
  induction d as [|[k0 v0] d IH]; simpl.
  - intros [[= -> _]|H]%elem_of_cons; [by left|by apply elem_of_nil in H].
  - destruct (decide (k' = k0)) as [->|Hne].
    + intros [[= -> _]|H]%elem_of_cons; [by left|]. right. by right.
    + intros [[= -> ->]|H]%elem_of_cons; [right; left|].
      destruct (IH H) as [?|?]; [by left|]. right. by right.
Qed.

Lemma add_alias_keys ms d alias r :
  (forall m, m ∈ ms -> is_identifier (group_or_empty 3 m) = true) ->
  (forall a r', (a, r') ∈ d -> is_identifier a = true) ->
  (alias, r) ∈ foldl add_alias d ms -> is_identifier alias = true.
Proof.
  revert d. induction ms as [|m ms IH]; intros d Hms Hd; simpl.
  - apply Hd.
  - apply IH.
    + intros m' Hm'. apply Hms. by right.
    + intros a r' Ha. unfold add_alias in Ha.
      apply dict_set_keys in Ha as [->|Ha]; [apply Hms; left|by eapply Hd].
Qed.

(** Every alias that the alias pass handles is an identifier. *)
Lemma collected_aliases_are_identifiers sql alias r :
  (alias, r) ∈ _collect_aliases sql -> is_identifier alias = true.
Proof.
  unfold _collect_aliases. apply add_alias_keys.
  - intros m Hm. apply finditer_from_matches in Hm as [c Hc].
    by apply alias_re_group3 in Hc.
  - intros a r'. apply add_alias_keys.
    + intros m Hm. apply finditer_from_matches in Hm as [c Hc].
      by apply alias_re_group3 in Hc.
    + intros a' r'' H. by apply elem_of_nil in H.
Qed.

End AliasesAreIdentifiers.

Section AliasHints.

Variable cache : gmap (str * str) TableInfo.

Lemma meta_entries refs l acc r m :
  (forall m', dict_get r acc.1 = Some m' -> entry_ok cache r m') ->
  dict_get r (foldl (meta_step cache refs) acc l).1 = Some m ->
  entry_ok cache r m.
Proof.
  revert acc. induction l as [|x l IH]; intros acc Hacc; simpl; [apply Hacc|].
  apply IH. intros m'. destruct x as [s t]. unfold meta_step.
  destruct (get_table cache s t) eqn:E; [|apply Hacc]. simpl.
  rewrite dict_get_set. destruct (decide (r = (s, t))) as [->|]; [|apply Hacc].
  by intros [= <-].
Qed.

Lemma or_else_same (x y : option str) : x = None \/ x = y -> or_else x y = y.
Proof. intros [->| ->]; [done|]. unfold or_else. by destruct (truthy_opt y). Qed.

(** The hints of the alias pass are the suggestions of the catalog. *)
Lemma alias_hints set_iter question sql sch tab :
  let tm := (_build_table_meta cache set_iter question sql).1 in
  or_else (meta_get tm (sch, tab) meta_id) (_id_for cache sch tab)
    = _id_for cache sch tab /\
  or_else (meta_get tm (sch, tab) meta_geom) (_geom_for cache sch tab)
    = _geom_for cache sch tab.
Proof.
  intros tm. unfold meta_get.
  destruct (dict_get _ _) as [m|] eqn:E.
  - unfold tm, _build_table_meta in E.
    apply meta_entries in E; [|by intros m' Hm'].
    destruct E as [Hid Hgeom]. simpl in Hid, Hgeom.
    split; apply or_else_same; by right.
  - split; apply or_else_same; by left.
Qed.

Theorem alias_substitution set_iter question sql st alias sch tab :
  is_identifier alias = true ->
  alias_step cache (_build_table_meta cache set_iter question sql).1 st
    (alias, (sch, tab))
  = match get_table cache sch tab with
    | Some ti =>
        column_pass true alias GEOM_GUESSES (py ".geom") (preferred_geom ti)
          (column_pass false alias [py "id"] (py ".id")
             (suggest_id_column ti) st)
    | None => st
    end.
Proof.
  intros Hid. rewrite alias_step_replaces_words by done.
  destruct (alias_hints set_iter question sql sch tab) as [-> ->].
  unfold _id_for, _geom_for. by destruct (get_table cache sch tab).
Qed.

End AliasHints.

Section AliasRewrite.

Variable cache : gmap (str * str) TableInfo.

Lemma foldl_ext_elem {A B} (f g : A -> B -> A) (l : list B) a :
  (forall st x, x ∈ l -> f st x = g st x) -> foldl f a l = foldl g a l.
Proof.
  revert a. induction l as [|x l IH]; intros a H; simpl; [done|].
  rewrite (H a x) by left. apply IH. intros st y Hy. apply H. by right.
Qed.

(** The alias pass of [fix_sql] is the alias pass of the specification. *)
Lemma alias_pass_rewrites set_iter question sql :
  foldl (alias_step cache (_build_table_meta cache set_iter question sql).1)
        (sql, []) (_collect_aliases sql)
  = foldl (alias_rewrite cache) (sql, []) (_collect_aliases sql).
Proof.
  apply foldl_ext_elem. intros st [alias [sch tab]] Hin.
  apply alias_substitution. by apply collected_aliases_are_identifiers in Hin.
Qed.

Lemma column_pass_fixes ci alias names label hint st fix_ :
  fix_ ∈ (column_pass ci alias names label hint st).2 ->
  fix_ ∈ st.2 \/
  exists h, hint = Some h /\
            fix_ = alias ++ label ++ py " -> " ++ alias ++ py "." ++ h.
Proof.
  unfold column_pass. destruct hint as [h|]; [|by left].
  destruct (truthy h && _); [|by left]. simpl.
  intros [H|H]%elem_of_app; [by left|]. right. exists h.
  apply list_elem_of_singleton in H. by subst.
Qed.

Lemma alias_rewrite_fixes l st fix_ :
  fix_ ∈ (foldl (alias_rewrite cache) st l).2 ->
  fix_ ∈ st.2 \/ alias_fix cache l fix_.
Proof.
  induction l as [|[alias [sch tab]] l IH] using rev_ind; [by left|].
  rewrite foldl_app. cbn [foldl]. unfold alias_rewrite at 1.
  assert (alias_fix cache l fix_ ->
          alias_fix cache (l ++ [(alias, (sch, tab))]) fix_) as Hmono.
  { intros (a & s & t & ti & h & Hin & Hrest). exists a, s, t, ti, h.
    split; [|done]. apply elem_of_app. by left. }
  destruct (get_table cache sch tab) as [ti|] eqn:E.
  - intros H. apply column_pass_fixes in H as [H|(h & Hh & ->)].
    + apply column_pass_fixes in H as [H|(h & Hh & ->)].
      * destruct (IH H) as [?|?]; [by left|right; by apply Hmono].
      * right. exists alias, sch, tab, ti, h. split; [|split; [done|by left]].
        apply elem_of_app. right. by left.
    + right. exists alias, sch, tab, ti, h. split; [|split; [done|by right]].
      apply elem_of_app. right. by left.
  - intros H. destruct (IH H) as [?|?]; [by left|right; by apply Hmono].
Qed.

End AliasRewrite.

(* ===================================================================== *)
(** ** Scenarios *)
(* ===================================================================== *)

Lemma fix_sql_one_table r0 ti set_iter sql question :
  set_order_ok set_iter ->
  fix_sql {[ r0 := ti ]} set_iter sql question =
  fix_sql {[ r0 := ti ]} id sql question.
Proof. intros Hok. unfold fix_sql. by rewrite build_meta_one_table. Qed.

Lemma fix_sql_empty_catalog set_iter sql question :
  fix_sql ∅ set_iter sql question = fix_sql ∅ id sql question.
Proof. unfold fix_sql. by rewrite !build_meta_empty. Qed.

(** Scenario A, whatever the order of iteration over the references. *)
Lemma scenario_a set_iter :
  set_order_ok set_iter ->
  fix_sql region_catalog set_iter
    (py "SELECT a.id, a.geom FROM datos_maestros.dpa_region_subdere a") []
  = (py "SELECT a.objectid, a.geometria FROM datos_maestros.dpa_region_subdere a",
     [py "a.id -> a.objectid"; py "a.geom -> a.geometria"]).
Proof.
  intros Hok. unfold region_catalog. rewrite fix_sql_one_table by done.
  by vm_compute.
Qed.

(** Claim C6, as stated, fails on Scenario D: the second application divides
    again and records a fix again. *)
Lemma hectares_applied_twice :
  let question := py "superficie en hectáreas" in
  let once := fix_sql ∅ id (py "SELECT ST_Area(a.geom) FROM s.t a") question in
  once = (py "SELECT ST_Area(a.geom)/10000.0 FROM s.t a",
          [py "ST_Area: convertido a hectáreas en EPSG:32719"]) /\
  fix_sql ∅ id once.1 question
  = (py "SELECT ST_Area(a.geom)/10000.0/10000.0 FROM s.t a",
     [py "ST_Area: convertido a hectáreas en EPSG:32719"]).
Proof. by vm_compute. Qed.

(** Claim C6, as amended.  The rewrite is not idempotent.  For a question
    that does not mention hectares, the second application, on the output
    of the first, either records a fix or returns that output as it is; it
    may record a fix although nothing changes any more, as on the output of
    Scenario A, whose geometry column bears one of the guessed names.  For
    a question that mentions hectares, an area call whose argument is not a
    column of a known table is divided without any fix. *)
Theorem second_application_records_or_keeps :
  (forall cache set_iter sql question,
     _mentions_hectares question = false ->
     let once := fix_sql cache set_iter sql question in
     let twice := fix_sql cache set_iter once.1 question in
     twice.2 = [] -> twice.1 = once.1) /\
  (forall set_iter,
     set_order_ok set_iter ->
     let once :=
       fix_sql region_catalog set_iter
         (py "SELECT a.id, a.geom FROM datos_maestros.dpa_region_subdere a")
         [] in
     fix_sql region_catalog set_iter once.1 []
     = (once.1, [py "a.geom -> a.geometria"])) /\
  (forall set_iter,
     fix_sql ∅ set_iter (py "SELECT ST_Area(geom) FROM s.t a")
       (py "superficie en hectáreas")
     = (py "SELECT (ST_Area(geom))/10000.0 FROM s.t a", [])).
Proof.
  split; [|split].
  - intros cache set_iter sql question Hh once twice.
    by apply quiet_application_keeps_text.
  - intros set_iter Hok. cbv zeta. rewrite (scenario_a set_iter Hok).
    cbn [fst]. unfold region_catalog. rewrite fix_sql_one_table by done.
    by vm_compute.
  - intros set_iter. rewrite fix_sql_empty_catalog. by vm_compute.
Qed.

Lemma second_application_records_or_keeps_witness :
  (fix_sql region_catalog id
     (fix_sql region_catalog id
        (py "SELECT a.id FROM datos_maestros.dpa_region_subdere a") []).1
     []).1
  = (fix_sql region_catalog id
       (py "SELECT a.id FROM datos_maestros.dpa_region_subdere a") []).1.
Proof.
  apply (proj1 second_application_records_or_keeps region_catalog id
           (py "SELECT a.id FROM datos_maestros.dpa_region_subdere a") []).
  - reflexivity.
  - by vm_compute.
Defined.

(** The first application of that witness rewrote the statement. *)
Lemma witness_application_rewrites :
  fix_sql region_catalog id
    (py "SELECT a.id FROM datos_maestros.dpa_region_subdere a") []
  = (py "SELECT a.objectid FROM datos_maestros.dpa_region_subdere a",
     [py "a.id -> a.objectid"]).
Proof. by vm_compute. Qed.

(** Claim C5, as amended.  The rewrite is the alias pass followed by the
    later passes, and the alias pass handles the aliases of the from and
    join clauses one after the other, on the current text: when the catalog
    knows the table of the alias, every occurrence of [alias.id] as a word
    of its own becomes [alias.<suggested id>], then every occurrence of
    [alias.geom], [alias.geometry] or [alias.geometria], in any letter case,
    becomes [alias.<suggested geometry>], with one fix for each kind that
    occurred; when the catalog does not know the table, the alias is passed
    over.  Every fix of the alias pass names an alias of a table that the
    catalog knows, with the suggestion of the catalog.  Scenario A holds. *)
Theorem alias_pass_substitution :
  (forall cache set_iter sql question,
     let metas := _build_table_meta cache set_iter question sql in
     let am := _collect_aliases sql in
     let r := passes_3_to_7 cache metas am question
                (foldl (alias_rewrite cache) (sql, []) am) in
     fix_sql cache set_iter sql question = area_pass question r.1 r.2) /\
  (forall cache sql fix_,
     fix_ ∈ (foldl (alias_rewrite cache) (sql, []) (_collect_aliases sql)).2 ->
     alias_fix cache (_collect_aliases sql) fix_) /\
  (forall cache set_iter question sql st alias sch tab,
     get_table cache sch tab = None ->
     alias_step cache (_build_table_meta cache set_iter question sql).1 st
       (alias, (sch, tab)) = st) /\
  (forall set_iter,
     set_order_ok set_iter ->
     fix_sql region_catalog set_iter
       (py "SELECT a.id, a.geom FROM datos_maestros.dpa_region_subdere a") []
     = (py "SELECT a.objectid, a.geometria FROM datos_maestros.dpa_region_subdere a",
        [py "a.id -> a.objectid"; py "a.geom -> a.geometria"])).
Proof.
  split; [|split; [|split]].
  - intros cache set_iter sql question metas am r.
    unfold fix_sql. rewrite apply_passes_split. cbv zeta.
    by rewrite alias_pass_rewrites.
  - intros cache sql fix_ H. apply alias_rewrite_fixes in H as [H|H]; [|done].
    by apply elem_of_nil in H.
  - intros cache set_iter question sql st alias sch tab Hc.
    unfold alias_step. cbv beta iota zeta.
    destruct (alias_hints cache set_iter question sql sch tab) as [-> ->].
    unfold _id_for, _geom_for. by rewrite Hc.
  - exact scenario_a.
Qed.

Lemma alias_pass_substitution_witness :
  fix_sql region_catalog id
    (py "SELECT a.id, a.geom FROM datos_maestros.dpa_region_subdere a") []
  = (py "SELECT a.objectid, a.geometria FROM datos_maestros.dpa_region_subdere a",
     [py "a.id -> a.objectid"; py "a.geom -> a.geometria"]).
Proof.
  apply (proj2 (proj2 (proj2 alias_pass_substitution)) id).
  intros l _. reflexivity.
Defined.

(** Claim C5, as stated, fails: the table [otro.censo] is in no catalog, yet
    the column [id] of its alias is renamed and a fix is recorded for it,
    because the alias bears the name of a table that the catalog knows and
    the pass over the bare table names takes it for that table. *)
Lemma table_named_alias_is_rewritten :
  _collect_aliases renamed_alias_sql
  = [(py "a", (py "datos_maestros", py "dpa_region_subdere"));
     (py "dpa_region_subdere", (py "otro", py "censo"))] /\
  get_table region_catalog (py "otro") (py "censo") = None /\
  fix_sql region_catalog id renamed_alias_sql []
  = (py "SELECT dpa_region_subdere.objectid FROM datos_maestros.dpa_region_subdere a JOIN otro.censo dpa_region_subdere ON a.objectid = dpa_region_subdere.region",
     [py "dpa_region_subdere.id -> dpa_region_subdere.objectid"]).
Proof. by vm_compute. Qed.

(* ===================================================================== *)
(** ** Further properties of the safety validator *)
(* ===================================================================== *)

Section ValidatorSoundness.

Variable parse : str -> parse_outcome.



End ValidatorSoundness.


(* ===================================================================== *)
(** ** Further properties of the cost gate *)
(* ===================================================================== *)

Section GateComposition.

Variable planner : str -> planner_answer.

Lemma summary_total_cost sql :
  explain_summary planner sql !! py "total_cost" =
  match planner (py "EXPLAIN (FORMAT JSON) " ++ sql) with
  | PlanList p => Some (plan_get p "Total Cost")
  | NotAList => Some PNone
  | PlannerError _ => None
  end.
Proof.
  unfold explain_summary.
  destruct (planner _) as [p| |msg].
  - rewrite lookup_insert_ne by by vm_compute.
    rewrite lookup_insert_ne by by vm_compute.
    by rewrite lookup_insert_eq.
  - rewrite lookup_insert_ne by by vm_compute.
    rewrite lookup_insert_ne by by vm_compute.
    by rewrite lookup_insert_eq.
  - apply lookup_singleton_ne. by vm_compute.
Qed.

Lemma summary_error sql :
  explain_summary planner sql !! py "error" =
  match planner (py "EXPLAIN (FORMAT JSON) " ++ sql) with
  | PlannerError msg => Some (PStr msg)
  | _ => None
  end.
Proof.
  unfold explain_summary.
  destruct (planner _) as [p| |msg].
  - repeat (rewrite lookup_insert_ne by by vm_compute). apply lookup_empty.
  - repeat (rewrite lookup_insert_ne by by vm_compute). apply lookup_empty.
  - apply lookup_singleton_eq.
Qed.

(** Property X2.  The two gates composed: the summary of a statement is
    blocked exactly when the planner answered a plan whose total cost is a
    number, whole or not, above 5000000, and the reason shows that cost as
    Python prints it. *)
Theorem summary_blocked_iff_planner_cost
    (float_repr : float -> str) sql reason :
  too_expensive float_repr (explain_summary planner sql) = Some (true, reason)
  <->
  exists plan total,
    planner (py "EXPLAIN (FORMAT JSON) " ++ sql) = PlanList plan /\
    plan !! py "Total Cost" = Some total /\
    above_ceiling total /\
    reason = py "total_cost=" ++ show float_repr total.
Proof.
  rewrite too_expensive_blocked, summary_total_cost.
  destruct (planner _) as [p| |msg]; split.
  - intros (total & H & Hgt & ->).
    exists p, total. split; [done|]. split; [|done].
    unfold plan_get in H.
    destruct (p !! py "Total Cost") as [v|]; simpl in H.
    + by injection H as ->.
    + injection H as <-. done.
  - intros (p' & total & [= <-] & Hp & Hgt & ->).
    exists total. split; [|done]. unfold plan_get. by rewrite Hp.
  - intros (total & [= <-] & H & _). done.
  - intros (p' & total & H & _); discriminate.
  - intros (total & H & _); discriminate.
  - intros (p' & total & H & _); discriminate.
Qed.

(** Property X3.  The summary holds the key "error" exactly when the planner
    failed, and the key "total_cost" exactly when it did not. *)
Theorem summary_error_iff_planner_failed sql :
  (is_Some (explain_summary planner sql !! py "error") <->
   exists msg, planner (py "EXPLAIN (FORMAT JSON) " ++ sql) = PlannerError msg) /\
  (is_Some (explain_summary planner sql !! py "total_cost") <->
   ~ exists msg, planner (py "EXPLAIN (FORMAT JSON) " ++ sql) = PlannerError msg).
Proof.
  rewrite summary_error, summary_total_cost.
  destruct (planner _) as [p| |msg]; (split; split).
  - intros [? ?]; discriminate.
  - intros [? ?]; discriminate.
  - intros _ [? ?]; discriminate.
  - by eexists.
  - intros [? ?]; discriminate.
  - intros [? ?]; discriminate.
  - intros _ [? ?]; discriminate.
  - by eexists.
  - by eexists.
  - by eexists.
  - intros [? ?]; discriminate.
  - intros H. exfalso. apply H. by eexists.
Qed.

End GateComposition.

(* ===================================================================== *)
(** ** Further properties of the executor *)
(* ===================================================================== *)

Section Limiter.

Lemma lower_from_limit b r :
  lower_from b (py " LIMIT " ++ r) = py " limit " ++ lower_from false r.
Proof. by destruct b. Qed.

(** Property X4.  The statement that is sent always holds "limit", and
    limiting it again changes nothing. *)
Theorem sql_limited_holds_limit sql n :
  contains (py "limit") (lower (sql_limited sql n)) = true /\
  forall m, sql_limited (sql_limited sql n) m = sql_limited sql n.
Proof.
  assert (H : contains (py "limit") (lower (sql_limited sql n)) = true).
  { unfold sql_limited.
    destruct (contains (py "limit") (lower sql)) eqn:Hc; [done|].
    unfold lower. rewrite lower_from_app, lower_from_limit.
    change (py " limit " ++ ?r) with (py " " ++ py "limit" ++ py " " ++ r).
    rewrite app_assoc. apply contains_app. }
  split; [done|]. intros m.
  unfold sql_limited at 1. by rewrite H.
Qed.

End Limiter.

(* ===================================================================== *)
(** ** The validator and the white space around a statement *)
(* ===================================================================== *)

Section Trimming.

Implicit Types (s a b : str) (p : ascii -> bool).

Lemma drop_while_all p a s :
  forallb p a = true -> drop_while p (a ++ s) = drop_while p s.
Proof.
  induction a as [|c a IH]; [done|]. simpl.
  intros [Hc Ha]%andb_true_iff. rewrite Hc. by apply IH.
Qed.

Lemma drop_while_keep p s t :
  drop_while p s <> [] -> drop_while p (s ++ t) = drop_while p s ++ t.
Proof.
  induction s as [|c s IH]; [done|]. simpl.
  destruct (p c); [apply IH|done].
Qed.

Lemma forallb_rev_space a : forallb is_space a = true -> forallb is_space (rev a) = true.
Proof.
  rewrite !forallb_forall. intros H c Hc. apply H. by apply in_rev.
Qed.

Lemma rstrip_all s b : forallb is_space b = true -> rstrip (s ++ b) = rstrip s.
Proof.
  intros Hb. unfold rstrip, drop_while_end.
  rewrite rev_app_distr, drop_while_all; [done|by apply forallb_rev_space].
Qed.

Lemma rstrip_lstrip_all a s :
  forallb is_space a = true -> lstrip (rstrip (a ++ s)) = lstrip (rstrip s).
Proof.
  intros Ha. unfold rstrip, drop_while_end. rewrite rev_app_distr.
  destruct (drop_while is_space (rev s)) as [|c r] eqn:E.
  - assert (drop_while is_space (rev s ++ rev a) = []) as ->; [|done].
    destruct (drop_while_split is_space (rev s)) as (x & Hx & Hall).
    rewrite E, app_nil_r in Hx. rewrite Hx, drop_while_all by done.
    destruct (drop_while_split is_space (rev a)) as (y & Hy & Hy').
    rewrite <- (app_nil_r (rev a)), drop_while_all; [done|].
    by apply forallb_rev_space.
  - rewrite drop_while_keep by by rewrite E.
    rewrite E, rev_app_distr, rev_involutive.
    unfold lstrip. by rewrite drop_while_all.
Qed.

Lemma strip_all a s b :
  forallb is_space a = true -> forallb is_space b = true ->
  strip (a ++ s ++ b) = strip s.
Proof.
  intros Ha Hb. unfold strip.
  rewrite app_assoc, rstrip_all by done. by apply rstrip_lstrip_all.
Qed.

Variable parse : str -> parse_outcome.

Lemma is_safe_sql_of_strip sql1 sql2 :
  strip sql1 = strip sql2 -> is_safe_sql parse sql1 = is_safe_sql parse sql2.
Proof. intros H. unfold is_safe_sql. by rewrite H. Qed.

(** Property X23.  White space before and after a statement changes neither
    the verdict nor the reason of the validator. *)
Theorem is_safe_sql_ignores_outer_space a sql b :
  forallb is_space a = true -> forallb is_space b = true ->
  is_safe_sql parse (a ++ sql ++ b) = is_safe_sql parse sql.
Proof. intros Ha Hb. by apply is_safe_sql_of_strip, strip_all. Qed.

Lemma contains_char c w s :
  In c w -> contains w s = true -> In c s.
Proof.
  intros Hw H. apply contains_split in H as (l & r & ->).
  apply in_or_app. right. apply in_or_app. by left.
Qed.

Lemma find_from_absent w s i c :
  In c w -> ~ In c s -> find_from w s i = (-1)%Z.
Proof.
  intros Hw. revert i. induction s as [|y s IH]; intros i Hs.
  - simpl. destruct (startswith w []) eqn:E; [|done].
    exfalso. apply Hs. apply (contains_char c w); [done|].
    by apply contains_startswith.
  - cbn [find_from]. destruct (startswith w (y :: s)) eqn:E.
    + exfalso. apply Hs. apply (contains_char c w); [done|].
      by apply contains_startswith.
    + apply IH. intros H. apply Hs. by right.
Qed.

Lemma space_not_letter ws c :
  forallb is_space ws = true -> is_space c = false -> ~ In c ws.
Proof.
  rewrite forallb_forall. intros H Hc Hin. by rewrite (H c Hin) in Hc.
Qed.

Lemma lower_from_spaces bl ws :
  forallb is_space ws = true -> lower_from bl ws = ws.
Proof.
  intros H. apply lower_from_filler.
  rewrite forallb_forall in *. intros c Hc.
  unfold is_filler. by rewrite (H c Hc).
Qed.

Lemma drop_while_stays p (x : str) :
  (forall c, last x = Some c -> p c = false) -> x <> [] ->
  drop_while p (rev x) = rev x.
Proof.
  intros H Hne. destruct x as [|c x] using rev_ind; [done|].
  rewrite rev_app_distr. simpl. rewrite H; [done|]. by rewrite last_snoc.
Qed.

Lemma last_forallb (q : ascii -> bool) (x : str) c :
  forallb q x = true -> last x = Some c -> q c = true.
Proof.
  intros H Hl. rewrite forallb_forall in H. apply H.
  apply list_elem_of_In. by apply last_Some_elem_of.
Qed.

Lemma explain_trimmed ws semis :
  forallb is_space ws = true ->
  forallb (fun c => Ascii.eqb c ";") semis = true ->
  semis <> [] ->
  strip (py "EXPLAIN " ++ ws ++ semis) = py "EXPLAIN " ++ ws ++ semis /\
  trimmed (py "EXPLAIN " ++ ws ++ semis) = py "EXPLAIN " ++ ws.
Proof.
  intros Hws Hsemis Hne.
  assert (Hstrip : strip (py "EXPLAIN " ++ ws ++ semis)
                   = py "EXPLAIN " ++ ws ++ semis).
  { unfold strip, rstrip, drop_while_end.
    rewrite drop_while_stays, rev_involutive; [done| |done].
    intros c Hc. rewrite !app_assoc in Hc. rewrite last_app in Hc.
    destruct (last semis) as [d|] eqn:Hd.
    - injection Hc as <-.
      apply (last_forallb _ _ _ Hsemis) in Hd.
      apply Ascii.eqb_eq in Hd as ->. done.
    - by apply last_None in Hd. }
  split; [done|]. unfold trimmed. rewrite Hstrip.
  unfold rstrip_chars, drop_while_end.
  rewrite !app_assoc, rev_app_distr, drop_while_all.
  2:{ rewrite forallb_forall in *. intros c Hc%in_rev.
      specialize (Hsemis c Hc). apply Ascii.eqb_eq in Hsemis as ->. done. }
  change (py "EXPLAIN " ++ ws) with (py "EXPLAIN" ++ (py " " ++ ws)).
  rewrite rev_app_distr, drop_while_keep.
  - rewrite drop_while_stays; [by rewrite <- rev_app_distr, rev_involutive| |done].
    intros c Hc. apply (last_forallb is_space) in Hc.
    + unfold mem_char. simpl. rewrite orb_false_r.
      destruct (Ascii.eqb_spec c ";") as [->|]; [discriminate|done].
    + simpl. done.
  - rewrite drop_while_stays; [|intros c Hc|done].
    + intros H. apply (f_equal (@rev ascii)) in H.
      rewrite rev_involutive in H. discriminate.
    + apply (last_forallb is_space) in Hc; [|done].
      unfold mem_char. simpl. rewrite orb_false_r.
      destruct (Ascii.eqb_spec c ";") as [->|]; [discriminate|done].
Qed.

Lemma explain_lower ws :
  forallb is_space ws = true ->
  lower (py "EXPLAIN " ++ ws) = py "explain " ++ ws.
Proof.
  intros Hws. unfold lower. rewrite lower_from_app.
  by rewrite (lower_from_spaces _ ws Hws).
Qed.

Lemma explain_nothing_inside ws :
  forallb is_space ws = true ->
  explain_inner (py "EXPLAIN " ++ ws) (py "explain " ++ ws) = None.
Proof.
  intros Hws. unfold explain_inner, find.
  rewrite (find_from_absent (py " select ") _ 0 "s"%char).
  2:{ right. by left. }
  2:{ intros [H|H]%in_app_or.
      - simpl in H. repeat (destruct H as [H|H]; [discriminate|]). done.
      - by apply (space_not_letter ws "s"%char Hws). }
  rewrite (find_from_absent (py " with ") _ 0 "w"%char).
  2:{ right. by left. }
  2:{ intros [H|H]%in_app_or.
      - simpl in H. repeat (destruct H as [H|H]; [discriminate|]). done.
      - by apply (space_not_letter ws "w"%char Hws). }
  change (Z.max (-1) (-1) =? -1)%Z with true. cbv iota.
  unfold split_ws_second.
  change (drop_while (fun c => negb (is_space c)) (lstrip (py "EXPLAIN " ++ ws)))
    with (py " " ++ ws).
  unfold lstrip. rewrite <- (app_nil_r (py " " ++ ws)), drop_while_all; [done|].
  simpl. done.
Qed.

(** Property X24.  An [EXPLAIN] that is followed by white space only, up to
    the semicolons that end the input, is rejected with the message of the
    [IndexError] of the fall-back, and the parser is not consulted. *)
Theorem explain_without_statement_rejected ws semis :
  forallb is_space ws = true ->
  forallb (fun c => Ascii.eqb c ";") semis = true ->
  semis <> [] ->
  parser_input (py "EXPLAIN " ++ ws ++ semis) = None /\
  is_safe_sql parse (py "EXPLAIN " ++ ws ++ semis)
  = (false, py "Parse error (EXPLAIN): list index out of range").
Proof.
  intros Hws Hsemis Hne.
  destruct (explain_trimmed ws semis Hws Hsemis Hne) as [Hstrip Htrim].
  assert (Hin : parser_input (py "EXPLAIN " ++ ws ++ semis) = None).
  { unfold parser_input. rewrite Hstrip at 1.
    change (py "EXPLAIN " ++ ws ++ semis)
      with ("E"%char :: (py "XPLAIN " ++ ws ++ semis)) at 1. cbv iota.
    rewrite Htrim, (explain_lower ws Hws).
    change (lstrip (py "explain " ++ ws)) with (py "explain " ++ ws).
    rewrite startswith_app. by apply explain_nothing_inside. }
  split; [done|].
  rewrite is_safe_sql_nonblank, Hin; [done|].
  rewrite Hstrip. discriminate.
Qed.

End Trimming.

Lemma is_safe_sql_ignores_outer_space_witness :
  is_safe_sql (fun _ => Parsed Select) (py "  " ++ py "SELECT 1" ++ nl)
  = is_safe_sql (fun _ => Parsed Select) (py "SELECT 1").
Proof.
  apply (is_safe_sql_ignores_outer_space (fun _ => Parsed Select)
           (py "  ") (py "SELECT 1") nl); reflexivity.
Defined.

Lemma explain_without_statement_rejected_witness :
  parser_input (py "EXPLAIN " ++ py " " ++ py ";") = None /\
  is_safe_sql (fun _ => Parsed Select) (py "EXPLAIN " ++ py " " ++ py ";")
  = (false, py "Parse error (EXPLAIN): list index out of range").
Proof.
  apply (explain_without_statement_rejected (fun _ => Parsed Select)
           (py " ") (py ";")).
  - reflexivity.
  - reflexivity.
  - discriminate.
Defined.

(* ===================================================================== *)
(** ** Further properties of the catalog *)
(* ===================================================================== *)

Section SortedFacts.

Context {A : Type} (key : A -> nat).

Lemma sorted_by_snoc l x :
  sorted_by key (l ++ [x]) = insert_by key x (sorted_by key l).
Proof. unfold sorted_by. by rewrite foldl_app. Qed.

Lemma insert_by_length x l : length (insert_by key x l) = S (length l).
Proof.
  induction l as [|y l IH]; simpl; [done|].
  destruct (key y <=? key x)%nat; simpl; by rewrite ?IH.
Qed.

Lemma sorted_by_length l : length (sorted_by key l) = length l.
Proof.
  induction l as [|x l IH] using rev_ind; [done|].
  rewrite sorted_by_snoc, insert_by_length, length_app, IH. simpl. lia.
Qed.

(** The head of a stable sort: the first of the elements of least key. *)
Lemma sorted_by_head l best rest :
  sorted_by key l = best :: rest ->
  exists pre post,
    l = pre ++ best :: post /\
    (forall x, x ∈ pre -> key best < key x) /\
    (forall x, x ∈ post -> key best <= key x).
Proof.
  revert best rest. induction l as [|x l IH] using rev_ind; intros best rest.
  - discriminate.
  - rewrite sorted_by_snoc.
    destruct (sorted_by key l) as [|y ys] eqn:E.
    + assert (l = []) as ->.
      { apply nil_length_inv. by rewrite <- (sorted_by_length l), E. }
      simpl. intros [= <- <-]. exists [], []. split; [done|].
      split; intros z Hz; by apply elem_of_nil in Hz.
    + destruct (IH y ys eq_refl) as (pre & post & -> & Hpre & Hpost).
      simpl. destruct (key y <=? key x)%nat eqn:Hle.
      * intros [= <- <-]. apply Nat.leb_le in Hle.
        exists pre, (post ++ [x]). split; [by rewrite <- app_assoc|].
        split; [done|].
        intros z [Hz|Hz]%elem_of_app; [by apply Hpost|].
        apply list_elem_of_singleton in Hz as ->. done.
      * intros [= <- <-]. apply Nat.leb_gt in Hle.
        exists (pre ++ y :: post), []. split; [done|].
        split; [|intros z Hz; by apply elem_of_nil in Hz].
        intros z [Hz|Hz]%elem_of_app.
        -- specialize (Hpre z Hz). lia.
        -- apply elem_of_cons in Hz as [->|Hz]; [done|].
           specialize (Hpost z Hz). lia.
Qed.

End SortedFacts.

Lemma head_filter_Some {A} (P : A -> bool) l c :
  head (filter (fun x => P x) l) = Some c <->
  exists pre post, l = pre ++ c :: post /\ P c = true /\
                   forall x, x ∈ pre -> P x = false.
Proof.
  split.
  - induction l as [|x l IH]; [discriminate|].
    rewrite filter_cons. destruct (decide (P x)) as [Hx|Hx].
    + simpl. intros [= <-]. exists [], l. split; [done|].
      split; [by apply Is_true_true|].
      intros z Hz; by apply elem_of_nil in Hz.
    + intros H. destruct (IH H) as (pre & post & -> & Hc & Hpre).
      exists (x :: pre), post. split; [done|]. split; [done|].
      intros z [->|Hz]%elem_of_cons; [|by apply Hpre].
      by apply Is_true_false.
  - intros (pre & post & -> & Hc & Hpre).
    induction pre as [|x pre IH]; simpl.
    + rewrite filter_cons. rewrite decide_True by by apply Is_true_true. done.
    + rewrite filter_cons.
      rewrite decide_False.
      2:{ apply Is_true_false, Hpre. left. }
      apply IH. intros z Hz. apply Hpre. by right.
Qed.

Lemma head_filter_None {A} (P : A -> bool) l :
  head (filter (fun x => P x) l) = None <-> forall x, x ∈ l -> P x = false.
Proof.
  induction l as [|x l IH].
  - split; [|done]. intros _ z Hz; by apply elem_of_nil in Hz.
  - rewrite filter_cons. destruct (decide (P x)) as [Hx|Hx]; simpl.
    + split; [discriminate|]. intros H.
      apply Is_true_true in Hx. rewrite (H x) in Hx; [discriminate|left].
    + rewrite IH. split.
      * intros H z [->|Hz]%elem_of_cons; [by apply Is_true_false|by apply H].
      * intros H z Hz. apply H. by right.
Qed.

Section CatalogFacts.

(** Property X6.  Among the rows of [geometry_columns] of a table, the
    loader keeps the first of those of best rank in the order geometria,
    geometry, geom, the_geom, any other name. *)
Theorem load_geometry_takes_best_rank rows :
  geometry_rows rows <> [] ->
  exists pre best post,
    geometry_rows rows = pre ++ best :: post /\
    _load_geometry rows
      = Some (Some (mkGeometryInfo best.1.1 best.1.2 best.2)) /\
    (forall x, x ∈ pre -> geom_key best.1.1 < geom_key x.1.1) /\
    (forall x, x ∈ post -> geom_key best.1.1 <= geom_key x.1.1).
Proof.
  intros Hne. unfold _load_geometry.
  destruct (sorted_by (fun r => geom_key r.1.1) (geometry_rows rows))
    as [|best rest] eqn:E.
  - exfalso. apply Hne, nil_length_inv.
    by rewrite <- (sorted_by_length (fun r => geom_key r.1.1)), E.
  - destruct (sorted_by_head _ _ _ _ E) as (pre & post & Hl & Hpre & Hpost).
    by exists pre, best, post.
Qed.

End CatalogFacts.

Lemma load_geometry_takes_best_rank_witness :
  exists pre best post,
    [(py "centro", Some 4326%Z, Some (py "POINT"));
     (py "geom", Some 4326%Z, Some (py "POLYGON"));
     (py "geometria", Some 32719%Z, Some (py "POLYGON"))]
      = pre ++ best :: post /\
    _load_geometry
      (mkTableRows [] []
         [(py "centro", Some 4326%Z, Some (py "POINT"));
          (py "geom", Some 4326%Z, Some (py "POLYGON"));
          (py "geometria", Some 32719%Z, Some (py "POLYGON"))] [] [])
      = Some (Some (mkGeometryInfo best.1.1 best.1.2 best.2)) /\
    (forall x, x ∈ pre -> geom_key best.1.1 < geom_key x.1.1) /\
    (forall x, x ∈ post -> geom_key best.1.1 <= geom_key x.1.1).
Proof.
  apply (load_geometry_takes_best_rank
           (mkTableRows [] []
              [(py "centro", Some 4326%Z, Some (py "POINT"));
               (py "geom", Some 4326%Z, Some (py "POLYGON"));
               (py "geometria", Some 32719%Z, Some (py "POLYGON"))] [] [])).
  simpl. discriminate.
Defined.

Section CatalogFacts2.

Variable set_iter : list str -> list str.

Lemma load_tables_fails tables rows_of c0 s t :
  (s, t) ∈ tables ->
  load_table set_iter s t (rows_of s t) = None ->
  load_tables set_iter tables rows_of c0 = None.
Proof.
  intros Hin Hfail. revert c0.
  induction tables as [|[s' t'] rest IH]; intros c0.
  - by apply elem_of_nil in Hin.
  - simpl. apply elem_of_cons in Hin as [[= <- <-]|Hin].
    + by rewrite Hfail.
    + destruct (load_table set_iter s' t' (rows_of s' t')); [|done].
      by apply IH.
Qed.

(** Property X7.  A table that is not registered in [geometry_columns] and
    has a column whose name is one of the preferred geometry names written
    with an upper-case letter makes [_load_geometry] raise, and with it the
    whole load of the catalog. *)
Theorem load_fails_on_upper_case_geometry_name tables rows_of s t c :
  (s, t) ∈ tables ->
  geometry_rows (rows_of s t) = [] ->
  c ∈ column_rows (rows_of s t) ->
  lower c.1.1 ∈ PREFERRED_GEOM_ORDER ->
  c.1.1 ∉ PREFERRED_GEOM_ORDER ->
  _load_geometry (rows_of s t) = None /\
  load_schema_cache set_iter tables rows_of = None.
Proof.
  intros Hin Hg Hc Hlow Hexact.
  assert (Hfail : _load_geometry (rows_of s t) = None).
  { unfold _load_geometry. rewrite Hg. simpl.
    set (cands := filter _ _).
    assert (Hcand : c.1.1 ∈ cands).
    { apply list_elem_of_filter. split.
      - unfold str_in. by apply bool_decide_pack.
      - unfold _load_columns. rewrite <- list_fmap_compose.
        apply list_elem_of_fmap. by exists c. }
    destruct cands as [|n ns] eqn:E; [by apply elem_of_nil in Hcand|].
    destruct (forallb _ (n :: ns)) eqn:Hall; [|done].
    exfalso. rewrite forallb_forall in Hall.
    specialize (Hall c.1.1). apply list_elem_of_In in Hcand.
    specialize (Hall Hcand). unfold str_in in Hall.
    by apply bool_decide_eq_true in Hall. }
  split; [done|].
  unfold load_schema_cache. apply (load_tables_fails _ _ _ s t); [done|].
  unfold load_table. by rewrite Hfail.
Qed.

Lemma load_tables_lookup tables rows_of c0 cache s t :
  load_tables set_iter tables rows_of c0 = Some cache ->
  cache !! (s, t) =
    if bool_decide ((s, t) ∈ tables)
    then load_table set_iter s t (rows_of s t) else c0 !! (s, t).
Proof.
  revert c0. induction tables as [|[s' t'] rest IH]; intros c0;
    cbn [load_tables].
  - intros [= <-]. by rewrite bool_decide_false by apply not_elem_of_nil.
  - destruct (load_table set_iter s' t' (rows_of s' t')) as [ti|] eqn:E;
      [|discriminate].
    intros H. rewrite (IH _ H).
    destruct (decide ((s, t) = (s', t'))) as [[= -> ->]|Hne].
    + rewrite (bool_decide_true (_ ∈ _ :: _)) by left.
      destruct (bool_decide _); [done|]. by rewrite lookup_insert_eq.
    + rewrite lookup_insert_ne by done.
      destruct (decide ((s, t) ∈ rest)) as [Hr|Hr].
      * rewrite !bool_decide_true; [done| by right | done].
      * rewrite !bool_decide_false; [done| |done].
        intros [?|?]%elem_of_cons; done.
Qed.

(** Property X8.  After a load that succeeds, the catalog answers exactly
    for the tables that the database listed, each with what was loaded for
    it; nothing of an earlier load remains. *)
Theorem loaded_catalog_lookup tables rows_of cache s t :
  load_schema_cache set_iter tables rows_of = Some cache ->
  get_table cache s t =
    if bool_decide ((s, t) ∈ tables)
    then load_table set_iter s t (rows_of s t) else None.
Proof.
  intros H. unfold get_table, load_schema_cache in *.
  rewrite (load_tables_lookup _ _ _ _ s t H).
  by rewrite lookup_empty.
Qed.

(** Property X9.  What is stored for a table: its names, the columns in the
    order of the database, flagged as key exactly when they belong to the
    primary key, and the key columns in the order of iteration of their set. *)
Theorem loaded_table_shape s t rows ti :
  load_table set_iter s t rows = Some ti ->
  schema ti = s /\ table ti = t /\
  pk_cols ti = set_iter (pk_rows rows) /\
  map name (columns ti) = map (fun r => r.1.1) (column_rows rows) /\
  forall c, c ∈ columns ti -> (is_pk c = true <-> name c ∈ pk_rows rows).
Proof.
  unfold load_table. destruct (_load_geometry rows) as [g|]; [|discriminate].
  intros [= <-]. simpl. split; [done|]. split; [done|]. split; [done|]. split.
  - unfold _load_columns.
    induction (column_rows rows) as [|r l IH]; [done|].
    cbn [map]. rewrite IH. f_equal. by destruct (str_in _ _).
  - intros c Hc. apply list_elem_of_fmap in Hc as (c0 & -> & Hc0).
    apply list_elem_of_fmap in Hc0 as (r & -> & _).
    unfold str_in. cbn [name]. case_bool_decide; cbn [name is_pk]; split; done.
Qed.

End CatalogFacts2.
Lemma load_fails_on_upper_case_geometry_name_witness :
  _load_geometry
    (mkTableRows [(py "id", py "integer", py "NO");
                  (py "GEOM", py "USER-DEFINED", py "YES")] [] [] [] [])
  = None /\
  load_schema_cache id [(py "public", py "puntos")]
    (fun _ _ =>
       mkTableRows [(py "id", py "integer", py "NO");
                    (py "GEOM", py "USER-DEFINED", py "YES")] [] [] [] [])
  = None.
Proof.
  apply (load_fails_on_upper_case_geometry_name id
           [(py "public", py "puntos")]
           (fun _ _ =>
              mkTableRows [(py "id", py "integer", py "NO");
                           (py "GEOM", py "USER-DEFINED", py "YES")] [] [] [] [])
           (py "public") (py "puntos")
           (py "GEOM", py "USER-DEFINED", py "YES")).
  - left.
  - reflexivity.
  - right. left.
  - vm_compute. right. right. left.
  - vm_compute. intros H.
    repeat (apply elem_of_cons in H as [H|H]; [discriminate|]).
    by apply elem_of_nil in H.
Defined.

Lemma loaded_catalog_lookup_witness :
  get_table
    (<[(py "dm", py "comunas") :=
        mkTableInfo (py "dm") (py "comunas")
          [mkColumnInfo (py "region_id") (py "integer") false true;
           mkColumnInfo (py "comuna_id") (py "integer") false true;
           mkColumnInfo (py "nombre") (py "text") true false]
          [py "region_id"; py "comuna_id"] None [] []]> ∅)
    (py "dm") (py "regiones")
  = if bool_decide ((py "dm", py "regiones") ∈ [(py "dm", py "comunas")])
    then load_table id (py "dm") (py "regiones") comunas_rows else None.
Proof.
  apply (loaded_catalog_lookup id [(py "dm", py "comunas")]
           (fun _ _ => comunas_rows)).
  reflexivity.
Defined.

Lemma loaded_table_shape_witness :
  let ti :=
    mkTableInfo (py "dm") (py "comunas")
      [mkColumnInfo (py "region_id") (py "integer") false true;
       mkColumnInfo (py "comuna_id") (py "integer") false true;
       mkColumnInfo (py "nombre") (py "text") true false]
      [py "region_id"; py "comuna_id"] None [] [] in
  schema ti = py "dm" /\ table ti = py "comunas" /\
  pk_cols ti = id (pk_rows comunas_rows) /\
  map name (columns ti) = map (fun r => r.1.1) (column_rows comunas_rows) /\
  forall c, c ∈ columns ti -> (is_pk c = true <-> name c ∈ pk_rows comunas_rows).
Proof.
  apply (loaded_table_shape id (py "dm") (py "comunas") comunas_rows).
  reflexivity.
Defined.

Section Suggestions.

Implicit Types (ti : TableInfo).

(** Property X10.  The geometry column that is suggested: the registered one
    when there is one; otherwise the first name of the preferred order that
    is, letter for letter, the name of a column; none when no column bears
    such a name. *)
Theorem best_geom_column_cases ti :
  match geom ti with
  | Some g => best_geom_column ti = Some (column g)
  | None =>
      match best_geom_column ti with
      | Some c =>
          c ∈ map name (columns ti) /\
          exists pre post,
            PREFERRED_GEOM_ORDER = pre ++ c :: post /\
            forall p, p ∈ pre -> p ∉ map name (columns ti)
      | None =>
          forall p, p ∈ PREFERRED_GEOM_ORDER -> p ∉ map name (columns ti)
      end
  end.
Proof.
  unfold best_geom_column. destruct (geom ti) as [g|]; [done|].
  destruct (head _) as [c|] eqn:E.
  - apply (head_filter_Some (fun pref => str_in pref (map name (columns ti))))
      in E as (pre & post & Hl & Hc & Hpre).
    split; [by apply bool_decide_eq_true in Hc|].
    exists pre, post. split; [done|].
    intros p Hp. specialize (Hpre p Hp). by apply bool_decide_eq_false in Hpre.
  - intros p Hp.
    apply (head_filter_None (fun pref => str_in pref (map name (columns ti))))
      with (x := p) in E; [|done].
    by apply bool_decide_eq_false in E.
Qed.

Lemma first_named_Some names cols n :
  first_named names cols = Some n ->
  exists c, c ∈ cols /\ n = name c /\ lower (name c) ∈ names.
Proof.
  induction names as [|k names IH]; simpl; [discriminate|].
  destruct (filter _ cols) as [|c cs] eqn:E.
  - intros H. destruct (IH H) as (c & Hc & -> & Hl).
    exists c. split; [done|]. split; [done|]. by right.
  - intros [= <-].
    assert (Hin : c ∈ filter (fun c => bool_decide (lower (name c) = k)) cols).
    { rewrite E. left. }
    apply list_elem_of_filter in Hin as [Hk Hin].
    apply bool_decide_unpack in Hk.
    exists c. split; [done|]. split; [done|]. rewrite Hk. left.
Qed.

Lemma first_named_None names cols :
  first_named names cols = None <->
  forall c, c ∈ cols -> lower (name c) ∉ names.
Proof.
  induction names as [|k names IH]; simpl.
  - split; [|done]. intros _ c _ H. by apply elem_of_nil in H.
  - destruct (filter _ cols) as [|c cs] eqn:E.
    + rewrite IH. split.
      * intros H c Hc [<-|Hn]%elem_of_cons; [|by apply (H c)].
        assert (c ∈ filter (fun c0 => bool_decide (lower (name c0) = lower (name c))) cols).
        { apply list_elem_of_filter. split; [by apply bool_decide_pack|done]. }
        rewrite E in H0. by apply elem_of_nil in H0.
      * intros H c Hc Hn. apply (H c Hc). by right.
    + split; [discriminate|]. intros H. exfalso.
      assert (Hin : c ∈ filter (fun c => bool_decide (lower (name c) = k)) cols).
      { rewrite E. left. }
      apply list_elem_of_filter in Hin as [Hk Hin].
      apply bool_decide_unpack in Hk.
      apply (H c Hin). rewrite Hk. left.
Qed.

(** Property X11.  The identifier column that is suggested is a key column
    or a column of the table; none is suggested exactly when the table has
    no key column, no column named like an identifier and no integer column
    that is not nullable. *)
Theorem suggest_id_column_cases ti :
  (forall c, suggest_id_column ti = Some c ->
     c ∈ pk_cols ti \/ c ∈ map name (columns ti)) /\
  (suggest_id_column ti = None <->
   pk_cols ti = [] /\
   forall c, c ∈ columns ti ->
     (lower (name c) ∉ ID_NAMES) /\
     (contains (py "int") (data_type c) && negb (is_nullable c)) = false).
Proof.
  unfold suggest_id_column.
  destruct (pk_cols ti) as [|k ks] eqn:Hpk.
  - destruct (first_named ID_NAMES (columns ti)) as [n|] eqn:Hn.
    + split.
      * intros c [= <-]. right.
        apply first_named_Some in Hn as (c & Hc & -> & _).
        apply list_elem_of_fmap. by exists c.
      * split; [discriminate|]. intros [_ H]. exfalso.
        apply first_named_Some in Hn as (c & Hc & -> & Hl).
        by destruct (H c Hc).
    + pose proof (proj1 (first_named_None _ _) Hn) as Hnone.
      set (P := fun c => contains (py "int") (data_type c)
                         && negb (is_nullable c)).
      destruct (filter _ (columns ti)) as [|c cs] eqn:E.
      * split; [discriminate|]. split; [|done]. intros _. split; [done|].
        intros c Hc. split; [by apply Hnone|].
        destruct (P c) eqn:HP; [|done]. exfalso.
        assert (c ∈ filter (fun c => P c) (columns ti)).
        { apply list_elem_of_filter. split; [by apply Is_true_true|done]. }
        unfold P in H. rewrite E in H. by apply elem_of_nil in H.
      * assert (Hin : c ∈ filter (fun c => P c) (columns ti)).
        { unfold P. rewrite E. left. }
        apply list_elem_of_filter in Hin as [HP Hin].
        split.
        -- intros c' [= <-]. right. apply list_elem_of_fmap. by exists c.
        -- split; [discriminate|]. intros [_ H]. exfalso.
           destruct (H c Hin) as [_ HP']. unfold P in HP.
           rewrite HP' in HP. done.
  - split.
    + intros c [= <-]. left. left.
    + split; [discriminate|]. intros [? _]. discriminate.
Qed.

(** Property X12.  Without a key, a column called objectid in any letter
    case is suggested under its own spelling, wherever it stands in the
    table and whatever the other columns are. *)
Theorem suggest_id_prefers_objectid ti pre c post :
  pk_cols ti = [] ->
  columns ti = pre ++ c :: post ->
  lower (name c) = py "objectid" ->
  (forall x, x ∈ pre -> lower (name x) <> py "objectid") ->
  suggest_id_column ti = Some (name c).
Proof.
  intros Hpk Hcols Hc Hpre. unfold suggest_id_column. rewrite Hpk, Hcols.
  unfold ID_NAMES. cbn [map first_named].
  assert (E : filter (fun c0 => bool_decide (lower (name c0) = py "objectid"))
                (pre ++ c :: post)
              = c :: filter (fun c0 => bool_decide (lower (name c0) = py "objectid")) post).
  { rewrite filter_app, filter_cons.
    rewrite decide_True by by apply bool_decide_pack.
    replace (filter _ pre) with (@nil ColumnInfo); [done|].
    symmetry. clear Hcols. induction pre as [|x pre IH]; [done|].
    rewrite filter_cons, decide_False.
    - apply IH. intros y Hy. apply Hpre. by right.
    - intros H. apply bool_decide_unpack in H. apply (Hpre x); [left|done]. }
  by rewrite E.
Qed.

End Suggestions.

Lemma suggest_id_prefers_objectid_witness :
  suggest_id_column
    (mkTableInfo (py "dm") (py "predios")
       [mkColumnInfo (py "id") (py "integer") false false;
        mkColumnInfo (py "OBJECTID") (py "numeric") true false]
       [] None [] [])
  = Some (py "OBJECTID").
Proof.
  apply (suggest_id_prefers_objectid
           (mkTableInfo (py "dm") (py "predios")
              [mkColumnInfo (py "id") (py "integer") false false;
               mkColumnInfo (py "OBJECTID") (py "numeric") true false]
              [] None [] [])
           [mkColumnInfo (py "id") (py "integer") false false]
           (mkColumnInfo (py "OBJECTID") (py "numeric") true false) []).
  - reflexivity.
  - reflexivity.
  - reflexivity.
  - intros x Hx. apply list_elem_of_singleton in Hx as ->. discriminate.
Defined.

(* ===================================================================== *)
(** ** Further properties of the table references *)
(* ===================================================================== *)

Section References.

Lemma uniq_elem seen l x :
  x ∈ uniq seen l <-> x ∈ l /\ x ∉ seen.
Proof.
  revert seen. induction l as [|y l IH]; intros seen; simpl.
  - split; [intros H; by apply elem_of_nil in H|].
    intros [H _]; by apply elem_of_nil in H.
  - case_bool_decide as Hy.
    + rewrite IH. split.
      * intros [H1 H2]. split; [by right|done].
      * intros [[->|H1]%elem_of_cons H2]; [done|by split].
    + split.
      * intros [->|H]%elem_of_cons; [split; [by left|done]|].
        apply IH in H as [H1 H2]. split; [by right|].
        intros H3. apply H2. by right.
      * intros [[->|H1]%elem_of_cons H2]; [by left|].
        destruct (decide (x = y)) as [->|Hne]; [by left|].
        right. apply IH. split; [done|].
        by intros [?|?]%elem_of_cons.
Qed.

(** Property X13.  [find_table_refs] answers every pair that one of its two
    patterns finds, each once. *)
Theorem find_table_refs_each_once text :
  NoDup (find_table_refs text) /\
  forall r, r ∈ find_table_refs text <->
            r ∈ findall2 DOT_REF_RE text \/ r ∈ findall2 PHRASE_REF_RE text.
Proof.
  unfold find_table_refs. destruct text as [|c text].
  - split; [constructor|]. intros r. split.
    + intros H; by apply elem_of_nil in H.
    + intros [H|H]; vm_compute in H; by apply elem_of_nil in H.
  - split; [apply uniq_spec|]. intros r.
    rewrite uniq_elem, elem_of_app. split; [by intros [H _]|].
    intros H. split; [done|]. apply not_elem_of_nil.
Qed.

End References.

(* ===================================================================== *)
(** ** Further properties of the rewrite *)
(* ===================================================================== *)

Section Aliases.

Lemma dict_set_fst {K V} `{EqDecision K} (k : K) (v : V) d :
  map fst (dict_set k v d) =
  if bool_decide (k ∈ map fst d) then map fst d else map fst d ++ [k].
Proof.
  induction d as [|[k0 v0] d IH]; cbn [dict_set map fst].
  - by rewrite bool_decide_false by apply not_elem_of_nil.
  - destruct (decide (k = k0)) as [->|Hne]; cbn [dict_set map fst].
    + by rewrite bool_decide_true by left.
    + rewrite IH. destruct (decide (k ∈ map fst d)) as [Hin|Hin].
      * rewrite !bool_decide_true; [done|by right|done].
      * rewrite !bool_decide_false; [done| |done].
        by intros [?|?]%elem_of_cons.
Qed.

Lemma dict_set_NoDup {K V} `{EqDecision K} (k : K) (v : V) d :
  NoDup (map fst d) -> NoDup (map fst (dict_set k v d)).
Proof.
  intros Hd. rewrite dict_set_fst. case_bool_decide as Hk; [done|].
  apply NoDup_app. split; [done|]. split.
  - intros x Hx ->%list_elem_of_singleton. done.
  - apply NoDup_singleton.
Qed.

Lemma foldl_snoc {A B} (f : A -> B -> A) a l x :
  foldl f a (l ++ [x]) = f (foldl f a l) x.
Proof. by rewrite foldl_app. Qed.

Lemma add_alias_NoDup ms d :
  NoDup (map fst d) -> NoDup (map fst (foldl add_alias d ms)).
Proof.
  intros Hd. induction ms as [|m ms IH] using rev_ind; [done|].
  rewrite foldl_snoc. unfold add_alias at 1. by apply dict_set_NoDup.
Qed.

(** The binding of [a] after the matches [ms]: that of the last match whose
    alias is [a]. *)
Lemma add_alias_last ms d a :
  dict_get a (foldl add_alias d ms) =
  match head (filter (fun m => bool_decide (group_or_empty 3 m = a)) (rev ms)) with
  | Some m => Some (group_or_empty 1 m, group_or_empty 2 m)
  | None => dict_get a d
  end.
Proof.
  induction ms as [|m ms IH] using rev_ind; [done|].
  rewrite foldl_snoc, rev_app_distr. cbn [rev app].
  unfold add_alias at 1. rewrite dict_get_set, filter_cons.
  destruct (decide (a = group_or_empty 3 m)) as [->|Hne].
  - by rewrite decide_True by by apply bool_decide_pack.
  - rewrite decide_False; [done|].
    intros H. apply bool_decide_unpack in H. by apply Hne.
Qed.

(** Property X15.  The alias map binds every alias once, and to the table of
    its last binding, the join clauses counting after the from clauses. *)
Theorem collected_aliases_last_binding sql :
  NoDup (map fst (_collect_aliases sql)) /\
  forall a,
    dict_get a (_collect_aliases sql) =
    match head (filter (fun m => bool_decide (group_or_empty 3 m = a))
                       (rev (finditer ALIAS_FROM_RE sql
                             ++ finditer ALIAS_JOIN_RE sql))) with
    | Some m => Some (group_or_empty 1 m, group_or_empty 2 m)
    | None => None
    end.
Proof.
  unfold _collect_aliases. split.
  - apply add_alias_NoDup, add_alias_NoDup. constructor.
  - intros a. rewrite <- foldl_app. by rewrite add_alias_last.
Qed.

End Aliases.

Section UnitWords.

(** Property X16.  Three of the seven words of the hectare test and three of
    the eight of the metric test never decide: each holds another word of
    the list. *)
Theorem unit_words_that_decide text :
  _mentions_hectares text
    = any_in ["hectarea"; "hectárea"; " ha"; " en hectá"] (lower text) /\
  _mentions_metric_units text
    = any_in [" metro"; " m "; " km"; "kilometro"; "kilómetro"] (lower text).
Proof.
  unfold _mentions_hectares, _mentions_metric_units, any_in.
  set (q := lower text). cbn [existsb]. rewrite !orb_false_r.
  assert (H1 : contains (py "hectareas") q = true -> contains (py "hectarea") q = true).
  { apply (contains_inner [] (py "hectarea") (py "s")). }
  assert (H2 : contains (py "hectáreas") q = true -> contains (py "hectárea") q = true).
  { apply (contains_inner [] (py "hectárea") (py "s")). }
  assert (H3 : contains (py " en ha") q = true -> contains (py " ha") q = true).
  { apply (contains_inner (py " en") (py " ha") []). }
  assert (H4 : contains (py " metros") q = true -> contains (py " metro") q = true).
  { apply (contains_inner [] (py " metro") (py "s")). }
  assert (H5 : contains (py "kilometros") q = true -> contains (py "kilometro") q = true).
  { apply (contains_inner [] (py "kilometro") (py "s")). }
  assert (H6 : contains (py "kilómetros") q = true -> contains (py "kilómetro") q = true).
  { apply (contains_inner [] (py "kilómetro") (py "s")). }
  split.
  - destruct (contains (py "hectarea") q), (contains (py "hectárea") q),
      (contains (py "hectareas") q), (contains (py "hectáreas") q),
      (contains (py " ha") q), (contains (py " en ha") q),
      (contains (py " en hectá") q); try done;
      try (by specialize (H1 eq_refl)); try (by specialize (H2 eq_refl));
      try (by specialize (H3 eq_refl)).
  - destruct (contains (py " metro") q), (contains (py " metros") q),
      (contains (py " m ") q), (contains (py " km") q),
      (contains (py "kilometro") q), (contains (py "kilómetro") q),
      (contains (py "kilometros") q), (contains (py "kilómetros") q); try done;
      try (by specialize (H4 eq_refl)); try (by specialize (H5 eq_refl));
      try (by specialize (H6 eq_refl)).
Qed.

End UnitWords.

Section QuietRewrite.

Context {St : Type}.

Lemma sub_from_state r (repl : rmatch -> St -> str * St) skip bf af st :
  (forall m st, (repl m st).2 = st) ->
  (sub_from r repl skip bf af st).2 = st.
Proof.
  intros Hq. revert skip bf st.
  induction af as [|x af IH]; intros skip bf st.
  - destruct skip as [|n]; simpl; [|done].
    destruct (match_at r (Cursor bf [])) as [m|]; [|done].
    specialize (Hq m st). by destruct (repl m st).
  - destruct skip as [|n]; simpl; [|apply IH].
    destruct (match_at r (Cursor bf (x :: af))) as [m|].
    + specialize (Hq m st). destruct (repl m st) as [new st1]. simpl in Hq.
      subst st1. specialize (IH (m_len m - 1)%nat (x :: bf) st).
      destruct (sub_from r repl (m_len m - 1) (x :: bf) af st) as [out st2].
      simpl in IH. by destruct (m_len m).
    + specialize (IH 0%nat (x :: bf) st).
      by destruct (sub_from r repl 0 (x :: bf) af st).
Qed.

End QuietRewrite.

Section EmptyCatalog.

Variable set_iter : list ref -> list ref.

Lemma alias_step_unresolved cache st alias sch tab :
  get_table cache sch tab = None ->
  alias_step cache [] st (alias, (sch, tab)) = st.
Proof.
  intros Hc. unfold alias_step. cbv beta iota zeta.
  unfold meta_get, _id_for, _geom_for. by rewrite Hc.
Qed.

Lemma pair_quiet_without_catalog e m fixes :
  table_meta e = [] -> want_metric e = false ->
  _fix_st_geom_pair ∅ e m fixes = (group0 m, fixes).
Proof.
  intros Htm Hw. unfold _fix_st_geom_pair.
  destruct (found _ _ || found _ _); [done|].
  destruct (_resolve_expr e _) as [[[[s1 t1] a1] c1]|]; [|done].
  destruct (_resolve_expr e _) as [[[[s2 t2] a2] c2]|]; [|done].
  rewrite Hw. unfold srid_of, meta_get. rewrite Htm. simpl.
  unfold _srid_for, get_table. by rewrite !lookup_empty.
Qed.

(** Property X18.  With an empty catalog and a question that asks neither
    for metric units nor for hectares, the rewrite returns the statement as
    it was given and records no fix. *)
Theorem fix_sql_without_catalog sql question :
  _mentions_metric_units question = false ->
  _mentions_hectares question = false ->
  fix_sql ∅ set_iter sql question = (sql, []).
Proof.
  intros Hm Hh. unfold fix_sql. rewrite build_meta_empty.
  unfold apply_passes. rewrite Hh, Hm.
  assert (H2 : foldl (alias_step ∅ []) (sql, []) (_collect_aliases sql) = (sql, [])).
  { induction (_collect_aliases sql) as [|[a [s t]] l IH] using rev_ind; [done|].
    rewrite foldl_snoc, IH. apply alias_step_unresolved, lookup_empty. }
  rewrite H2. cbn [foldl fst snd].
  set (e := mkEnv _ _ _ _ _).
  assert (Hst : (sub_from ST_PAIR_RE (_fix_st_geom_pair ∅ e) 0 [] sql []).2 = []).
  { apply sub_from_state. intros m st. by rewrite pair_quiet_without_catalog. }
  destruct (sub_with_faithful ST_PAIR_RE (_fix_st_geom_pair ∅ e) sql []
              (fix_st_geom_pair_faithful ∅ e)) as (l & Hl & Ht).
  unfold sub_with in *.
  rewrite Hst in Hl. destruct l; [|discriminate].
  destruct (sub_from _ _ _ _ _ _) as [out fixes]. simpl in *.
  rewrite Ht by done. by subst.
Qed.

End EmptyCatalog.

Lemma fix_sql_without_catalog_witness :
  fix_sql ∅ id (py "SELECT a.id, ST_Area(a.geom) FROM dm.predios a")
    (py "cuantos predios existen")
  = (py "SELECT a.id, ST_Area(a.geom) FROM dm.predios a", []).
Proof.
  apply (fix_sql_without_catalog id
           (py "SELECT a.id, ST_Area(a.geom) FROM dm.predios a")
           (py "cuantos predios existen")).
  - reflexivity.
  - reflexivity.
Defined.

(* ===================================================================== *)
(** ** The unit words and the hectare pass *)
(* ===================================================================== *)

Section HectarePass.









End HectarePass.



(** The same with a metric word: the blank, the letter and the blank of
    " m " are enough for the spatial predicates to be normalised. *)
Lemma lone_letter_is_metric :
  _mentions_metric_units (py "lado m norte") = true /\
  fix_sql ∅ id
    (py "SELECT 1 FROM s.t a JOIN s.u b ON ST_Intersects(a.geom, b.geom)")
    (py "lado m norte")
  = (py "SELECT 1 FROM s.t a JOIN s.u b ON ST_Intersects(a.geom, ST_Transform(b.geom,32719))",
     [py "ST_Intersects: normalizado a EPSG:32719 (metros/km)"]).
Proof. by vm_compute. Qed.

Import Prompts Chat.

(* ===================================================================== *)
(** ** Properties of the schema context *)
(* ===================================================================== *)

Section SchemaContext.

Lemma len_cons c s :
  len (c :: s) = (if is_continuation c then 0 else 1) + len s.
Proof.
  unfold len. cbn [filter list_filter].
  destruct (is_continuation c); done.
Qed.

Lemma take_chars_len n s : len (take_chars n s) <= n.
Proof.
  revert n. induction s as [|c s IH]; intros n; cbn [take_chars].
  - unfold len. simpl. lia.
  - destruct (is_continuation c) eqn:Hc.
    + rewrite len_cons, Hc. apply IH.
    + destruct n as [|n]; [unfold len; simpl; lia|].
      rewrite len_cons, Hc. specialize (IH n). lia.
Qed.

Lemma take_chars_prefix n s : exists r, s = take_chars n s ++ r.
Proof.
  revert n. induction s as [|c s IH]; intros n; simpl; [by exists []|].
  destruct (is_continuation c).
  - destruct (IH n) as [r Hr]. exists r. simpl. by rewrite <- Hr.
  - destruct n as [|n]; [by exists (c :: s)|].
    destruct (IH n) as [r Hr]. exists r. simpl. by rewrite <- Hr.
Qed.

Lemma take_chars_nonempty n c s : take_chars (S n) (c :: s) <> [].
Proof. simpl. by destruct (is_continuation c). Qed.

Lemma join_nonempty sep p ps : p <> [] -> join sep (p :: ps) <> [].
Proof.
  intros Hp. destruct ps as [|q ps]; simpl; [done|].
  destruct p; [done|]. done.
Qed.

Variable cache : gmap (str * str) TableInfo.
Variable float_repr : float -> str.

Lemma ctx_line_nonempty extra r : ctx_line cache float_repr extra r <> [].
Proof.
  destruct r as [s t]. unfold ctx_line.
  destruct (get_table cache s t) as [ti|].
  - destruct (extra !! _) as [md|]; intros H;
      apply app_eq_nil in H as [_ H]; discriminate.
  - intros H. apply app_eq_nil in H as [_ H]. discriminate.
Qed.

(** Property X14.  The schema context never exceeds 5000 characters, is a
    prefix of the lines of the references joined by newlines, and is empty
    exactly when no table reference is found in the text. *)
Theorem build_schema_ctx_bounded text extra :
  len (build_schema_ctx cache float_repr text extra) <= 5000 /\
  (exists rest,
     join nl (map (ctx_line cache float_repr (default ∅ extra)) (find_table_refs text))
     = build_schema_ctx cache float_repr text extra ++ rest) /\
  (build_schema_ctx cache float_repr text extra = [] <-> find_table_refs text = []).
Proof.
  unfold build_schema_ctx.
  destruct (find_table_refs text) as [|r refs] eqn:E.
  - split; [unfold len; simpl; lia|]. split; [by exists []|done].
  - split; [apply take_chars_len|]. split; [apply take_chars_prefix|].
    split; [|discriminate]. intros H. exfalso.
    pose proof (join_nonempty nl (ctx_line cache float_repr (default ∅ extra) r)
                  (map (ctx_line cache float_repr (default ∅ extra)) refs)
                  (ctx_line_nonempty _ r)) as Hj.
    cbn [map] in H.
    destruct (join nl _) as [|c j]; [done|].
    by apply take_chars_nonempty in H.
Qed.

End SchemaContext.

(* ===================================================================== *)
(** ** Properties of the chat handler *)
(* ===================================================================== *)

Section Fence.

Lemma startswith_ticks s : startswith (py "```") s = (3 <=? ticks s)%nat.
Proof.
  change (py "```") with ["`"; "`"; "`"]%char.
  destruct s as [|a [|b [|c s]]]; cbn [startswith ticks];
    rewrite ?(Ascii.eqb_sym "`"%char);
    repeat match goal with
           | |- context [Ascii.eqb ?x "`"%char] =>
               destruct (Ascii.eqb x "`"%char)
           end; try done.
Qed.

Lemma ticks_after_fence s :
  startswith (py "```") s = true -> ticks (drop 3 s) <= ticks s.
Proof.
  intros H. apply startswith_split in H as [r ->].
  change (drop 3 (py "```" ++ r)) with r. simpl. lia.
Qed.

Lemma replace_fence_inv k s :
  let r := replace_from (py "```") [] k s in
  contains (py "```") r = false /\ ticks r <= 2 /\ ticks r <= ticks (drop k s).
Proof.
  revert k. induction s as [|c s IH]; intros k.
  - destruct k; simpl; repeat split; lia || done.
  - destruct k as [|k].
    + cbn [replace_from].
      destruct (startswith (py "```") (c :: s)) eqn:Hs.
      * change (length (py "```") - 1) with 2. cbn [app].
        destruct (IH 2) as (H1 & H2 & H3). split; [done|]. split; [done|].
        etransitivity; [exact H3|].
        change (drop 2 s) with (drop 3 (c :: s)). rewrite drop_0.
        by apply ticks_after_fence.
      * destruct (IH 0) as (H1 & H2 & H3). rewrite drop_0 in *.
        rewrite startswith_ticks in Hs. apply Nat.leb_gt in Hs.
        assert (Ht : ticks (c :: replace_from (py "```") [] 0 s)
                     <= ticks (c :: s)).
        { cbn [ticks]. destruct (Ascii.eqb c "`"); lia. }
        split; [|lia].
        change (contains ?w (?x :: ?t))
          with (startswith w (x :: t) || contains w t).
        rewrite H1, orb_false_r, startswith_ticks.
        apply Nat.leb_gt. lia.
    + cbn [replace_from]. destruct (IH k) as (H1 & H2 & H3). done.
Qed.

Lemma contains_strip w s : contains w (strip s) = true -> contains w s = true.
Proof.
  intros H. destruct (strip_split s) as (a & b & Hs & _).
  apply contains_split in H as (l & r & Hl). rewrite Hs, Hl.
  rewrite <- !app_assoc.
  replace (a ++ l ++ w ++ r ++ b) with ((a ++ l) ++ w ++ (r ++ b))
    by by rewrite <- !app_assoc.
  apply contains_app.
Qed.

(** Property X19.  A generated text that opens with a code fence for SQL
    leaves the cleaning without any code fence; any other text is left as it
    is. *)
Theorem strip_fence_leaves_no_fence s :
  (startswith (py "```sql") s = true ->
   contains (py "```") (strip_fence s) = false) /\
  (startswith (py "```sql") s = false -> strip_fence s = s).
Proof.
  unfold strip_fence. split; intros ->; [|done].
  destruct (contains _ (strip _)) eqn:E; [|done].
  apply contains_strip in E. unfold replace in E.
  destruct (replace_fence_inv 0 (replace_from (py "```sql") [] 0 s)) as [H _].
  by rewrite H in E.
Qed.

End Fence.

Section Handler.

Variable parse_one : str -> parse_outcome.
Variable cache : gmap (str * str) TableInfo.
Variable set_iter : list ref -> list ref.
Variable planner : str -> planner_answer.
Variable session : list str -> str -> option (list row).
Variable infer_sql : str -> option str.
Variable infer_chat : str -> option str.
Variable float_repr : float -> str.

Local Abbreviation chat :=
  (chat parse_one cache set_iter planner session infer_sql infer_chat
        float_repr).
Local Abbreviation plan_and_run :=
  (plan_and_run cache set_iter planner session infer_chat float_repr).
Local Abbreviation candidate_sql := (candidate_sql cache infer_sql float_repr).
Local Abbreviation too_expensive := (too_expensive float_repr).
Local Abbreviation fixed_sql := (fixed_sql cache set_iter).

Lemma accepted_reason sql reason :
  is_safe_sql parse_one sql = (true, reason) -> reason = py "OK".
Proof.
  intros H.
  destruct (decide (strip sql = [])) as [Hb|Hb].
  { by rewrite (is_safe_sql_blank parse_one sql Hb) in H. }
  rewrite (is_safe_sql_nonblank parse_one sql Hb) in H.
  destruct (parser_input sql) as [t|]; [|discriminate].
  destruct (parse_one t) as [a|e]; [|discriminate].
  destruct (ALLOW a); [|discriminate].
  destruct (scan_block_cases BLOCK_KW (padded sql)) as [Hs|(kw & _ & _ & Hs)];
    rewrite Hs in H; [by injection H as <-|discriminate].
Qed.

Lemma too_expensive_allows plan why :
  too_expensive plan = Some (false, why) -> why = [].
Proof.
  unfold ExplainGate.too_expensive.
  destruct (plan !! py "total_cost") as [v|]; [|by intros [= <-]].
  destruct (truthy_val (if truthy_val v then v else PInt 0));
    [|by intros [= <-]].
  destruct (if truthy_val v then v else PInt 0) as [|n|x|s];
    [by intros [= <-]| | |discriminate].
  - destruct (5000000 <? n)%Z; [discriminate|by intros [= <-]].
  - destruct (PrimFloat.ltb 5000000 x); [discriminate|by intros [= <-]].
Qed.

(** What [plan_and_run] asks of the database. *)
Lemma plan_and_run_events in_ sql0 ev :
  ev ∈ (plan_and_run in_ sql0).2 ->
  let sql1 := (fixed_sql in_ sql0).1 in
  ev = Planned sql1 \/
  (ev = AskedChat (explanation_prompt sql1)) \/
  (ev = Ran (sql_limited sql1 500) /\ execute in_ = true /\
   explain_summary planner sql1 !! py "error" = None /\
   too_expensive (explain_summary planner sql1) = Some (false, [])).
Proof.
  unfold Chat.plan_and_run.
  destruct (fixed_sql in_ sql0) as [sql1 fixes]. cbn [fst].
  destruct (explain_summary planner sql1 !! py "error") as [e|] eqn:He.
  { intros H. apply list_elem_of_singleton in H. by left. }
  destruct (too_expensive (explain_summary planner sql1)) as [[[] why]|] eqn:Ht.
  - intros H. apply list_elem_of_singleton in H. by left.
  - apply too_expensive_allows in Ht as Hw. subst why.
    assert (Hran : forall ev', ev' ∈ (if execute in_
                     then [Ran (sql_limited sql1 500)] else []) ->
                   ev' = Ran (sql_limited sql1 500) /\ execute in_ = true).
    { intros ev'. destruct (execute in_); intros H.
      - by apply list_elem_of_singleton in H.
      - by apply elem_of_nil in H. }
    destruct (if execute in_ then run_query_secure session sql1 500 else Some [])
      as [rows|].
    + destruct (infer_chat _) as [ex|]; cbn [snd];
        (intros [->|[H|H]%elem_of_app]%elem_of_cons;
         [by left
         |right; right; destruct (Hran _ H) as [-> ?]; done
         |apply list_elem_of_singleton in H; right; by left]).
    + cbn [snd]. intros [->|H]%elem_of_cons; [by left|].
      right; right. by destruct (Hran _ H) as [-> ?].
  - intros H. apply list_elem_of_singleton in H. by left.
Qed.

(** Property X20.  A statement reaches the planner or the database only
    after the validator accepted the candidate statement; what runs is the
    accepted statement, rewritten when a fix was recorded, with the row
    limit of 500, and only when execution was asked for, the planner
    answered a plan and the cost gate let it pass. *)
Theorem chat_reaches_database_after_acceptance in_ statement :
  (Planned statement ∈ (chat in_).2 \/ Ran statement ∈ (chat in_).2) ->
  exists sql0,
    candidate_sql in_ = Some sql0 /\
    is_safe_sql parse_one sql0 = (true, py "OK") /\
    let sql1 := (fixed_sql in_ sql0).1 in
    (Planned statement ∈ (chat in_).2 -> statement = sql1) /\
    (Ran statement ∈ (chat in_).2 ->
       statement = sql_limited sql1 500 /\ execute in_ = true /\
       explain_summary planner sql1 !! py "error" = None /\
       too_expensive (explain_summary planner sql1) = Some (false, [])).
Proof.
  unfold Chat.chat.
  destruct (negb _ && negb _).
  { intros [H|H]; by apply elem_of_nil in H. }
  set (asked := if truthy_opt (question in_) then _ else _).
  assert (Hasked : forall ev, ev ∈ asked -> exists p, ev = AskedSql p).
  { intros ev. unfold asked. destruct (truthy_opt (question in_)); intros H.
    - apply list_elem_of_singleton in H. by eexists.
    - by apply elem_of_nil in H. }
  assert (Hno : forall st, (Planned st ∈ asked \/ Ran st ∈ asked) -> False).
  { intros st [H|H]; apply Hasked in H as [p H]; discriminate. }
  destruct (candidate_sql in_) as [[|c sql0]|] eqn:Hc;
    [intros H; by apply Hno in H| |intros H; by apply Hno in H].
  destruct (is_safe_sql parse_one (c :: sql0)) as [[] reason] eqn:Hs;
    [|intros H; by apply Hno in H].
  apply accepted_reason in Hs as Hr. subst reason.
  pose proof (plan_and_run_events in_ (c :: sql0)) as Hev.
  destruct (plan_and_run in_ (c :: sql0)) as [out events]. cbn [snd] in *.
  intros _. exists (c :: sql0). split; [done|]. split; [done|].
  cbv zeta. split.
  - intros [H|H]%elem_of_app; [exfalso; apply (Hno statement); by left|].
    destruct (Hev _ H) as [[= ->]|[[=]|[[=] _]]]. done.
  - intros [H|H]%elem_of_app; [exfalso; apply (Hno statement); by right|].
    destruct (Hev _ H) as [[=]|[[=]|([= ->] & ? & ? & ?)]]. done.
Qed.

(** Property X21.  The answers of the handler: an answer with an error holds
    no rows and says that nothing was executed; any other answer holds at
    most 500 rows, none when execution was not asked for. *)
Theorem chat_reply_shape in_ r :
  (chat in_).1 = Reply r ->
  r_question r = question in_ /\ r_refs r = user_refs in_ /\
  match r_error r with
  | Some _ => r_rows r = None /\ r_explain r = None /\ r_executed r = false
  | None =>
      r_executed r = execute in_ /\
      exists rows explanation,
        r_rows r = Some rows /\ r_explain r = Some explanation /\
        length rows <= 500 /\ (execute in_ = false -> rows = [])
  end.
Proof.
  unfold Chat.chat.
  destruct (negb _ && negb _); [discriminate|].
  destruct (candidate_sql in_) as [[|c sql0]|]; [discriminate| |discriminate].
  destruct (is_safe_sql parse_one (c :: sql0)) as [[] reason]; [|discriminate].
  unfold Chat.plan_and_run.
  destruct (fixed_sql in_ (c :: sql0)) as [sql1 fixes].
  destruct (explain_summary planner sql1 !! py "error") as [e|].
  { cbn [fst]. intros [= <-]. done. }
  destruct (too_expensive (explain_summary planner sql1)) as [[[] why]|];
    [cbn [fst]; intros [= <-]; done| |discriminate].
  destruct (execute in_) eqn:He.
  - destruct (run_query_secure session sql1 500) as [rows|]; [|discriminate].
    destruct (infer_chat _) as [ex|]; [|discriminate].
    cbn [fst]. intros [= <-]. cbn. split; [done|]. split; [done|].
    split; [done|]. exists (take 500 rows), ex.
    split; [done|]. split; [done|]. split; [|done].
    rewrite length_take. lia.
  - destruct (infer_chat _) as [ex|]; [|discriminate].
    cbn [fst]. intros [= <-]. cbn. split; [done|]. split; [done|].
    split; [done|]. exists [], ex. split; [done|]. split; [done|].
    split; [simpl; lia|done].
Qed.

End Handler.

(** Property X22.  When a question is given, the statement of the caller
    plays no part. *)
Theorem chat_question_takes_precedence
    parse_one cache set_iter planner session infer_sql infer_chat float_repr
    q s1 s2 e :
  truthy_opt q = true ->
  chat parse_one cache set_iter planner session infer_sql infer_chat
    float_repr (mkChatIn q s1 e)
  = chat parse_one cache set_iter planner session infer_sql infer_chat
      float_repr (mkChatIn q s2 e).
Proof.
  intros Hq. unfold chat, candidate_sql, sql_prompt, user_refs, plan_and_run,
    fixed_sql, user_refs.
  cbn [question sql execute]. rewrite Hq. cbn [negb andb].
  by rewrite !andb_false_r.
Qed.

Section LimiterShape.

(** Property X5.  When the statement does not hold "limit", what is sent is
    the statement without the semicolons that end it, however many, followed
    by the limit and one semicolon. *)
Theorem sql_limited_appends sql n :
  contains (py "limit") (lower sql) = false ->
  exists body semis,
    sql = body ++ semis /\
    forallb (fun c => Ascii.eqb c ";") semis = true /\
    (forall c, last body = Some c -> c <> ";"%char) /\
    sql_limited sql n = body ++ py " LIMIT " ++ str_of_Z n ++ py ";".
Proof.
  intros H. unfold sql_limited. rewrite H. unfold rstrip_chars.
  destruct (drop_while_end_split (mem_char (py ";")) sql) as (b & Hb & Hall).
  exists (drop_while_end (mem_char (py ";")) sql), b.
  split; [done|]. split.
  - rewrite forallb_forall in *. intros c Hc. specialize (Hall c Hc).
    unfold mem_char in Hall. simpl in Hall. by rewrite orb_false_r in Hall.
  - split; [|done]. intros c Hc ->.
    apply drop_while_end_last in Hc. discriminate.
Qed.

End LimiterShape.

Lemma sql_limited_appends_witness :
  exists body semis,
    py "SELECT 1;;" = body ++ semis /\
    forallb (fun c => Ascii.eqb c ";") semis = true /\
    (forall c, last body = Some c -> c <> ";"%char) /\
    sql_limited (py "SELECT 1;;") 500 = body ++ py " LIMIT " ++ str_of_Z 500 ++ py ";".
Proof.
  apply (sql_limited_appends (py "SELECT 1;;") 500). reflexivity.
Defined.

(** Property X17.  The hints of the alias pass are the suggestions of the
    catalog: what [table_meta] holds for a table never differs from them. *)
Theorem alias_hints_come_from_catalog cache set_iter question sql sch tab :
  let tm := (_build_table_meta cache set_iter question sql).1 in
  or_else (meta_get tm (sch, tab) meta_id) (_id_for cache sch tab)
    = _id_for cache sch tab /\
  or_else (meta_get tm (sch, tab) meta_geom) (_geom_for cache sch tab)
    = _geom_for cache sch tab /\
  (get_table cache sch tab = None -> dict_get (sch, tab) tm = None).
Proof.
  cbv zeta. destruct (alias_hints cache set_iter question sql sch tab) as [H1 H2].
  split; [done|]. split; [done|]. apply build_meta_resolved.
Qed.

Lemma chat_reaches_database_after_acceptance_witness :
  exists sql0,
    candidate_sql ∅ (fun _ => None) (fun _ => py "0.0") ask_select = Some sql0 /\
    is_safe_sql (fun _ => Parsed Select) sql0 = (true, py "OK") /\
    let sql1 := (fixed_sql ∅ id ask_select sql0).1 in
    (Planned (py "SELECT 1 AS n LIMIT 500;")
       ∈ (chat (fun _ => Parsed Select) ∅ id (fun _ => PlanList ∅)
            one_row_session (fun _ => None) (fun _ => Some (py "Devuelve 1."))
            (fun _ => py "0.0") ask_select).2 ->
     py "SELECT 1 AS n LIMIT 500;" = sql1) /\
    (Ran (py "SELECT 1 AS n LIMIT 500;")
       ∈ (chat (fun _ => Parsed Select) ∅ id (fun _ => PlanList ∅)
            one_row_session (fun _ => None) (fun _ => Some (py "Devuelve 1."))
            (fun _ => py "0.0") ask_select).2 ->
     py "SELECT 1 AS n LIMIT 500;" = sql_limited sql1 500 /\
     execute ask_select = true /\
     explain_summary (fun _ => PlanList ∅) sql1 !! py "error" = None /\
     too_expensive (fun _ => py "0.0")
       (explain_summary (fun _ => PlanList ∅) sql1)
       = Some (false, [])).
Proof.
  apply (chat_reaches_database_after_acceptance
           (fun _ => Parsed Select) ∅ id (fun _ => PlanList ∅)
           one_row_session (fun _ => None) (fun _ => Some (py "Devuelve 1."))
           (fun _ => py "0.0") ask_select (py "SELECT 1 AS n LIMIT 500;")).
  right. apply list_elem_of_In. vm_compute. right. left. reflexivity.
Defined.

Lemma chat_reply_shape_witness :
  exists r,
    (chat (fun _ => Parsed Select) ∅ id (fun _ => PlanList ∅)
       one_row_session (fun _ => None) (fun _ => Some (py "Devuelve 1."))
       (fun _ => py "0.0") ask_select).1 = Reply r /\
    r_question r = question ask_select /\
    r_refs r = user_refs ask_select /\
    match r_error r with
    | Some _ => r_rows r = None /\ r_explain r = None /\ r_executed r = false
    | None =>
        r_executed r = execute ask_select /\
        exists rows explanation,
          r_rows r = Some rows /\ r_explain r = Some explanation /\
          length rows <= 500 /\ (execute ask_select = false -> rows = [])
    end.
Proof.
  eexists. split; [reflexivity|].
  apply (chat_reply_shape (fun _ => Parsed Select) ∅ id (fun _ => PlanList ∅)
           one_row_session (fun _ => None) (fun _ => Some (py "Devuelve 1."))
           (fun _ => py "0.0") ask_select).
  reflexivity.
Defined.

Lemma chat_question_takes_precedence_witness :
  chat (fun _ => Parsed Select) ∅ id (fun _ => PlanList ∅)
    one_row_session (fun _ => Some (py "SELECT 1 AS n"))
    (fun _ => Some (py "Devuelve 1.")) (fun _ => py "0.0")
    (mkChatIn (Some (py "dame un uno")) (Some (py "DROP TABLE t")) true)
  = chat (fun _ => Parsed Select) ∅ id (fun _ => PlanList ∅)
      one_row_session (fun _ => Some (py "SELECT 1 AS n"))
      (fun _ => Some (py "Devuelve 1.")) (fun _ => py "0.0")
      (mkChatIn (Some (py "dame un uno")) None true).
Proof.
  apply (chat_question_takes_precedence (fun _ => Parsed Select) ∅ id
           (fun _ => PlanList ∅) one_row_session
           (fun _ => Some (py "SELECT 1 AS n"))
           (fun _ => Some (py "Devuelve 1.")) (fun _ => py "0.0")
           (Some (py "dame un uno")) (Some (py "DROP TABLE t")) None true).
  reflexivity.
Defined.
